(** * Procedural generation core of the "Summer Afternoon" game

    A shallow embedding of the noise, terrain, placement, displacement and
    day-cycle code (MathUtils.js, Environment.js, GeometryUtils.js,
    Lighting.js) and of the helpers around it (interpolation, random
    helpers, angles, easing and integer utilities of MathUtils.js; the
    lights and the clock of Lighting.js; the statistics of Environment.js;
    grass blades, terrain, water and paths of GeometryUtils.js), together
    with the properties established about them.

    Number model.  A JavaScript number that is finite is a rational; the
    embedding computes with exact rationals [Q], so the rounding of IEEE-754
    arithmetic is outside the model.  Where the source can produce a value
    that is not a finite number (a division by zero in the displacement
    routines) the embedding uses the type [GeometryUtils.num], which adds
    the two infinities and NaN. *)

From Stdlib Require Import ZArith QArith Qround Qabs Qpower List Bool Lia Lra Psatz.
From Stdlib Require Import Permutation Reals Qreals.
Import ListNotations.
Open Scope Q_scope.

(** ** MathUtils.js ([src/unnamed/part_001]) *)

Module MathUtils.

Definition noiseTableSize : nat := 256.

(** [this.noiseTable[i]]: the table is an array of [2 * noiseTableSize]
    integers.  [initNoise] builds a [valid_table] ([initNoise_valid]), and on
    such a table every index used by [noise] lies inside the array
    ([noise_reads_in_table]), so the default is never returned. *)
Definition table_get (noiseTable : list Z) (i : Z) : Z :=
  nth (Z.to_nat i) noiseTable 0%Z.

(** The table after [initNoise]: a permutation of 0..255 followed by a
    copy of itself. *)
Definition valid_table (noiseTable : list Z) : Prop :=
  length noiseTable = (2 * noiseTableSize)%nat /\
  Permutation (firstn noiseTableSize noiseTable)
              (map Z.of_nat (seq 0 noiseTableSize)) /\
  skipn noiseTableSize noiseTable = firstn noiseTableSize noiseTable.

(** [p[n] = v], for an index inside the array. *)
Fixpoint update (p : list Z) (n : nat) (v : Z) : list Z :=
  match p, n with
  | [], _ => []
  | _ :: rest, O => v :: rest
  | x :: rest, S m => x :: update rest m v
  end.

(** [[p[i], p[j]] = [p[j], p[i]]]: both reads come first, then [p[i]] is
    written, then [p[j]]. *)
Definition swap (p : list Z) (i j : nat) : list Z :=
  let pj := nth j p 0%Z in
  let pi := nth i p 0%Z in
  update (update p i pj) j pi.

(** The shuffle of [initNoise],
    [for (let i = this.noiseTableSize - 1; i > 0; i--) {
       const j = Math.floor(Math.random() * (i + 1));
       [p[i], p[j]] = [p[j], p[i]]; }],
    from index [i] down, where [random k] is the value of the [k]-th call of
    [Math.random()]. *)
Fixpoint shuffleLoop (random : nat -> Q) (i k : nat) (p : list Z) : list Z :=
  match i with
  | O => p
  | S i' =>
      let j := Z.to_nat (Qfloor (random k * inject_Z (Z.of_nat (i + 1)))) in
      shuffleLoop random i' (S k) (swap p i j)
  end.

(** [static initNoise()], run once: [p] is filled with 0..255, shuffled,
    and copied twice into the table. *)
Definition initNoise (random : nat -> Q) : list Z :=
  let p := map Z.of_nat (seq 0 noiseTableSize) in
  let p := shuffleLoop random (noiseTableSize - 1) 0 p in
  p ++ p.

(** [static fade(t)] *)
Definition fade (t : Q) : Q := t * t * t * (t * (t * 6 - 15) + 10).

(** [static lerp(a, b, t)] *)
Definition lerp (a b t : Q) : Q := a + (b - a) * t.

(** [static grad2D(hash, x, y)] *)
Definition grad2D (hash : Z) (x y : Q) : Q :=
  let h := Z.land hash 3 in
  let u := if (h <? 2)%Z then x else y in
  let v := if (h <? 2)%Z then y else x in
  (if (Z.land h 1 =? 0)%Z then u else - u) +
  (if (Z.land h 2 =? 0)%Z then v else - v).

(** [static grad3D(hash, x, y, z)] *)
Definition grad3D (hash : Z) (x y z : Q) : Q :=
  let h := Z.land hash 15 in
  let u := if (h <? 8)%Z then x else y in
  let v := if (h <? 4)%Z then y
           else if ((h =? 12) || (h =? 14))%Z then x else z in
  (if (Z.land h 1 =? 0)%Z then u else - u) +
  (if (Z.land h 2 =? 0)%Z then v else - v).

(** [Math.floor(x) & 255] *)
Definition cell (x : Q) : Z := Z.land (Qfloor x) 255.

(** [x -= Math.floor(x)] *)
Definition frac (x : Q) : Q := x - inject_Z (Qfloor x).

(** [static noise(x, y)]: 2D gradient noise. *)
Definition noise (noiseTable : list Z) (x y : Q) : Q :=
  let T := table_get noiseTable in
  let X := cell x in
  let Y := cell y in
  let x := frac x in
  let y := frac y in
  let u := fade x in
  let v := fade y in
  let A := (T X + Y)%Z in
  let AA := T A in
  let AB := T (A + 1)%Z in
  let B := (T (X + 1)%Z + Y)%Z in
  let BA := T B in
  let BB := T (B + 1)%Z in
  lerp
    (lerp (grad2D (T AA) x y) (grad2D (T BA) (x - 1) y) u)
    (lerp (grad2D (T AB) x (y - 1)) (grad2D (T BB) (x - 1) (y - 1)) u)
    v.

(** The indices at which [noise(x, y)] reads [this.noiseTable], in the
    order of the source: [X], [A], [A + 1], [X + 1], [B], [B + 1], then
    [AA], [BA], [AB], [BB]. *)
Definition noise_reads (noiseTable : list Z) (x y : Q) : list Z :=
  let T := table_get noiseTable in
  let X := cell x in
  let Y := cell y in
  let A := (T X + Y)%Z in
  let B := (T (X + 1)%Z + Y)%Z in
  [X; A; (A + 1)%Z; (X + 1)%Z; B; (B + 1)%Z;
   T A; T B; T (A + 1)%Z; T (B + 1)%Z].

(** [static noise3D(x, y, z)] *)
Definition noise3D (noiseTable : list Z) (x y z : Q) : Q :=
  let T := table_get noiseTable in
  let X := cell x in
  let Y := cell y in
  let Z0 := cell z in
  let x := frac x in
  let y := frac y in
  let z := frac z in
  let u := fade x in
  let v := fade y in
  let w := fade z in
  let A := (T X + Y)%Z in
  let AA := (T A + Z0)%Z in
  let AB := (T (A + 1)%Z + Z0)%Z in
  let B := (T (X + 1)%Z + Y)%Z in
  let BA := (T B + Z0)%Z in
  let BB := (T (B + 1)%Z + Z0)%Z in
  lerp
    (lerp
       (lerp (grad3D (T AA) x y z) (grad3D (T BA) (x - 1) y z) u)
       (lerp (grad3D (T AB) x (y - 1) z) (grad3D (T BB) (x - 1) (y - 1) z) u)
       v)
    (lerp
       (lerp (grad3D (T (AA + 1)%Z) x y (z - 1))
             (grad3D (T (BA + 1)%Z) (x - 1) y (z - 1)) u)
       (lerp (grad3D (T (AB + 1)%Z) x (y - 1) (z - 1))
             (grad3D (T (BB + 1)%Z) (x - 1) (y - 1) (z - 1)) u)
       v)
    w.

(** The state of the loop of [fractalNoise]. *)
Record fractalState : Type := mkFractal {
  total : Q;
  frequency : Q;
  amplitude : Q;
  maxValue : Q
}.

(** One iteration of [for (let i = 0; i < octaves; i++) { ... }]. *)
Definition fractalStep (noiseTable : list Z) (x y persistence : Q)
           (s : fractalState) : fractalState :=
  {| total := total s
              + noise noiseTable (x * frequency s) (y * frequency s) * amplitude s;
     maxValue := maxValue s + amplitude s;
     amplitude := amplitude s * persistence;
     frequency := frequency s * 2 |}.

Fixpoint fractalLoop (noiseTable : list Z) (x y persistence : Q)
         (octaves : nat) (s : fractalState) : fractalState :=
  match octaves with
  | O => s
  | S k => fractalLoop noiseTable x y persistence k
                       (fractalStep noiseTable x y persistence s)
  end.

(** [let total = 0; let frequency = 1; let amplitude = 1; let maxValue = 0;] *)
Definition fractalInit : fractalState :=
  {| total := 0; frequency := 1; amplitude := 1; maxValue := 0 |}.

(** [static fractalNoise(x, y, octaves = 4, persistence = 0.5)].  The
    division [total / maxValue] is a division of finite numbers as long as
    [maxValue] is not zero, which [amplitudeSum_pos] gives for
    [octaves >= 1] and a non-negative [persistence]. *)
Definition fractalNoise (noiseTable : list Z) (x y : Q) (octaves : nat)
           (persistence : Q) : Q :=
  let s := fractalLoop noiseTable x y persistence octaves fractalInit in
  total s / maxValue s.

(** The two sums the documentation of [fractalNoise] speaks of: the sum
    of the octave amplitudes [persistence ^ i] and the sum of the octaves
    [noise(x * 2 ^ i, y * 2 ^ i) * persistence ^ i], for [i < octaves]. *)
Fixpoint amplitudeSum (persistence : Q) (octaves : nat) : Q :=
  match octaves with
  | O => 0
  | S k => amplitudeSum persistence k + persistence ^ Z.of_nat k
  end.

Fixpoint octaveSum (noiseTable : list Z) (x y persistence : Q) (octaves : nat) : Q :=
  match octaves with
  | O => 0
  | S k => octaveSum noiseTable x y persistence k
           + noise noiseTable (x * 2 ^ Z.of_nat k) (y * 2 ^ Z.of_nat k)
             * persistence ^ Z.of_nat k
  end.

End MathUtils.

(** ** Three.js (r128, the release [index.html] loads): the parts the
    generation code calls *)

Module THREE.

(** [x < y] on finite numbers. *)
Definition Qltb (x y : Q) : bool := negb (Qle_bool y x).

Record Vector3 : Type := mkVector3 { vx : Q; vy : Q; vz : Q }.

(** [Vector3.distanceToSquared(v)] *)
Definition distanceToSquared (a b : Vector3) : Q :=
  let dx := vx a - vx b in
  let dy := vy a - vy b in
  let dz := vz a - vz b in
  dx * dx + dy * dy + dz * dz.

(** [a.distanceTo(b) < d], where [distanceTo] is
    [Math.sqrt(this.distanceToSquared(v))].  The square root of a rational
    is not a rational in general, so the comparison is computed on the
    squares: for [s >= 0], [sqrt s < d] exactly when [0 < d] and
    [s < d * d].  [distanceTo_lt_sqrt] proves this reading against the
    square root of the real numbers. *)
Definition distanceTo_lt (a b : Vector3) (d : Q) : bool :=
  Qltb 0 d && Qltb (distanceToSquared a b) (d * d).

(** One vertex row of [PlaneGeometry]:
    [for (ix = 0; ix < gridX1; ix++) { x = ix * segment_width - width_half;
     vertices.push(x, -y, 0); }] *)
Definition planeRow (segment_width width_half : Q) (gridX1 : nat) (y : Q)
  : list Q :=
  flat_map (fun ix : nat =>
              [inject_Z (Z.of_nat ix) * segment_width - width_half; - y; 0])
           (seq 0 gridX1).

(** The position buffer built by
    [new PlaneGeometry(width, height, widthSegments, heightSegments)]:
    [(gridX + 1) * (gridY + 1)] vertices, three numbers each, all in the
    plane [z = 0]. *)
Definition PlaneGeometry (width height : Q) (widthSegments heightSegments : nat)
  : list Q :=
  let width_half := width / 2 in
  let height_half := height / 2 in
  let gridX := widthSegments in
  let gridY := heightSegments in
  let gridX1 := (gridX + 1)%nat in
  let gridY1 := (gridY + 1)%nat in
  let segment_width := width / inject_Z (Z.of_nat gridX) in
  let segment_height := height / inject_Z (Z.of_nat gridY) in
  flat_map (fun iy : nat =>
              planeRow segment_width width_half gridX1
                       (inject_Z (Z.of_nat iy) * segment_height - height_half))
           (seq 0 gridY1).

(** [geometry.attributes.position.count] *)
Definition vertexCount (positions : list Q) : nat := (length positions / 3)%nat.

Record Color : Type := mkColor { r : Q; g : Q; b : Q }.

(** [new THREE.Color(hex)] *)
Definition Color_setHex (hex : Z) : Color :=
  {| r := inject_Z (Z.land (Z.shiftr hex 16) 255) / 255;
     g := inject_Z (Z.land (Z.shiftr hex 8) 255) / 255;
     b := inject_Z (Z.land hex 255) / 255 |}.

(** [c.lerp(color, alpha)] *)
Definition Color_lerp (c color : Color) (alpha : Q) : Color :=
  {| r := r c + (r color - r c) * alpha;
     g := g c + (g color - g c) * alpha;
     b := b c + (b color - b c) * alpha |}.

(** The integer conversion applied by [<<] to its left operand: rounding
    toward zero. *)
Definition toInt (q : Q) : Z :=
  if Qle_bool 0 q then Qfloor q else Qceiling q.

(** [c.getHex()]:
    [(this.r * 255) << 16 ^ (this.g * 255) << 8 ^ (this.b * 255) << 0] *)
Definition Color_getHex (c : Color) : Z :=
  Z.lxor (Z.lxor (Z.shiftl (toInt (r c * 255)) 16)
                 (Z.shiftl (toInt (g c * 255)) 8))
         (Z.shiftl (toInt (b c * 255)) 0).

End THREE.

(** ** Environment.js ([src/unnamed/part_004]) *)

Module Environment.
Import MathUtils THREE.

Record TerrainConfig : Type := mkTerrainConfig {
  size : Q;
  segments : nat;
  heightVariation : Q;
  noiseScale : Q
}.

Record TreesConfig : Type := mkTreesConfig {
  trees_count : nat;
  minDistance : Q;
  trees_maxDistance : Q
}.

Record GrassConfig : Type := mkGrassConfig {
  patchCount : nat;
  bladesPerPatch : nat;
  grass_maxDistance : Q
}.

Record FlowersConfig : Type := mkFlowersConfig {
  flowers_count : nat;
  flowers_maxDistance : Q
}.

Record RocksConfig : Type := mkRocksConfig {
  rocks_count : nat;
  rocks_maxDistance : Q
}.

(** [this.config], the fields read by the generation code. *)
Record Config : Type := mkConfig {
  terrain_config : TerrainConfig;
  trees_config : TreesConfig;
  grass_config : GrassConfig;
  flowers_config : FlowersConfig;
  rocks_config : RocksConfig
}.

(** The values set by the constructor. *)
Definition defaultConfig : Config :=
  {| terrain_config := {| size := 200; segments := 64;
                          heightVariation := 8; noiseScale := 5 # 100 |};
     trees_config := {| trees_count := 150; minDistance := 8;
                        trees_maxDistance := 80 |};
     grass_config := {| patchCount := 300; bladesPerPatch := 50;
                        grass_maxDistance := 60 |};
     flowers_config := {| flowers_count := 200; flowers_maxDistance := 50 |};
     rocks_config := {| rocks_count := 80; rocks_maxDistance := 70 |} |}.

Inductive Kind : Type := Tree | GrassBlade | Flower | Rock.

(** A placed object, reduced to what the placement code decides about
    it: its kind and its position.  Scale, rotation, geometry and
    material are drawn independently of the position and are left out. *)
Record Instance : Type := mkInstance {
  kind : Kind;
  position : Vector3
}.

(** The fields of [Environment] that generation reads and writes.
    [draws] counts the calls of [getRandomTerrainPosition] made so far. *)
Record Env : Type := mkEnv {
  config : Config;
  terrain : option (list Q);
  trees : list Instance;
  grassPatches : list (list Instance);
  flowers : list Instance;
  rocks : list Instance;
  draws : nat
}.

(** [new Environment(scene)] with a given configuration. *)
Definition newEnvironment (c : Config) : Env :=
  {| config := c; terrain := None; trees := []; grassPatches := [];
     flowers := []; rocks := []; draws := 0 |}.

Section Generation.

(** [MathUtils.noiseTable], filled once by [initNoise]. *)
Variable noiseTable : list Z.

(** The runtime's [Math.cos], [Math.sin] and [Math.PI] on finite
    numbers. *)
Variable Math_cos Math_sin : Q -> Q.
Variable Math_PI : Q.

(** The two values of [Math.random()] consumed by the [k]-th call of
    [getRandomTerrainPosition] (angle first, distance second), and the
    two consumed for blade [i] of the patch placed at draw [k]. *)
Variable randomPosition : nat -> Q * Q.
Variable randomBlade : nat -> nat -> Q * Q.

(** The loop of [generateTerrain] over the position buffer:
    [for (let i = 0; i < vertices.length; i += 3)], reading
    [vertices[i]] and [vertices[i + 2]] and writing [vertices[i + 1]].
    A position buffer holds three numbers per vertex. *)
Fixpoint applyHeights (c : TerrainConfig) (vertices : list Q) : list Q :=
  match vertices with
  | x :: _ :: z :: rest =>
      let height := 0 in
      let height := height + noise noiseTable (x * noiseScale c) (z * noiseScale c)
                             * heightVariation c in
      let height := height + noise noiseTable (x * noiseScale c * 2)
                                   (z * noiseScale c * 2)
                             * heightVariation c * (5 # 10) in
      let height := height + noise noiseTable (x * noiseScale c * 4)
                                   (z * noiseScale c * 4)
                             * heightVariation c * (25 # 100) in
      x :: height :: z :: applyHeights c rest
  | _ => vertices
  end.

(** [async generateTerrain()] *)
Definition generateTerrain (env : Env) : Env :=
  let c := terrain_config (config env) in
  let geometry := PlaneGeometry (size c) (size c) (segments c) (segments c) in
  let vertices := applyHeights c geometry in
  {| config := config env; terrain := Some vertices; trees := trees env;
     grassPatches := grassPatches env; flowers := flowers env;
     rocks := rocks env; draws := draws env |}.

(** [getTerrainHeightAt(x, z)] *)
Definition getTerrainHeightAt (env : Env) (x z : Q) : Q :=
  match terrain env with
  | None => 0
  | Some _ =>
      let c := terrain_config (config env) in
      let height := 0 in
      let height := height + noise noiseTable (x * noiseScale c) (z * noiseScale c)
                             * heightVariation c in
      let height := height + noise noiseTable (x * noiseScale c * 2)
                                   (z * noiseScale c * 2)
                             * heightVariation c * (5 # 10) in
      let height := height + noise noiseTable (x * noiseScale c * 4)
                                   (z * noiseScale c * 4)
                             * heightVariation c * (25 # 100) in
      height
  end.

(** [getRandomTerrainPosition(maxDistance)], at its [k]-th call. *)
Definition getRandomTerrainPosition (maxDistance : Q) (k : nat) : Vector3 :=
  let angle := fst (randomPosition k) * Math_PI * 2 in
  let distance := snd (randomPosition k) * maxDistance in
  mkVector3 (Math_cos angle * distance) 0 (Math_sin angle * distance).

(** [isValidTreePosition(position, existingPositions, minDistance)] *)
Fixpoint isValidTreePosition (position : Vector3)
         (existingPositions : list Vector3) (minDistance : Q) : bool :=
  match existingPositions with
  | [] => true
  | existingPos :: rest =>
      if distanceTo_lt position existingPos minDistance then false
      else isValidTreePosition position rest minDistance
  end.

(** [const maxAttempts = 50;] in [placeTrees]. *)
Definition maxAttempts : nat := 50.

(** The [do { ... } while (...)] loop of [placeTrees]:
    [do { position = this.getRandomTerrainPosition(config.maxDistance);
          attempts++; }
     while (attempts < maxAttempts &&
            !this.isValidTreePosition(position, placedPositions,
                                      config.minDistance));]
    [attempts] is the counter before the iteration and [k] the index of
    the next draw; the result is the last position, the final value of
    [attempts] and the index of the next draw.  The loop is entered with
    [fuel = maxAttempts]; as [attempts] grows by one per iteration and
    the loop stops at [maxAttempts], the fuel cannot run out
    ([drawLoop_fuel]). *)
Fixpoint drawLoop (c : TreesConfig) (placedPositions : list Vector3)
         (fuel attempts k : nat) : Vector3 * nat * nat :=
  let position := getRandomTerrainPosition (trees_maxDistance c) k in
  let attempts := S attempts in
  if (attempts <? maxAttempts)%nat &&
     negb (isValidTreePosition position placedPositions (minDistance c))
  then match fuel with
       | S fuel' => drawLoop c placedPositions fuel' attempts (S k)
       | O => (position, attempts, S k)
       end
  else (position, attempts, S k).

(** [createTree(position)]: [treeGroup.position.copy(position)]; the
    function always returns the group it built. *)
Definition createTree (env : Env) (position : Vector3) : option Instance :=
  Some {| kind := Tree; position := position |}.

(** The state of [placeTrees] between two iterations of its [for] loop. *)
Record PlaceState : Type := mkPlaceState {
  placedPositions : list Vector3;
  placedTrees : list Instance;
  nextDraw : nat
}.

(** The body of [for (let i = 0; i < config.count; i++)] in
    [placeTrees]. *)
Definition placeTreeStep (env : Env) (s : PlaceState) : PlaceState :=
  let c := trees_config (config env) in
  let '(position, attempts, k) :=
    drawLoop c (placedPositions s) maxAttempts 0 (nextDraw s) in
  if (maxAttempts <=? attempts)%nat then
    (* continue *)
    {| placedPositions := placedPositions s; placedTrees := placedTrees s;
       nextDraw := k |}
  else
    match createTree env position with
    | Some tree =>
        {| placedPositions := placedPositions s ++ [position];
           placedTrees := placedTrees s ++ [tree];
           nextDraw := k |}
    | None =>
        {| placedPositions := placedPositions s; placedTrees := placedTrees s;
           nextDraw := k |}
    end.

Fixpoint placeTreesLoop (env : Env) (count : nat) (s : PlaceState) : PlaceState :=
  match count with
  | O => s
  | S n => placeTreesLoop env n (placeTreeStep env s)
  end.

(** The run of [placeTrees] from the current environment:
    [placedPositions] starts empty, [this.trees] is appended to. *)
Definition placeTreesRun (env : Env) : PlaceState :=
  placeTreesLoop env (trees_count (trees_config (config env)))
                 {| placedPositions := []; placedTrees := trees env;
                    nextDraw := draws env |}.

(** [async placeTrees()] *)
Definition placeTrees (env : Env) : Env :=
  let s := placeTreesRun env in
  {| config := config env; terrain := terrain env; trees := placedTrees s;
     grassPatches := grassPatches env; flowers := flowers env;
     rocks := rocks env; draws := nextDraw s |}.

(** One blade of [createGrassPatch(position)]:
    [x = position.x + (Math.random() - 0.5) * patchSize], the same for
    [z], [y = this.getTerrainHeightAt(x, z)],
    [matrix.setPosition(x, y, z)]. *)
Definition createGrassBlade (env : Env) (position : Vector3) (k i : nat)
  : Instance :=
  let patchSize := 2 in
  let x := vx position + (fst (randomBlade k i) - (5 # 10)) * patchSize in
  let z := vz position + (snd (randomBlade k i) - (5 # 10)) * patchSize in
  let y := getTerrainHeightAt env x z in
  {| kind := GrassBlade; position := mkVector3 x y z |}.

(** [createGrassPatch(position)], for the patch placed at draw [k]. *)
Definition createGrassPatch (env : Env) (position : Vector3) (k : nat)
  : option (list Instance) :=
  Some (map (createGrassBlade env position k)
            (seq 0 (bladesPerPatch (grass_config (config env))))).

(** [createFlower(position)]: [flower.position.copy(position)], then
    [flower.position.y = this.getTerrainHeightAt(position.x, position.z) + 0.1]. *)
Definition createFlower (env : Env) (position : Vector3) : option Instance :=
  Some {| kind := Flower;
          position := mkVector3 (vx position)
                                (getTerrainHeightAt env (vx position) (vz position)
                                 + (1 # 10))
                                (vz position) |}.

(** [createRock(position)]: [rock.position.copy(position)], then
    [rock.position.y = this.getTerrainHeightAt(position.x, position.z)]. *)
Definition createRock (env : Env) (position : Vector3) : option Instance :=
  Some {| kind := Rock;
          position := mkVector3 (vx position)
                                (getTerrainHeightAt env (vx position) (vz position))
                                (vz position) |}.

(** The body of the loop of [createGrassPatches]. *)
Definition grassPatchStep (env : Env) : Env :=
  let c := grass_config (config env) in
  let k := draws env in
  let position := getRandomTerrainPosition (grass_maxDistance c) k in
  let patches :=
    match createGrassPatch env position k with
    | Some grassPatch => grassPatches env ++ [grassPatch]
    | None => grassPatches env
    end in
  {| config := config env; terrain := terrain env; trees := trees env;
     grassPatches := patches; flowers := flowers env; rocks := rocks env;
     draws := S k |}.

(** The body of the loop of [placeFlowers]. *)
Definition flowerStep (env : Env) : Env :=
  let c := flowers_config (config env) in
  let k := draws env in
  let position := getRandomTerrainPosition (flowers_maxDistance c) k in
  let fs :=
    match createFlower env position with
    | Some flower => flowers env ++ [flower]
    | None => flowers env
    end in
  {| config := config env; terrain := terrain env; trees := trees env;
     grassPatches := grassPatches env; flowers := fs; rocks := rocks env;
     draws := S k |}.

(** The body of the loop of [placeRocks]. *)
Definition rockStep (env : Env) : Env :=
  let c := rocks_config (config env) in
  let k := draws env in
  let position := getRandomTerrainPosition (rocks_maxDistance c) k in
  let rs :=
    match createRock env position with
    | Some rock => rocks env ++ [rock]
    | None => rocks env
    end in
  {| config := config env; terrain := terrain env; trees := trees env;
     grassPatches := grassPatches env; flowers := flowers env; rocks := rs;
     draws := S k |}.

(** [for (let i = 0; i < n; i++) body] on the environment. *)
Fixpoint repeat_step (body : Env -> Env) (n : nat) (env : Env) : Env :=
  match n with
  | O => env
  | S m => repeat_step body m (body env)
  end.

(** [async createGrassPatches()] *)
Definition createGrassPatches (env : Env) : Env :=
  repeat_step grassPatchStep (patchCount (grass_config (config env))) env.

(** [async placeFlowers()] *)
Definition placeFlowers (env : Env) : Env :=
  repeat_step flowerStep (flowers_count (flowers_config (config env))) env.

(** [async placeRocks()] *)
Definition placeRocks (env : Env) : Env :=
  repeat_step rockStep (rocks_count (rocks_config (config env))) env.

(** [async placeVegetation()] *)
Definition placeVegetation (env : Env) : Env :=
  placeFlowers (createGrassPatches (placeTrees env)).

(** [async init()]: terrain, then vegetation, then rocks.  Materials,
    the LOD set-up and the statistics do not touch the fields modelled
    here. *)
Definition init (env : Env) : Env :=
  placeRocks (placeVegetation (generateTerrain env)).

End Generation.

(** The instance stands [offset] above the terrain: its [y] is the
    terrain height at its [(x, z)] plus [offset]. *)
Definition liftedBy (noiseTable : list Z) (env : Env) (offset : Q)
           (i : Instance) : Prop :=
  vy (position i)
  == getTerrainHeightAt noiseTable env (vx (position i)) (vz (position i)) + offset.

(** The instance is on the terrain. *)
Definition onTerrain (noiseTable : list Z) (env : Env) (i : Instance) : Prop :=
  vy (position i)
  == getTerrainHeightAt noiseTable env (vx (position i)) (vz (position i)).

(** [e] has the configuration and the terrain of [e0], the part of the
    environment that the height query reads. *)
Definition sameGround (e0 e : Env) : Prop :=
  config e = config e0 /\ terrain e = terrain e0.

(** Two positions are at least [d] apart when [p.distanceTo(q) < d] is
    false. *)
Definition apart (d : Q) (p q : Vector3) : Prop := distanceTo_lt p q d = false.

(** Every two positions of the list are at least [d] apart. *)
Definition Separated (d : Q) (l : list Vector3) : Prop :=
  ForallOrdPairs (apart d) l.

(** The requested density cannot be met: no [count] positions of the
    region are pairwise at least [d] apart. *)
Definition Infeasible (region : Vector3 -> Prop) (count : nat) (d : Q) : Prop :=
  forall l, length l = count -> Forall region l -> ~ Separated d l.

(** The ground positions inside the disk of radius [radius] around the
    origin, and inside the open square that bounds it. *)
Definition inDisk (radius : Q) (p : Vector3) : Prop :=
  vy p == 0 /\ vx p * vx p + vz p * vz p < radius * radius.

Definition inSquare (radius : Q) (p : Vector3) : Prop :=
  vy p == 0 /\ - radius < vx p /\ vx p < radius /\
  - radius < vz p /\ vz p < radius.

(** The cell of a position in the grid of squares of side [side] that
    covers the square of half-width [radius]. *)
Definition gridCell (radius side : Q) (p : Vector3) : Z * Z :=
  (Qfloor ((vx p + radius) / side), Qfloor ((vz p + radius) / side)).

End Environment.

(** ** Lighting.js ([src/js/modules/Lighting.js]) *)

Module Lighting.
Import THREE.

(** The record returned by [calculateLightingForTime]; colours are
    24-bit hex values. *)
Record LightingData : Type := mkLightingData {
  sunColor : Z;
  sunIntensity : Q;
  ambientColor : Z;
  ambientIntensity : Q;
  skyColor : Z;
  groundColor : Z;
  hemisphereIntensity : Q
}.

(** [const timeData = { 6: ..., 12: ..., 14: ..., 18: ..., 22: ... }] *)
Definition dawn : LightingData :=
  {| sunColor := 0xFFB366; sunIntensity := 3 # 10;
     ambientColor := 0x66B3FF; ambientIntensity := 2 # 10;
     skyColor := 0xFFB366; groundColor := 0x8B4513;
     hemisphereIntensity := 3 # 10 |}.

Definition noon : LightingData :=
  {| sunColor := 0xFFFFFF; sunIntensity := 1;
     ambientColor := 0x87CEEB; ambientIntensity := 3 # 10;
     skyColor := 0x87CEEB; groundColor := 0x8FBC8F;
     hemisphereIntensity := 4 # 10 |}.

Definition afternoon : LightingData :=
  {| sunColor := 0xFFF8DC; sunIntensity := 9 # 10;
     ambientColor := 0x87CEEB; ambientIntensity := 3 # 10;
     skyColor := 0x87CEEB; groundColor := 0x9ACD32;
     hemisphereIntensity := 4 # 10 |}.

Definition sunset : LightingData :=
  {| sunColor := 0xFF6347; sunIntensity := 4 # 10;
     ambientColor := 0xFF6347; ambientIntensity := 2 # 10;
     skyColor := 0xFF6347; groundColor := 0x8B4513;
     hemisphereIntensity := 3 # 10 |}.

Definition night : LightingData :=
  {| sunColor := 0x4169E1; sunIntensity := 1 # 10;
     ambientColor := 0x191970; ambientIntensity := 1 # 10;
     skyColor := 0x191970; groundColor := 0x2F4F4F;
     hemisphereIntensity := 2 # 10 |}.

Definition timeData : list (Z * LightingData) :=
  [(6, dawn); (12, noon); (14, afternoon); (18, sunset); (22, night)]%Z.

(** [Object.keys(timeData).map(Number).sort((a, b) => a - b)]: the keys
    are listed in ascending order already. *)
Definition times : list Z := map fst timeData.

(** [timeData[t]], for a key [t] of the table; the keys looked up are
    always taken from [times] ([bracket_in_times]). *)
Fixpoint timeData_get (table : list (Z * LightingData)) (t : Z) : LightingData :=
  match table with
  | [] => dawn
  | (k, d) :: rest => if (k =? t)%Z then d else timeData_get rest t
  end.

(** [for (let i = 0; i < times.length - 1; i++)
       if (hour >= times[i] && hour <= times[i + 1]) { ...; break; }]
    returning [(beforeTime, afterTime)], or [none] when no interval
    matches. *)
Fixpoint findBracket (hour : Q) (ts : list Z) (none : Z * Z) : Z * Z :=
  match ts with
  | t0 :: ((t1 :: _) as rest) =>
      if Qle_bool (inject_Z t0) hour && Qle_bool hour (inject_Z t1)
      then (t0, t1)
      else findBracket hour rest none
  | _ => none
  end.

(** [Math.max(a, b)] and [Math.min(a, b)] on finite numbers. *)
Definition Math_max (a b : Q) : Q := if Qle_bool a b then b else a.
Definition Math_min (a b : Q) : Q := if Qle_bool a b then a else b.

(** [interpolateColor(color1, color2, factor)] *)
Definition interpolateColor (color1 color2 : Z) (factor : Q) : Z :=
  let c1 := Color_setHex color1 in
  let c2 := Color_setHex color2 in
  Color_getHex (Color_lerp c1 c2 factor).

(** [lerp(a, b, factor)] *)
Definition lerp (a b factor : Q) : Q := a + (b - a) * factor.

(** [calculateLightingForTime(hour)] *)
Definition calculateLightingForTime (hour : Q) : LightingData :=
  let beforeTime := nth 0 times 0%Z in
  let afterTime := nth (length times - 1) times 0%Z in
  let '(beforeTime, afterTime) := findBracket hour times (beforeTime, afterTime) in
  let factor := (hour - inject_Z beforeTime)
                / (inject_Z afterTime - inject_Z beforeTime) in
  let clampedFactor := Math_max 0 (Math_min 1 factor) in
  let before := timeData_get timeData beforeTime in
  let after := timeData_get timeData afterTime in
  {| sunColor := interpolateColor (sunColor before) (sunColor after) clampedFactor;
     sunIntensity := lerp (sunIntensity before) (sunIntensity after) clampedFactor;
     ambientColor := interpolateColor (ambientColor before) (ambientColor after)
                                      clampedFactor;
     ambientIntensity := lerp (ambientIntensity before) (ambientIntensity after)
                              clampedFactor;
     skyColor := interpolateColor (skyColor before) (skyColor after) clampedFactor;
     groundColor := interpolateColor (groundColor before) (groundColor after)
                                     clampedFactor;
     hemisphereIntensity := lerp (hemisphereIntensity before)
                                 (hemisphereIntensity after) clampedFactor |}.

(** The record built by the [return] statement of
    [calculateLightingForTime] from [before], [after] and a factor. *)
Definition blend (before after : LightingData) (factor : Q) : LightingData :=
  {| sunColor := interpolateColor (sunColor before) (sunColor after) factor;
     sunIntensity := lerp (sunIntensity before) (sunIntensity after) factor;
     ambientColor := interpolateColor (ambientColor before) (ambientColor after) factor;
     ambientIntensity := lerp (ambientIntensity before) (ambientIntensity after) factor;
     skyColor := interpolateColor (skyColor before) (skyColor after) factor;
     groundColor := interpolateColor (groundColor before) (groundColor after) factor;
     hemisphereIntensity := lerp (hemisphereIntensity before)
                                 (hemisphereIntensity after) factor |}.

(** Two records hold the same values: equal colours, equal numbers. *)
Definition sameLighting (d1 d2 : LightingData) : Prop :=
  sunColor d1 = sunColor d2 /\ sunIntensity d1 == sunIntensity d2 /\
  ambientColor d1 = ambientColor d2 /\ ambientIntensity d1 == ambientIntensity d2 /\
  skyColor d1 = skyColor d2 /\ groundColor d1 = groundColor d2 /\
  hemisphereIntensity d1 == hemisphereIntensity d2.

(** Consecutive keyframes of [timeData]. *)
Fixpoint adjacent {A : Type} (l : list A) : list (A * A) :=
  match l with
  | a :: ((b :: _) as rest) => (a, b) :: adjacent rest
  | _ => []
  end.

(** [f] is continuous across the wrap of the 24-hour circle: its values
    just before hour 24 approach its value at hour 0. *)
Definition continuousAcrossWrap (f : Q -> Q) : Prop :=
  forall eps, 0 < eps ->
    exists delta, 0 < delta /\
      forall h, 24 - delta < h -> h < 24 -> Qabs (f h - f 0) < eps.

(** [f] changes by at most [L] per hour. *)
Definition lipschitz (L : Q) (f : Q -> Q) : Prop :=
  forall h1 h2, Qabs (f h1 - f h2) <= L * Qabs (h1 - h2).

End Lighting.

(** ** GeometryUtils.js ([src/js/utils/neWGeometryUtils.js]): the displacement
    routines *)

Module GeometryUtils.
Import MathUtils THREE.

(** A JavaScript number: a finite value, an infinity with its sign, or
    NaN.  Signed zeros are not distinguished; a non-zero number divided by
    zero gives the infinity with the sign of the dividend. *)
Inductive num : Type :=
| Fin (q : Q)
| Inf (negative : bool)
| NaN.

Definition isNegative (q : Q) : bool := Qltb q 0.

Definition nadd (a b : num) : num :=
  match a, b with
  | Fin x, Fin y => Fin (x + y)
  | NaN, _ | _, NaN => NaN
  | Inf s, Fin _ | Fin _, Inf s => Inf s
  | Inf s, Inf t => if Bool.eqb s t then Inf s else NaN
  end.

Definition nopp (a : num) : num :=
  match a with
  | Fin x => Fin (- x)
  | Inf s => Inf (negb s)
  | NaN => NaN
  end.

Definition nsub (a b : num) : num := nadd a (nopp b).

Definition nmul (a b : num) : num :=
  match a, b with
  | Fin x, Fin y => Fin (x * y)
  | NaN, _ | _, NaN => NaN
  | Inf s, Fin y | Fin y, Inf s =>
      if Qeq_bool y 0 then NaN else Inf (xorb s (isNegative y))
  | Inf s, Inf t => Inf (xorb s t)
  end.

Definition ndiv (a b : num) : num :=
  match a, b with
  | Fin x, Fin y =>
      if Qeq_bool y 0
      then (if Qeq_bool x 0 then NaN else Inf (isNegative x))
      else Fin (x / y)
  | NaN, _ | _, NaN => NaN
  | Fin _, Inf _ => Fin 0
  | Inf s, Fin y => Inf (xorb s (isNegative y))
  | Inf _, Inf _ => NaN
  end.

(** [a > b] *)
Definition ngt (a b : num) : bool :=
  match a, b with
  | Fin x, Fin y => Qltb y x
  | NaN, _ | _, NaN => false
  | Inf s, Fin _ => negb s
  | Fin _, Inf t => t
  | Inf s, Inf t => negb s && t
  end.

Declare Scope num_scope.
Delimit Scope num_scope with num.
Bind Scope num_scope with num.
Infix "+" := nadd : num_scope.
Infix "-" := nsub : num_scope.
Infix "*" := nmul : num_scope.
Infix "/" := ndiv : num_scope.

(** [MathUtils.noise(x, y)] and [MathUtils.noise3D(x, y, z)] on arbitrary
    numbers: an argument that is not finite makes [x - Math.floor(x)] NaN,
    and with it the result. *)
Definition noise_num (noiseTable : list Z) (x y : num) : num :=
  match x, y with
  | Fin x, Fin y => Fin (noise noiseTable x y)
  | _, _ => NaN
  end.

Definition noise3D_num (noiseTable : list Z) (x y z : num) : num :=
  match x, y, z with
  | Fin x, Fin y, Fin z => Fin (noise3D noiseTable x y z)
  | _, _, _ => NaN
  end.

(** The loop shared by the routines,
    [for (let i = 0; i < vertexCount; i++)], which reads
    [positions[i * 3 .. i * 3 + 2]] and writes back into the same three
    slots.  A position buffer holds three numbers per vertex. *)
Fixpoint forEachVertex (body : num -> num -> num -> num * num * num)
         (positions : list num) : list num :=
  match positions with
  | x :: y :: z :: rest =>
      let '(x', y', z') := body x y z in
      x' :: y' :: z' :: forEachVertex body rest
  | _ => positions
  end.

Section Displacement.

Variable noiseTable : list Z.

(** The runtime's [Math.sqrt], [Math.atan2], [Math.acos], [Math.sin] and
    [Math.cos]. *)
Variable Math_sqrt : num -> num.
Variable Math_atan2 : num -> num -> num.
Variable Math_acos Math_sin Math_cos : num -> num.

Local Open Scope num_scope.

(** The body of the loop of [addTrunkIrregularities(geometry, config)],
    with [config.height] and [config.irregularity]. *)
Definition trunkVertex (height irregularity : num) (x y z : num)
  : num * num * num :=
  let heightRatio := (y + height / Fin 2) / height in
  let angle := Math_atan2 z x in
  let radius := Math_sqrt (x * x + z * z) in
  let noiseScale := Fin (5 # 10) in
  let noiseValue := noise_num noiseTable (angle * noiseScale)
                              (y * noiseScale * Fin (3 # 10)) in
  let irregularityStrength :=
    irregularity * (Fin 1 - heightRatio * Fin (5 # 10)) in
  let radiusMultiplier := Fin 1 + noiseValue * irregularityStrength in
  (x * radiusMultiplier, y, z * radiusMultiplier).

Definition addTrunkIrregularities (positions : list num)
           (height irregularity : num) : list num :=
  forEachVertex (trunkVertex height irregularity) positions.

(** The body of the loop of [addSphereIrregularities(geometry, strength)]. *)
Definition sphereVertex (strength : num) (x y z : num) : num * num * num :=
  let radius := Math_sqrt (x * x + y * y + z * z) in
  let theta := Math_atan2 z x in
  let phi := Math_acos (y / radius) in
  let noiseScale := Fin 2 in
  let noiseValue := noise3D_num noiseTable (x * noiseScale) (y * noiseScale)
                                (z * noiseScale) in
  let radiusMultiplier := Fin 1 + noiseValue * strength in
  let newRadius := radius * radiusMultiplier in
  (newRadius * Math_sin phi * Math_cos theta,
   newRadius * Math_cos phi,
   newRadius * Math_sin phi * Math_sin theta).

Definition addSphereIrregularities (positions : list num) (strength : num)
  : list num :=
  forEachVertex (sphereVertex strength) positions.

(** The body of the loop of [addConeIrregularities(geometry, config)]. *)
Definition coneVertex (height irregularity : num) (x y z : num)
  : num * num * num :=
  let heightRatio := (y + height / Fin 2) / height in
  if ngt heightRatio (Fin (1 # 10)) then
    let angle := Math_atan2 z x in
    let radius := Math_sqrt (x * x + z * z) in
    let noiseValue := noise_num noiseTable (angle * Fin (15 # 10))
                                (y * Fin (5 # 10)) in
    let irregularityStrength := irregularity * heightRatio in
    let radiusMultiplier := Fin 1 + noiseValue * irregularityStrength in
    (x * radiusMultiplier, y, z * radiusMultiplier)
  else (x, y, z).

Definition addConeIrregularities (positions : list num)
           (height irregularity : num) : list num :=
  forEachVertex (coneVertex height irregularity) positions.

(** The body of the loop of [addRockIrregularities(geometry, config)]. *)
Definition rockVertex (irregularity : num) (x y z : num) : num * num * num :=
  let noiseScale1 := Fin (15 # 10) in
  let noiseScale2 := Fin 3 in
  let noiseScale3 := Fin 6 in
  let noise1 := noise3D_num noiseTable (x * noiseScale1) (y * noiseScale1)
                            (z * noiseScale1) in
  let noise2 := noise3D_num noiseTable (x * noiseScale2) (y * noiseScale2)
                            (z * noiseScale2) * Fin (5 # 10) in
  let noise3 := noise3D_num noiseTable (x * noiseScale3) (y * noiseScale3)
                            (z * noiseScale3) * Fin (25 # 100) in
  let totalNoise := noise1 + noise2 + noise3 in
  let displacement := totalNoise * irregularity in
  let length := Math_sqrt (x * x + y * y + z * z) in
  if ngt length (Fin 0) then
    let normalX := x / length in
    let normalY := y / length in
    let normalZ := z / length in
    (x + normalX * displacement,
     y + normalY * displacement,
     z + normalZ * displacement)
  else (x, y, z).

Definition addRockIrregularities (positions : list num) (irregularity : num)
  : list num :=
  forEachVertex (rockVertex irregularity) positions.

End Displacement.

(** Two numbers are the same value; two buffers hold the same values. *)
Definition num_eq (a b : num) : Prop :=
  match a, b with
  | Fin x, Fin y => x == y
  | Inf s, Inf t => s = t
  | NaN, NaN => True
  | _, _ => False
  end.

Definition buffer_eq (p q : list num) : Prop := Forall2 num_eq p q.

Definition isNaN (a : num) : bool :=
  match a with NaN => true | _ => false end.

(** What the theorems below use of the runtime's functions, as ECMAScript
    specifies them: the square root of zero is zero, and [Math.acos],
    [Math.sin] and [Math.cos] of NaN are NaN. *)
Definition sqrt_of_zero (Math_sqrt : num -> num) : Prop :=
  forall q, q == 0 -> exists r, Math_sqrt (Fin q) = Fin r /\ r == 0.

Definition NaN_to_NaN (f : num -> num) : Prop := f NaN = NaN.

(** [Math.atan2] of two finite numbers is a finite number. *)
Definition finite_atan2 (Math_atan2 : num -> num -> num) : Prop :=
  forall z x, exists a, Math_atan2 (Fin z) (Fin x) = Fin a.

End GeometryUtils.

(** ** MathUtils.js, the other helpers ([src/unnamed/part_001]) *)

(** *** Noise in one dimension *)

Module Noise1D.
Import MathUtils.

(** [static grad1D(hash, x)] *)
Definition grad1D (hash : Z) (x : Q) : Q :=
  if (Z.land hash 1 =? 0)%Z then x else - x.

(** [static noise1D(x)] *)
Definition noise1D (noiseTable : list Z) (x : Q) : Q :=
  let T := table_get noiseTable in
  let X := cell x in
  let x := frac x in
  let u := fade x in
  lerp (grad1D (T X) x) (grad1D (T (X + 1)%Z) (x - 1)) u.

End Noise1D.

(** *** Basic math utilities *)

Module BasicMath.
Import MathUtils THREE GeometryUtils.
Local Open Scope num_scope.

(** [Math.max(a, b)] and [Math.min(a, b)] on arbitrary numbers: NaN as soon
    as one argument is NaN. *)
Definition Math_max (a b : num) : num :=
  match a, b with
  | NaN, _ | _, NaN => NaN
  | _, _ => if ngt a b then a else b
  end.

Definition Math_min (a b : num) : num :=
  match a, b with
  | NaN, _ | _, NaN => NaN
  | _, _ => if ngt a b then b else a
  end.

(** [static inverseLerp(a, b, value)] *)
Definition inverseLerp (a b value : num) : num := (value - a) / (b - a).

(** [static clamp(value, min, max)] *)
Definition clamp (value min max : num) : num := Math_max min (Math_min max value).

(** [static clamp01(value)] *)
Definition clamp01 (value : num) : num := clamp value (Fin 0) (Fin 1).

(** [static smoothstep(edge0, edge1, x)] *)
Definition smoothstep (edge0 edge1 x : num) : num :=
  let t := clamp01 ((x - edge0) / (edge1 - edge0)) in
  t * t * (Fin 3 - Fin 2 * t).

(** [static smootherstep(edge0, edge1, x)] *)
Definition smootherstep (edge0 edge1 x : num) : num :=
  let t := clamp01 ((x - edge0) / (edge1 - edge0)) in
  t * t * t * (t * (t * Fin 6 - Fin 15) + Fin 10).

Local Close Scope num_scope.

(** [static random(min = 0, max = 1)], where [r] is the value returned by
    [Math.random()]. *)
Definition random (r : Q) (min max : Q) : Q := min + r * (max - min).

(** [static randomInt(min, max)] *)
Definition randomInt (r : Q) (min max : Q) : Z := Qfloor (random r min (max + 1)).

(** [static randomChoice(array)]: [array[i]] is [undefined], here [None],
    when [i] is not an index of the array. *)
Definition randomChoice {A : Type} (r : Q) (array : list A) : option A :=
  let i := randomInt r 0 (inject_Z (Z.of_nat (length array)) - 1) in
  if (i <? 0)%Z then None else nth_error array (Z.to_nat i).

(** [static shuffle(array)], on an array of integers: the loop is the one
    of [initNoise], started at [array.length - 1]; [rand k] is the value of
    the [k]-th call of [Math.random()]. *)
Definition shuffle (rand : nat -> Q) (array : list Z) : list Z :=
  shuffleLoop rand (length array - 1) 0 array.

End BasicMath.

(** *** Angle utilities *)

Module Angles.
Import THREE.

Section WithPI.

(** [static PI = Math.PI], a positive finite number. *)
Variable Math_PI : Q.

(** [static TWO_PI = Math.PI * 2] *)
Definition TWO_PI : Q := Math_PI * 2.

(** [while (angle > Math.PI) angle -= this.TWO_PI;] with a bound on the
    number of iterations; [None] when the bound is reached. *)
Fixpoint whileAbove (fuel : nat) (angle : Q) : option Q :=
  if Qltb Math_PI angle then
    match fuel with
    | O => None
    | S fuel' => whileAbove fuel' (angle - TWO_PI)
    end
  else Some angle.

(** [while (angle < -Math.PI) angle += this.TWO_PI;] *)
Fixpoint whileBelow (fuel : nat) (angle : Q) : option Q :=
  if Qltb angle (- Math_PI) then
    match fuel with
    | O => None
    | S fuel' => whileBelow fuel' (angle + TWO_PI)
    end
  else Some angle.

(** [static normalizeAngle(angle)] *)
Definition normalizeAngle (fuel : nat) (angle : Q) : option Q :=
  match whileAbove fuel angle with
  | Some angle => whileBelow fuel angle
  | None => None
  end.

(** [static lerpAngle(a, b, t)] *)
Definition lerpAngle (fuel : nat) (a b t : Q) : option Q :=
  match normalizeAngle fuel (b - a) with
  | Some delta => Some (a + delta * t)
  | None => None
  end.

End WithPI.

(** The number of iterations after which the loops of [normalizeAngle]
    have stopped. *)
Definition turns (Math_PI angle : Q) : nat :=
  Z.to_nat (Qceiling (Qabs angle / (Math_PI * 2))).

End Angles.

(** *** Easing functions *)

Module Easing.
Import THREE.

(** [static easeInQuad(t)] *)
Definition easeInQuad (t : Q) : Q := t * t.

(** [static easeOutQuad(t)] *)
Definition easeOutQuad (t : Q) : Q := t * (2 - t).

(** [static easeInOutQuad(t)] *)
Definition easeInOutQuad (t : Q) : Q :=
  if Qltb t (5 # 10) then 2 * t * t else -1 + (4 - 2 * t) * t.

(** [static easeInCubic(t)] *)
Definition easeInCubic (t : Q) : Q := t * t * t.

(** [static easeOutCubic(t)]: [(--t) * t * t + 1] decrements [t] first. *)
Definition easeOutCubic (t : Q) : Q :=
  let t := t - 1 in
  t * t * t + 1.

(** [static easeInOutCubic(t)] *)
Definition easeInOutCubic (t : Q) : Q :=
  if Qltb t (5 # 10) then 4 * t * t * t
  else (t - 1) * (2 * t - 2) * (2 * t - 2) + 1.

(** [static easeOutBounce(t)]: in [n1 * (t -= c) * t + d] the assignment
    is evaluated before the second factor reads [t]. *)
Definition easeOutBounce (t : Q) : Q :=
  let n1 := 75625 # 10000 in
  let d1 := 275 # 100 in
  if Qltb t (1 / d1) then n1 * t * t
  else if Qltb t (2 / d1) then
    let t := t - (15 # 10) / d1 in
    n1 * t * t + (75 # 100)
  else if Qltb t ((25 # 10) / d1) then
    let t := t - (225 # 100) / d1 in
    n1 * t * t + (9375 # 10000)
  else
    let t := t - (2625 # 1000) / d1 in
    n1 * t * t + (984375 # 1000000).

End Easing.

(** *** Utility functions *)

Module Utility.
Import THREE GeometryUtils.

(** [static map(value, inMin, inMax, outMin, outMax)] *)
Definition map (value inMin inMax outMin outMax : num) : num :=
  ((value - inMin) * (outMax - outMin) / (inMax - inMin) + outMin)%num.

(** [static factorial(n)] on an integer, with a bound on the depth of the
    recursion; [None] when the bound is reached, which does not happen with
    the bound that [factorial] passes ([factorial_value]). *)
Fixpoint factorialRec (fuel : nat) (n : Z) : option Z :=
  if (n <=? 1)%Z then Some 1%Z
  else match fuel with
       | O => None
       | S fuel' =>
           match factorialRec fuel' (n - 1) with
           | Some f => Some (n * f)%Z
           | None => None
           end
       end.

Definition factorial (n : Z) : option Z := factorialRec (Z.to_nat n) n.

(** [static gcd(a, b)] on integers; [%] is the remainder of the division
    that truncates.  The recursion is bounded by [|b|], which is never
    reached ([gcd_up_to_sign]): the absolute value of the second argument
    decreases at every call. *)
Fixpoint gcdRec (fuel : nat) (a b : Z) : option Z :=
  if (b =? 0)%Z then Some a
  else match fuel with
       | O => None
       | S fuel' => gcdRec fuel' b (Z.rem a b)
       end.

Definition gcd (a b : Z) : option Z := gcdRec (Z.abs_nat b) a b.

(** [static lcm(a, b)] *)
Definition lcm (a b : Z) : option num :=
  match gcd a b with
  | Some g => Some (Fin (inject_Z (Z.abs (a * b))) / Fin (inject_Z g))%num
  | None => None
  end.

(** The loop of [isPrime],
    [for (let i = 5; i * i <= n; i += 6)
       if (n % i === 0 || n % (i + 2) === 0) return false;]
    [None] when the bound on the iterations is reached. *)
Fixpoint isPrimeLoop (fuel : nat) (n i : Z) : option bool :=
  if (i * i <=? n)%Z then
    if ((Z.rem n i =? 0) || (Z.rem n (i + 2) =? 0))%Z then Some false
    else match fuel with
         | O => None
         | S fuel' => isPrimeLoop fuel' n (i + 6)
         end
  else Some true.

(** [static isPrime(n)] on an integer; the loop makes fewer than [n]
    iterations ([isPrime_correct]). *)
Definition isPrime (n : Z) : option bool :=
  if (n <=? 1)%Z then Some false
  else if (n <=? 3)%Z then Some true
  else if ((Z.rem n 2 =? 0) || (Z.rem n 3 =? 0))%Z then Some false
  else isPrimeLoop (Z.to_nat n) n 5.

End Utility.

(** ** Lighting.js: the lights and the time of day *)

Module LightingSystem.
Import THREE Lighting.

(** The lights, reduced to the properties the module writes.  The shadow
    camera, which [updateShadowCamera] moves to the position of the sun, is
    left out. *)
Record DirectionalLight : Type := mkDirectionalLight {
  sun_color : Color;
  sun_intensity : Q;
  sun_position : Vector3;
  castShadow : bool
}.

Record AmbientLight : Type := mkAmbientLight {
  ambient_color : Color;
  ambient_intensity : Q
}.

Record HemisphereLight : Type := mkHemisphereLight {
  hemisphere_color : Color;
  hemisphere_groundColor : Color;
  hemisphere_intensity : Q
}.

(** [this.timeOfDay.sunPath] *)
Record SunPath : Type := mkSunPath {
  radius : Q;
  height : Q;
  centerX : Q;
  centerZ : Q
}.

(** [this.effects.sunFlicker] and [this.effects.cloudShadows] *)
Record SunFlicker : Type := mkSunFlicker {
  flicker_enabled : bool;
  flicker_intensity : Q;
  flicker_frequency : Q;
  baseIntensity : Q
}.

Record CloudShadows : Type := mkCloudShadows {
  clouds_enabled : bool;
  clouds_speed : Q;
  clouds_intensity : Q
}.

(** The fields of [Lighting] that the time-of-day code reads and writes;
    a light that has not been created is [null], here [None]. *)
Record System : Type := mkSystem {
  sunLight : option DirectionalLight;
  ambientLight : option AmbientLight;
  hemisphereLight : option HemisphereLight;
  hour : Q;
  speed : Q;
  sunPath : SunPath;
  sunFlicker : SunFlicker;
  cloudShadows : CloudShadows;
  lastUpdate : Q
}.

(** [this.performance.updateFrequency], which is never reassigned. *)
Definition updateFrequency : Q := 60.

(** [new Lighting(scene)] *)
Definition newLighting : System :=
  {| sunLight := None; ambientLight := None; hemisphereLight := None;
     hour := 14; speed := 1 # 10;
     sunPath := {| radius := 80; height := 40; centerX := 0; centerZ := 0 |};
     sunFlicker := {| flicker_enabled := false; flicker_intensity := 1 # 10;
                      flicker_frequency := 5 # 10; baseIntensity := 1 |};
     cloudShadows := {| clouds_enabled := true; clouds_speed := 2 # 100;
                        clouds_intensity := 3 # 10 |};
     lastUpdate := 0 |}.

Definition with_sunLight (s : System) (l : option DirectionalLight) : System :=
  {| sunLight := l; ambientLight := ambientLight s;
     hemisphereLight := hemisphereLight s; hour := hour s; speed := speed s;
     sunPath := sunPath s; sunFlicker := sunFlicker s;
     cloudShadows := cloudShadows s; lastUpdate := lastUpdate s |}.

Definition with_ambientLight (s : System) (l : option AmbientLight) : System :=
  {| sunLight := sunLight s; ambientLight := l;
     hemisphereLight := hemisphereLight s; hour := hour s; speed := speed s;
     sunPath := sunPath s; sunFlicker := sunFlicker s;
     cloudShadows := cloudShadows s; lastUpdate := lastUpdate s |}.

Definition with_hemisphereLight (s : System) (l : option HemisphereLight) : System :=
  {| sunLight := sunLight s; ambientLight := ambientLight s;
     hemisphereLight := l; hour := hour s; speed := speed s;
     sunPath := sunPath s; sunFlicker := sunFlicker s;
     cloudShadows := cloudShadows s; lastUpdate := lastUpdate s |}.

Definition with_hour (s : System) (h : Q) : System :=
  {| sunLight := sunLight s; ambientLight := ambientLight s;
     hemisphereLight := hemisphereLight s; hour := h; speed := speed s;
     sunPath := sunPath s; sunFlicker := sunFlicker s;
     cloudShadows := cloudShadows s; lastUpdate := lastUpdate s |}.

Definition with_sunFlicker (s : System) (f : SunFlicker) : System :=
  {| sunLight := sunLight s; ambientLight := ambientLight s;
     hemisphereLight := hemisphereLight s; hour := hour s; speed := speed s;
     sunPath := sunPath s; sunFlicker := f;
     cloudShadows := cloudShadows s; lastUpdate := lastUpdate s |}.

Definition with_cloudShadows (s : System) (c : CloudShadows) : System :=
  {| sunLight := sunLight s; ambientLight := ambientLight s;
     hemisphereLight := hemisphereLight s; hour := hour s; speed := speed s;
     sunPath := sunPath s; sunFlicker := sunFlicker s;
     cloudShadows := c; lastUpdate := lastUpdate s |}.

Definition with_lastUpdate (s : System) (t : Q) : System :=
  {| sunLight := sunLight s; ambientLight := ambientLight s;
     hemisphereLight := hemisphereLight s; hour := hour s; speed := speed s;
     sunPath := sunPath s; sunFlicker := sunFlicker s;
     cloudShadows := cloudShadows s; lastUpdate := t |}.

(** [this.sunLight.intensity = v] *)
Definition set_sun_intensity (l : DirectionalLight) (v : Q) : DirectionalLight :=
  {| sun_color := sun_color l; sun_intensity := v;
     sun_position := sun_position l; castShadow := castShadow l |}.

Section Runtime.

(** The runtime's [Math.cos], [Math.sin] and [Math.PI] on finite numbers. *)
Variable Math_cos Math_sin : Q -> Q.
Variable Math_PI : Q.

(** [createAmbientLighting()], [createSunLight()] and
    [createHemisphereLight()], with the values of [this.config]. *)
Definition createAmbientLighting (s : System) : System :=
  with_ambientLight s
    (Some {| ambient_color := Color_setHex 0x404040; ambient_intensity := 3 # 10 |}).

Definition createSunLight (s : System) : System :=
  with_sunLight s
    (Some {| sun_color := Color_setHex 0xffffff; sun_intensity := 1;
             sun_position := mkVector3 50 50 50; castShadow := true |}).

Definition createHemisphereLight (s : System) : System :=
  with_hemisphereLight s
    (Some {| hemisphere_color := Color_setHex 0x87CEEB;
             hemisphere_groundColor := Color_setHex 0x8FBC8F;
             hemisphere_intensity := 4 # 10 |}).

(** [updateTimeOfDay(deltaTime)] *)
Definition updateTimeOfDay (s : System) (deltaTime : Q) : System :=
  let h := hour s + speed s * deltaTime in
  let h := if Qle_bool 24 h then h - 24 else h in
  with_hour s h.

(** [updateSunPosition()] *)
Definition updateSunPosition (s : System) : System :=
  match sunLight s with
  | None => s
  | Some sun =>
      let sunAngle := (hour s - 6) / 12 * Math_PI in
      let path := sunPath s in
      let x := centerX path + Math_cos sunAngle * radius path in
      let y := height path + Math_sin sunAngle * height path in
      let z := centerZ path + Math_sin sunAngle * radius path * (3 # 10) in
      with_sunLight s
        (Some {| sun_color := sun_color sun; sun_intensity := sun_intensity sun;
                 sun_position := mkVector3 x (Math_max y 5) z;
                 castShadow := castShadow sun |})
  end.

(** [getLightIntensityForTime()] *)
Definition getLightIntensityForTime (s : System) : Q :=
  let hour := hour s in
  if Qle_bool 6 hour && Qle_bool hour 18 then
    let midday := 12 in
    let distanceFromMidday := Qabs (hour - midday) in
    Math_max (1 # 10) (1 - distanceFromMidday / 6 * (7 # 10))
  else 1 # 10.

(** [updateEffects(deltaTime)], where [time] is
    [performance.now() * 0.001]. *)
Definition updateEffects (s : System) (time : Q) : System :=
  let s :=
    match sunLight s with
    | Some sun =>
        if flicker_enabled (sunFlicker s) then
          let flicker := sunFlicker s in
          let flickerValue :=
            Math_sin (time * flicker_frequency flicker * Math_PI * 2)
            * flicker_intensity flicker in
          with_sunLight s
            (Some (set_sun_intensity sun (baseIntensity flicker + flickerValue)))
        else s
    | None => s
    end in
  match sunLight s with
  | Some sun =>
      if clouds_enabled (cloudShadows s) then
        let clouds := cloudShadows s in
        let cloudShadow := Math_sin (time * clouds_speed clouds)
                           * clouds_intensity clouds in
        let baseShadow := getLightIntensityForTime s in
        with_sunLight s
          (Some (set_sun_intensity sun (baseShadow * (1 - Math_max 0 cloudShadow))))
      else s
  | None => s
  end.

(** [updateAtmosphere()] *)
Definition updateAtmosphere (s : System) : System :=
  let lightingData := calculateLightingForTime (hour s) in
  let s :=
    match sunLight s with
    | Some sun =>
        with_sunLight s
          (Some {| sun_color := Color_setHex (sunColor lightingData);
                   sun_intensity := sunIntensity lightingData;
                   sun_position := sun_position sun;
                   castShadow := castShadow sun |})
    | None => s
    end in
  let s :=
    match ambientLight s with
    | Some _ =>
        with_ambientLight s
          (Some {| ambient_color := Color_setHex (ambientColor lightingData);
                   ambient_intensity := ambientIntensity lightingData |})
    | None => s
    end in
  match hemisphereLight s with
  | Some _ =>
      with_hemisphereLight s
        (Some {| hemisphere_color := Color_setHex (skyColor lightingData);
                 hemisphere_groundColor := Color_setHex (groundColor lightingData);
                 hemisphere_intensity := hemisphereIntensity lightingData |})
  | None => s
  end.

(** [update(deltaTime)], where [now] is the value of [performance.now()]
    read by [update] and [time] the one read by [updateEffects], times
    0.001. *)
Definition update (s : System) (now time deltaTime : Q) : System :=
  if Qltb (now - lastUpdate s) (1000 / updateFrequency) then s
  else
    let s := with_lastUpdate s now in
    let s := updateTimeOfDay s deltaTime in
    let s := updateEffects s time in
    let s := updateSunPosition s in
    updateAtmosphere s.

(** [setTimeOfDay(hour)] *)
Definition setTimeOfDay (s : System) (h : Q) : System :=
  let s := with_hour s (Math_max 0 (Math_min 24 h)) in
  let s := updateSunPosition s in
  updateAtmosphere s.

(** [async init()]; [setupShadows] writes the shadow settings only. *)
Definition init (s : System) : System :=
  let s := createAmbientLighting s in
  let s := createSunLight s in
  let s := createHemisphereLight s in
  setTimeOfDay s (hour s).

(** [setSunIntensity(intensity)] *)
Definition setSunIntensity (s : System) (intensity : Q) : System :=
  match sunLight s with
  | Some sun =>
      let s := with_sunLight s (Some (set_sun_intensity sun intensity)) in
      let f := sunFlicker s in
      with_sunFlicker s
        {| flicker_enabled := flicker_enabled f;
           flicker_intensity := flicker_intensity f;
           flicker_frequency := flicker_frequency f;
           baseIntensity := intensity |}
  | None => s
  end.

(** [enableSunFlicker(intensity = 0.1, frequency = 0.5)] *)
Definition enableSunFlicker (s : System) (intensity frequency : Q) : System :=
  with_sunFlicker s
    {| flicker_enabled := true;
       flicker_intensity := intensity;
       flicker_frequency := frequency;
       baseIntensity := match sunLight s with
                        | Some sun => sun_intensity sun
                        | None => 1
                        end |}.

(** [disableSunFlicker()] *)
Definition disableSunFlicker (s : System) : System :=
  let f := sunFlicker s in
  let s := with_sunFlicker s
             {| flicker_enabled := false;
                flicker_intensity := flicker_intensity f;
                flicker_frequency := flicker_frequency f;
                baseIntensity := baseIntensity f |} in
  match sunLight s with
  | Some sun =>
      with_sunLight s (Some (set_sun_intensity sun (baseIntensity (sunFlicker s))))
  | None => s
  end.

End Runtime.

End LightingSystem.

(** ** Environment.js: statistics *)

Module EnvironmentStats.
Import THREE Environment.

(** [this.stats] *)
Record Stats : Type := mkStats {
  triangles : Q;
  objects : nat;
  visibleObjects : nat
}.

(** [updateStats()] *)
Definition updateStats (env : Env) (stats : Stats) : Stats :=
  let objects := (length (trees env) + length (grassPatches env)
                  + length (flowers env) + length (rocks env) + 1)%nat in
  let triangles := 0 in
  let triangles :=
    triangles + match terrain env with
                | Some vertices => inject_Z (Z.of_nat (vertexCount vertices)) / 3
                | None => 0
                end in
  let triangles := triangles + inject_Z (Z.of_nat (length (trees env))) * 200 in
  let triangles :=
    triangles + inject_Z (Z.of_nat (length (grassPatches env)))
                * inject_Z (Z.of_nat (bladesPerPatch (grass_config (config env))))
                * 2 in
  let triangles := triangles + inject_Z (Z.of_nat (length (flowers env))) * 20 in
  let triangles := triangles + inject_Z (Z.of_nat (length (rocks env))) * 50 in
  {| triangles := triangles; objects := objects;
     visibleObjects := visibleObjects stats |}.

(** The statistics set by the constructor. *)
Definition newStats : Stats := {| triangles := 0; objects := 0; visibleObjects := 0 |}.

(** A position is at most [maxDistance] away from the vertical axis
    through the origin. *)
Definition withinDistance (maxDistance : Q) (p : Vector3) : Prop :=
  vx p * vx p + vz p * vz p <= maxDistance * maxDistance.

(** A blade of grass is at most 1 away, along [x] and along [z], from a
    patch centre that is within [maxDistance]. *)
Definition aroundPatch (maxDistance : Q) (i : Instance) : Prop :=
  exists centre, withinDistance maxDistance centre /\
    Qabs (vx (position i) - vx centre) <= 1 /\
    Qabs (vz (position i) - vz centre) <= 1.

End EnvironmentStats.

(** ** GeometryUtils.js: grass blades, terrain, water and paths *)

Module GeometryShapes.
Import MathUtils THREE GeometryUtils.

(** The options of [createGrassBlade], with their defaults. *)
Record GrassBladeConfig : Type := mkGrassBladeConfig {
  blade_height : Q;
  blade_width : Q;
  blade_segments : nat;
  bend : Q
}.

Definition defaultGrassBlade : GrassBladeConfig :=
  {| blade_height := 5 # 10; blade_width := 2 # 100; blade_segments := 3;
     bend := 1 # 10 |}.

(** The loop of [addGrassBend(geometry, config)] over the position buffer.
    [rand k] is the value of the [k]-th call of [Math.random()]; a call is
    made only for a vertex with [heightRatio > 0].  A position buffer holds
    three numbers per vertex. *)
Fixpoint addGrassBend (height bend : num) (rand : nat -> Q) (k : nat)
         (positions : list num) : list num :=
  match positions with
  | x :: y :: z :: rest =>
      let heightRatio := ((y + height / Fin 2) / height)%num in
      if ngt heightRatio (Fin 0) then
        let bendAmount := (bend * heightRatio * heightRatio)%num in
        let bendDirection := Fin (BasicMath.random (rand k) (-1) 1) in
        (x + bendAmount * bendDirection)%num :: y :: z
          :: addGrassBend height bend rand (S k) rest
      else x :: y :: z :: addGrassBend height bend rand k rest
  | _ => positions
  end.

(** [static createGrassBlade(options = {})] *)
Definition createGrassBlade (config : GrassBladeConfig) (rand : nat -> Q) : list num :=
  let geometry := PlaneGeometry (blade_width config) (blade_height config) 1
                                (blade_segments config) in
  addGrassBend (Fin (blade_height config)) (Fin (bend config)) rand 0
               (map Fin geometry).

(** The options of [createTerrain], with their defaults. *)
Record TerrainOptions : Type := mkTerrainOptions {
  terrain_size : Q;
  terrain_segments : nat;
  terrain_heightVariation : Q;
  terrain_noiseScale : Q;
  octaves : nat;
  persistence : Q
}.

Definition defaultTerrain : TerrainOptions :=
  {| terrain_size := 100; terrain_segments := 50; terrain_heightVariation := 5;
     terrain_noiseScale := 1 # 10; octaves := 4; persistence := 5 # 10 |}.

(** The loop of [applyTerrainHeights(geometry, config)]; [fractalNoise]
    divides by the sum of the amplitudes, which is not zero for
    [octaves >= 1] and a non-negative [persistence]. *)
Fixpoint applyTerrainHeights (noiseTable : list Z) (config : TerrainOptions)
         (positions : list Q) : list Q :=
  match positions with
  | x :: _ :: z :: rest =>
      let height := fractalNoise noiseTable (x * terrain_noiseScale config)
                                 (z * terrain_noiseScale config)
                                 (octaves config) (persistence config)
                    * terrain_heightVariation config in
      x :: height :: z :: applyTerrainHeights noiseTable config rest
  | _ => positions
  end.

(** [static createTerrain(options = {})] *)
Definition createTerrain (noiseTable : list Z) (config : TerrainOptions) : list Q :=
  let geometry := PlaneGeometry (terrain_size config) (terrain_size config)
                                (terrain_segments config) (terrain_segments config) in
  applyTerrainHeights noiseTable config geometry.

(** The options of [createWaterSurface], with their defaults. *)
Record WaveConfig : Type := mkWaveConfig {
  water_size : Q;
  water_segments : nat;
  waveHeight : Q;
  waveFrequency : Q
}.

Definition defaultWater : WaveConfig :=
  {| water_size := 50; water_segments := 32; waveHeight := 2 # 10;
     waveFrequency := 1 # 10 |}.

(** A water geometry: its position buffer and [geometry.userData], which
    holds the wave configuration and the copy of the positions made when
    the geometry was created. *)
Record WaterGeometry : Type := mkWaterGeometry {
  water_positions : list num;
  userData : option (WaveConfig * list num)
}.

(** [static createWaterSurface(options = {})] *)
Definition createWaterSurface (config : WaveConfig) : WaterGeometry :=
  let positions := map Fin (PlaneGeometry (water_size config) (water_size config)
                                          (water_segments config)
                                          (water_segments config)) in
  {| water_positions := positions; userData := Some (config, positions) |}.

(** [originalPositions[i]]: [undefined], which arithmetic turns into NaN,
    outside the array. *)
Definition read (a : list num) (i : nat) : num := nth i a NaN.

Section Waves.

(** The runtime's [Math.sin]. *)
Variable Math_sin : num -> num.

(** The loop of [animateWaterSurface],
    [for (let i = 0; i < positions.length; i += 3)], from index [i] on; it
    writes [positions[i + 1]] only. *)
Fixpoint waveLoop (config : WaveConfig) (originalPositions : list num) (time : num)
         (i : nat) (positions : list num) : list num :=
  match positions with
  | px :: _ :: pz :: rest =>
      let x := read originalPositions i in
      let z := read originalPositions (i + 2) in
      let wave1 := (Math_sin (x * Fin (waveFrequency config) + time)
                    * Fin (waveHeight config))%num in
      let wave2 := (Math_sin (z * Fin (waveFrequency config) * Fin (13 # 10)
                              + time * Fin (12 # 10))
                    * Fin (waveHeight config) * Fin (7 # 10))%num in
      let wave3 := (Math_sin ((x + z) * Fin (waveFrequency config) * Fin (7 # 10)
                              + time * Fin (8 # 10))
                    * Fin (waveHeight config) * Fin (5 # 10))%num in
      px :: (wave1 + wave2 + wave3)%num :: pz
        :: waveLoop config originalPositions time (i + 3) rest
  | _ => positions
  end.

(** [static animateWaterSurface(waterGeometry, time)] *)
Definition animateWaterSurface (waterGeometry : WaterGeometry) (time : num)
  : WaterGeometry :=
  match userData waterGeometry with
  | None => waterGeometry
  | Some (config, originalPositions) =>
      {| water_positions := waveLoop config originalPositions time 0
                                     (water_positions waterGeometry);
         userData := userData waterGeometry |}
  end.

End Waves.

(** A vector of finite numbers as a vector of numbers, and two vectors
    that hold the same values. *)
Definition finiteVector (p : Vector3) : num * num * num :=
  (Fin (vx p), Fin (vy p), Fin (vz p)).

Definition sameVector (a b : num * num * num) : Prop :=
  num_eq (fst (fst a)) (fst (fst b)) /\ num_eq (snd (fst a)) (snd (fst b)) /\
  num_eq (snd a) (snd b).

(** [new THREE.Vector3().lerpVectors(v1, v2, alpha)], where [alpha] may be
    any number. *)
Definition lerpVectors (v1 v2 : Vector3) (alpha : num) : num * num * num :=
  ((Fin (vx v1) + (Fin (vx v2) - Fin (vx v1)) * alpha)%num,
   (Fin (vy v1) + (Fin (vy v2) - Fin (vy v1)) * alpha)%num,
   (Fin (vz v1) + (Fin (vz v2) - Fin (vz v1)) * alpha)%num).

(** The first index [i], from 1 on, with [targetDistance <= distances[i]]. *)
Definition findSegment (distances : list Q) (targetDistance : Q) : option nat :=
  find (fun i => Qle_bool targetDistance (nth i distances 0))
       (seq 1 (length distances - 1)).

(** [static getPositionAlongPath(points, distances, targetDistance)].  The
    result is [None] where the source raises a [TypeError], reading a
    property of [undefined]: [points[i - 1]] or [points[i]] outside the
    array, or the last point of an empty array; the last point is returned
    as a copy ([clone()]). *)
Definition getPositionAlongPath (points : list Vector3) (distances : list Q)
           (targetDistance : Q) : option (num * num * num) :=
  match findSegment distances targetDistance with
  | Some i =>
      let segmentStart := nth (i - 1) distances 0 in
      let segmentEnd := nth i distances 0 in
      let segmentLength := segmentEnd - segmentStart in
      let segmentProgress :=
        (Fin (targetDistance - segmentStart) / Fin segmentLength)%num in
      match nth_error points (i - 1), nth_error points i with
      | Some a, Some b => Some (lerpVectors a b segmentProgress)
      | _, _ => None
      end
  | None =>
      match nth_error points (length points - 1) with
      | Some p => Some (finiteVector p)
      | None => None
      end
  end.

End GeometryShapes.

(** ** Sample inputs *)

Module Samples.
Import MathUtils THREE Environment.

(** The table [initNoise] builds when no swap of the shuffle moves an
    entry ([initNoise_identity]): 0..255 twice. *)
Definition identityTable : list Z :=
  map Z.of_nat (seq 0 noiseTableSize) ++ map Z.of_nat (seq 0 noiseTableSize).

(** The terrain of the end-to-end scenario, [{size: 100, segments: 10}],
    the other settings as in the constructor. *)
Definition scenarioConfig : Config :=
  {| terrain_config := {| size := 100; segments := 10;
                          heightVariation := 8; noiseScale := 5 # 100 |};
     trees_config := trees_config defaultConfig;
     grass_config := grass_config defaultConfig;
     flowers_config := flowers_config defaultConfig;
     rocks_config := rocks_config defaultConfig |}.

(** The infeasible request of the end-to-end scenario: 10 trees,
    [minDistance = 20], [maxDistance = 15]. *)
Definition infeasibleConfig : Config :=
  {| terrain_config := terrain_config scenarioConfig;
     trees_config := {| trees_count := 10; minDistance := 20;
                        trees_maxDistance := 15 |};
     grass_config := grass_config defaultConfig;
     flowers_config := flowers_config defaultConfig;
     rocks_config := rocks_config defaultConfig |}.

(** A request that can be met: 3 trees, [minDistance = 5],
    [maxDistance = 40]. *)
Definition sparseConfig : Config :=
  {| terrain_config := terrain_config scenarioConfig;
     trees_config := {| trees_count := 3; minDistance := 5;
                        trees_maxDistance := 40 |};
     grass_config := grass_config defaultConfig;
     flowers_config := flowers_config defaultConfig;
     rocks_config := rocks_config defaultConfig |}.

(** A stand-in for the runtime, exact at the angle 0 that the sample draws
    use: [cos 0 = 1], [sin 0 = 0]. *)
Definition sampleCos (a : Q) : Q := 1 - a * a / 2.
Definition sampleSin (a : Q) : Q := a.
Definition samplePI : Q := 355 # 113.

(** Draws with angle 0 and distances [0], [1/4], [2/4], [3/4] of
    [maxDistance], repeating. *)
Definition sampleDraws (k : nat) : Q * Q :=
  (0, inject_Z (Z.of_nat (k mod 4)) / 4).

(** Draws that hit the same spot every time. *)
Definition constantDraws (k : nat) : Q * Q := (0, 1 # 2).

Definition sampleBlades (k i : nat) : Q * Q := (1 # 4, 3 # 4).

(** Draws that hit the origin fifty times and a spot 20 away from it
    afterwards, and a request for 2 trees at least 5 apart. *)
Definition lateDraws (k : nat) : Q * Q :=
  (0, if (k <? 50)%nat then 0 else 1 # 2).

Definition pairConfig : Config :=
  {| terrain_config := terrain_config scenarioConfig;
     trees_config := {| trees_count := 2; minDistance := 5;
                        trees_maxDistance := 40 |};
     grass_config := grass_config defaultConfig;
     flowers_config := flowers_config defaultConfig;
     rocks_config := rocks_config defaultConfig |}.

(** Stand-ins for the runtime's [Math] functions on all numbers: exact at
    the special values, rough polynomial approximations elsewhere. *)
Import GeometryUtils.

Fixpoint newton (q x : Q) (steps : nat) : Q :=
  match steps with
  | O => x
  | S k => newton q ((x + q / x) / 2) k
  end.

Definition sampleSqrt (a : num) : num :=
  match a with
  | Fin q => if Qltb q 0 then NaN
             else if Qeq_bool q 0 then Fin 0
                  else Fin (newton q ((q + 1) / 2) 4)
  | Inf false => Inf false
  | _ => NaN
  end.

Definition sampleAtan2 (z x : num) : num :=
  match z, x with
  | Fin z, Fin x =>
      if Qeq_bool z 0 && Qeq_bool x 0 then Fin 0
      else Fin (samplePI / 2 * z / (Qabs x + Qabs z))
  | _, _ => NaN
  end.

Definition sampleAcosNum (a : num) : num :=
  match a with
  | Fin q => if Qle_bool (-1) q && Qle_bool q 1
             then Fin (samplePI / 2 - q - q * q * q / 6)
             else NaN
  | _ => NaN
  end.

Definition sampleSinNum (a : num) : num :=
  match a with
  | Fin q => Fin (sampleSin q)
  | _ => NaN
  end.

Definition sampleCosNum (a : num) : num :=
  match a with
  | Fin q => Fin (sampleCos q)
  | _ => NaN
  end.

(** A stand-in for the runtime's sine on all numbers, with values between
    -1 and 1. *)
Definition sampleWave (a : num) : num :=
  match a with
  | Fin q => Fin (q / (1 + Qabs q))
  | _ => NaN
  end.

End Samples.

(** * Properties *)

(** ** Gradient noise *)

Import MathUtils THREE.


Lemma lerp_mono a b a' b' t :
  0 <= t -> t <= 1 -> a <= a' -> b <= b' -> lerp a b t <= lerp a' b' t.
Proof.
  intros Ht0 Ht1 Ha Hb. unfold lerp.
  assert (H1 : 0 <= (a' - a) * (1 - t)) by (apply Qmult_le_0_compat; lra).
  assert (H2 : 0 <= (b' - b) * t) by (apply Qmult_le_0_compat; lra).
  lra.
Qed.

Lemma Qsquare_nonneg (a : Q) : 0 <= a * a.
Proof.
  destruct (Qlt_le_dec a 0) as [Hn | Hp].
  - assert (H : 0 <= (- a) * (- a)) by (apply Qmult_le_0_compat; lra).
    assert (E : (- a) * (- a) == a * a) by ring. lra.
  - apply Qmult_le_0_compat; assumption.
Qed.

Lemma fade_nonneg t : 0 <= t -> t <= 1 -> 0 <= fade t.
Proof.
  intros. unfold fade.
  assert (E : t * (t * 6 - 15) + 10 == 6 * ((t - (5 # 4)) * (t - (5 # 4))) + (5 # 8)) by ring.
  assert (0 <= (t - (5 # 4)) * (t - (5 # 4))) by apply Qsquare_nonneg.
  repeat apply Qmult_le_0_compat; try lra.
Qed.

Lemma fade_le_1 t : 0 <= t -> t <= 1 -> fade t <= 1.
Proof.
  intros. unfold fade.
  assert (E : 1 - t * t * t * (t * (t * 6 - 15) + 10)
              == (1 - t) * (1 - t) * (1 - t) * (6 * t * t + 3 * t + 1)) by ring.
  assert (0 <= (1 - t) * (1 - t) * (1 - t) * (6 * t * t + 3 * t + 1)).
  { assert (0 <= t * t) by apply Qsquare_nonneg.
    repeat apply Qmult_le_0_compat; lra. }
  lra.
Qed.

Lemma frac_bounds x : 0 <= frac x /\ frac x < 1.
Proof.
  unfold frac. pose proof (Qfloor_le x) as H1. pose proof (Qlt_floor x) as H2.
  rewrite inject_Z_plus in H2. change (inject_Z 1) with 1 in H2. split; lra.
Qed.

Lemma grad2D_bound hash a b A B :
  - A <= a -> a <= A -> - B <= b -> b <= B ->
  - (A + B) <= grad2D hash a b /\ grad2D hash a b <= A + B.
Proof.
  intros. unfold grad2D.
  destruct (Z.land hash 3 <? 2)%Z;
    destruct (Z.land (Z.land hash 3) 1 =? 0)%Z;
    destruct (Z.land (Z.land hash 3) 2 =? 0)%Z; split; lra.
Qed.

Lemma fade_balance t :
  0 <= t -> t <= 1 -> t + fade t * (1 - 2 * t) <= 1 # 2.
Proof.
  intros H0 H1. unfold fade.
  assert (E : (1 # 2) - (t + t * t * t * (t * (t * 6 - 15) + 10) * (1 - 2 * t))
              == 2 * ((t - (1 # 2)) * (t - (1 # 2)))
                 * (6 * ((t * (1 - t)) * (t * (1 - t))) + 2 * (t * (1 - t)) + 1)) by ring.
  assert (P : 0 <= t * (1 - t)) by (apply Qmult_le_0_compat; lra).
  assert (S1 : 0 <= (t - (1 # 2)) * (t - (1 # 2))) by apply Qsquare_nonneg.
  assert (S2 : 0 <= (t * (1 - t)) * (t * (1 - t))) by (apply Qmult_le_0_compat; exact P).
  assert (0 <= 2 * ((t - (1 # 2)) * (t - (1 # 2)))
                 * (6 * ((t * (1 - t)) * (t * (1 - t))) + 2 * (t * (1 - t)) + 1)).
  { apply Qmult_le_0_compat; lra. }
  lra.
Qed.

Lemma noise_range noiseTable x y :
  -1 <= noise noiseTable x y /\ noise noiseTable x y <= 1.
Proof.
  unfold noise.
  destruct (frac_bounds x) as [Hx0 Hx1]. destruct (frac_bounds y) as [Hy0 Hy1].
  set (T := table_get noiseTable).
  set (fx := frac x) in *. set (fy := frac y) in *.
  generalize (T (T (T (cell x) + cell y)%Z)) (T (T (T (cell x + 1)%Z + cell y)%Z))
             (T (T (T (cell x) + cell y + 1)%Z)) (T (T (T (cell x + 1)%Z + cell y + 1)%Z)).
  intros h00 h10 h01 h11.
  assert (U0 := fade_nonneg fx ltac:(lra) ltac:(lra)).
  assert (U1 := fade_le_1 fx ltac:(lra) ltac:(lra)).
  assert (V0 := fade_nonneg fy ltac:(lra) ltac:(lra)).
  assert (V1 := fade_le_1 fy ltac:(lra) ltac:(lra)).
  assert (BX := fade_balance fx ltac:(lra) ltac:(lra)).
  assert (BY := fade_balance fy ltac:(lra) ltac:(lra)).
  destruct (grad2D_bound h00 fx fy fx fy) as [L00 U00]; try lra.
  destruct (grad2D_bound h10 (fx - 1) fy (1 - fx) fy) as [L10 U10]; try lra.
  destruct (grad2D_bound h01 fx (fy - 1) fx (1 - fy)) as [L01 U01]; try lra.
  destruct (grad2D_bound h11 (fx - 1) (fy - 1) (1 - fx) (1 - fy)) as [L11 U11]; try lra.
  set (u := fade fx) in *. set (v := fade fy) in *.
  assert (E : lerp (lerp (fx + fy) (1 - fx + fy) u)
                   (lerp (fx + (1 - fy)) (1 - fx + (1 - fy)) u) v
              == (fx + u * (1 - 2 * fx)) + (fy + v * (1 - 2 * fy)))
    by (unfold lerp; ring).
  split.
  - assert (M : lerp (lerp (- (fx + fy)) (- (1 - fx + fy)) u)
                     (lerp (- (fx + (1 - fy))) (- (1 - fx + (1 - fy))) u) v
                <= lerp (lerp (grad2D h00 fx fy) (grad2D h10 (fx - 1) fy) u)
                        (lerp (grad2D h01 fx (fy - 1)) (grad2D h11 (fx - 1) (fy - 1)) u) v).
    { repeat apply lerp_mono; assumption. }
    assert (E' : lerp (lerp (- (fx + fy)) (- (1 - fx + fy)) u)
                     (lerp (- (fx + (1 - fy))) (- (1 - fx + (1 - fy))) u) v
                 == - ((fx + u * (1 - 2 * fx)) + (fy + v * (1 - 2 * fy))))
      by (unfold lerp; ring).
    lra.
  - assert (M : lerp (lerp (grad2D h00 fx fy) (grad2D h10 (fx - 1) fy) u)
                        (lerp (grad2D h01 fx (fy - 1)) (grad2D h11 (fx - 1) (fy - 1)) u) v
                <= lerp (lerp (fx + fy) (1 - fx + fy) u)
                   (lerp (fx + (1 - fy)) (1 - fx + (1 - fy)) u) v).
    { repeat apply lerp_mono; assumption. }
    lra.
Qed.

#[global] Instance frac_Proper : Proper (Qeq ==> Qeq) frac.
Proof.
  intros x x' H. unfold frac. rewrite (Qfloor_comp _ _ H), H. reflexivity.
Qed.

#[global] Instance fade_Proper : Proper (Qeq ==> Qeq) fade.
Proof.
  intros x x' H. unfold fade. rewrite H. reflexivity.
Qed.

#[global] Instance lerp_Proper : Proper (Qeq ==> Qeq ==> Qeq ==> Qeq) lerp.
Proof.
  intros a a' Ha b0 b' Hb t t' Ht. unfold lerp. rewrite Ha, Hb, Ht. reflexivity.
Qed.

#[global] Instance grad2D_Proper : Proper (eq ==> Qeq ==> Qeq ==> Qeq) grad2D.
Proof.
  intros h h' <- x x' Hx y y' Hy. unfold grad2D.
  destruct (Z.land h 3 <? 2)%Z;
    destruct (Z.land (Z.land h 3) 1 =? 0)%Z;
    destruct (Z.land (Z.land h 3) 2 =? 0)%Z; rewrite Hx, Hy; reflexivity.
Qed.

Lemma cell_Proper x x' : x == x' -> cell x = cell x'.
Proof.
  intros H. unfold cell. now rewrite (Qfloor_comp _ _ H).
Qed.

#[global] Instance noise_Proper : Proper (eq ==> Qeq ==> Qeq ==> Qeq) noise.
Proof.
  intros t t' <- x x' Hx y y' Hy. unfold noise.
  rewrite (cell_Proper _ _ Hx), (cell_Proper _ _ Hy), Hx, Hy. reflexivity.
Qed.

Lemma frac_integer (n : Z) : frac (inject_Z n) == 0.
Proof.
  unfold frac. rewrite Qfloor_Z. ring.
Qed.

Lemma grad2D_origin hash : grad2D hash 0 0 == 0.
Proof.
  unfold grad2D.
  destruct (Z.land hash 3 <? 2)%Z;
    destruct (Z.land (Z.land hash 3) 1 =? 0)%Z;
    destruct (Z.land (Z.land hash 3) 2 =? 0)%Z; ring.
Qed.

Lemma noise_integer noiseTable (n m : Z) :
  noise noiseTable (inject_Z n) (inject_Z m) == 0.
Proof.
  unfold noise.
  rewrite (frac_integer n), (frac_integer m).
  assert (F : fade 0 == 0) by (unfold fade; ring).
  rewrite F. unfold lerp. rewrite grad2D_origin. ring.
Qed.


(** *** The permutation table *)

Lemma valid_table_values noiseTable :
  valid_table noiseTable -> Forall (fun v => (0 <= v < 256)%Z) noiseTable.
Proof.
  intros (Hlen & Hperm & Hdup).
  rewrite <- (firstn_skipn noiseTableSize noiseTable), Hdup.
  assert (H : Forall (fun v => (0 <= v < 256)%Z) (firstn noiseTableSize noiseTable)).
  { apply Forall_forall. intros v Hv.
    apply (Permutation_in _ Hperm) in Hv.
    apply in_map_iff in Hv. destruct Hv as (k & <- & Hk).
    apply in_seq in Hk. unfold noiseTableSize in Hk. lia. }
  apply Forall_app. split; exact H.
Qed.

Lemma table_get_range noiseTable i :
  valid_table noiseTable -> (0 <= i < 512)%Z ->
  (0 <= table_get noiseTable i < 256)%Z.
Proof.
  intros Hv Hi. pose proof (valid_table_values _ Hv) as Hall.
  destruct Hv as (Hlen & _). unfold noiseTableSize in Hlen.
  rewrite Forall_forall in Hall. apply Hall. unfold table_get.
  apply nth_In. lia.
Qed.

Lemma cell_range x : (0 <= cell x < 256)%Z.
Proof.
  unfold cell. change 255%Z with (Z.ones 8).
  rewrite Z.land_ones by lia. apply Z.mod_pos_bound. reflexivity.
Qed.

(** On a table built by [initNoise], every read of [noise] is inside the
    table. *)
Lemma noise_reads_in_table noiseTable x y :
  valid_table noiseTable ->
  Forall (fun i => (0 <= i < 512)%Z) (noise_reads noiseTable x y).
Proof.
  intros Hv. unfold noise_reads.
  pose proof (cell_range x) as HX. pose proof (cell_range y) as HY.
  assert (HA := table_get_range _ (cell x) Hv ltac:(lia)).
  assert (HB := table_get_range _ (cell x + 1)%Z Hv ltac:(lia)).
  assert (HAA := table_get_range _ (table_get noiseTable (cell x) + cell y)%Z Hv ltac:(lia)).
  assert (HAB := table_get_range _ (table_get noiseTable (cell x) + cell y + 1)%Z Hv ltac:(lia)).
  assert (HBA := table_get_range _ (table_get noiseTable (cell x + 1) + cell y)%Z Hv ltac:(lia)).
  assert (HBB := table_get_range _ (table_get noiseTable (cell x + 1) + cell y + 1)%Z Hv ltac:(lia)).
  repeat constructor; lia.
Qed.

Lemma update_length p n v : length (update p n v) = length p.
Proof.
  revert n. induction p as [|x p IH]; intros n; [reflexivity|].
  destruct n; cbn [update length]; [reflexivity | now rewrite IH].
Qed.

Lemma update_app l1 x l2 v :
  update (l1 ++ x :: l2) (length l1) v = l1 ++ v :: l2.
Proof.
  induction l1 as [|y l1 IH]; cbn [app length update]; [reflexivity | now rewrite IH].
Qed.

Lemma update_same p n : update p n (nth n p 0%Z) = p.
Proof.
  revert n. induction p as [|x p IH]; intros n; [reflexivity|].
  destruct n; cbn [update nth]; [reflexivity | now rewrite IH].
Qed.

Lemma swap_length p i j : length (swap p i j) = length p.
Proof.
  unfold swap. now rewrite !update_length.
Qed.

(** Exchanging two entries of the array permutes it. *)
Lemma swap_Permutation p i j :
  (j <= i)%nat -> (i < length p)%nat -> Permutation (swap p i j) p.
Proof.
  intros Hji Hi. unfold swap. cbv zeta.
  destruct (Nat.eq_dec j i) as [-> | Hne].
  - rewrite !update_same. apply Permutation_refl.
  - destruct (nth_split p 0%Z Hi) as (L & l3 & Hp & HL).
    assert (Hj : (j < length L)%nat) by lia.
    destruct (nth_split L 0%Z Hj) as (l1 & l2 & HLs & Hl1).
    set (a := nth i p 0%Z) in *. set (b' := nth j L 0%Z) in *.
    assert (Hb : nth j p 0%Z = b').
    { rewrite Hp. rewrite app_nth1 by lia. reflexivity. }
    rewrite Hb. clearbody a b'. subst p L i j.
    rewrite (update_app (l1 ++ b' :: l2) a l3 b'). rewrite <- !app_assoc. cbn [app].
    rewrite (update_app l1 b' (l2 ++ b' :: l3) a).
    apply Permutation_app_head.
    transitivity (a :: b' :: l2 ++ l3).
    + constructor. symmetry. apply Permutation_middle.
    + transitivity (b' :: a :: l2 ++ l3); [apply perm_swap|].
      constructor. apply Permutation_middle.
Qed.

(** [Math.floor(Math.random() * (i + 1))] is an index from 0 to [i]. *)
Lemma random_index r (i : nat) :
  0 <= r -> r < 1 ->
  (Z.to_nat (Qfloor (r * inject_Z (Z.of_nat (i + 1)))) <= i)%nat.
Proof.
  intros H0 H1.
  assert (Hpos : 0 < inject_Z (Z.of_nat (i + 1))).
  { change 0 with (inject_Z 0). rewrite <- Zlt_Qlt. lia. }
  set (n := inject_Z (Z.of_nat (i + 1))) in *.
  assert (Hlo : 0 <= r * n) by (apply Qmult_le_0_compat; lra).
  assert (Hhi : r * n < n).
  { assert (0 < (1 - r) * n) by (apply Qmult_lt_0_compat; lra). lra. }
  pose proof (Qfloor_le (r * n)) as Hf.
  pose proof (Qfloor_resp_le _ _ Hlo) as Hf0. change (Qfloor 0) with 0%Z in Hf0.
  assert (Hlt : inject_Z (Qfloor (r * n)) < n) by lra.
  subst n. rewrite <- Zlt_Qlt in Hlt. lia.
Qed.

Lemma shuffleLoop_Permutation random i k p :
  (forall n, 0 <= random n /\ random n < 1) ->
  (i < length p)%nat ->
  Permutation (shuffleLoop random i k p) p /\
  length (shuffleLoop random i k p) = length p.
Proof.
  intros Hr. revert k p. induction i as [|i IH]; intros k p Hi; cbn [shuffleLoop].
  - split; [apply Permutation_refl | reflexivity].
  - set (j := Z.to_nat (Qfloor (random k * inject_Z (Z.of_nat (S i + 1))))).
    assert (Hj : (j <= S i)%nat) by (apply random_index; apply Hr).
    destruct (IH (S k) (swap p (S i) j)) as [HP HL].
    { rewrite swap_length. lia. }
    split.
    + rewrite HP. apply swap_Permutation; assumption.
    + rewrite HL. apply swap_length.
Qed.

(** With random numbers in [0, 1), [initNoise] builds a valid table. *)
Lemma initNoise_valid random :
  (forall n, 0 <= random n /\ random n < 1) -> valid_table (initNoise random).
Proof.
  intros Hr. unfold initNoise. cbv zeta.
  set (p0 := map Z.of_nat (seq 0 noiseTableSize)).
  assert (H0 : length p0 = noiseTableSize)
    by (unfold p0; now rewrite length_map, length_seq).
  destruct (shuffleLoop_Permutation random (noiseTableSize - 1) 0 p0 Hr) as [HP HL].
  { rewrite H0. unfold noiseTableSize. lia. }
  set (p := shuffleLoop random (noiseTableSize - 1) 0 p0) in *.
  rewrite H0 in HL. unfold valid_table. repeat split.
  - rewrite length_app, HL. lia.
  - rewrite <- HL at 1. rewrite firstn_app, firstn_all, Nat.sub_diag. cbn [firstn].
    rewrite app_nil_r. exact HP.
  - rewrite <- HL at 1 2. rewrite skipn_app, skipn_all, Nat.sub_diag. cbn [skipn app].
    rewrite firstn_app, firstn_all, Nat.sub_diag. cbn [firstn].
    now rewrite app_nil_r.
Qed.

(** *** Fractal noise *)

Lemma fractalLoop_last noiseTable x y p n s :
  fractalLoop noiseTable x y p (S n) s
  = fractalStep noiseTable x y p (fractalLoop noiseTable x y p n s).
Proof.
  revert s. induction n as [|n IH]; intros s.
  - reflexivity.
  - change (fractalLoop noiseTable x y p (S (S n)) s)
      with (fractalLoop noiseTable x y p (S n) (fractalStep noiseTable x y p s)).
    rewrite IH. reflexivity.
Qed.

(** The loop computes the two sums, with [frequency = 2 ^ i] and
    [amplitude = persistence ^ i] after [i] iterations. *)
Lemma fractalLoop_sums noiseTable x y p n :
  let s := fractalLoop noiseTable x y p n fractalInit in
  total s == octaveSum noiseTable x y p n /\
  maxValue s == amplitudeSum p n /\
  amplitude s == p ^ Z.of_nat n /\
  frequency s == 2 ^ Z.of_nat n.
Proof.
  induction n as [|n IH].
  - cbn. repeat split; reflexivity.
  - rewrite fractalLoop_last. cbv zeta in IH |- *.
    destruct IH as (Ht & Hm & Ha & Hf).
    set (s := fractalLoop noiseTable x y p n fractalInit) in *.
    unfold fractalStep; cbn [total maxValue amplitude frequency octaveSum amplitudeSum].
    assert (Hp : forall q : Q, q ^ Z.of_nat (S n) == q ^ Z.of_nat n * q).
    { intros q. rewrite Nat2Z.inj_succ. unfold Z.succ.
      rewrite Qpower_plus' by lia. rewrite Qpower_1_r. reflexivity. }
    repeat split.
    + rewrite Ht, Ha, Hf. reflexivity.
    + rewrite Hm, Ha. reflexivity.
    + rewrite Ha. symmetry. apply Hp.
    + rewrite Hf. symmetry. apply Hp.
Qed.

Lemma amplitudeSum_pos p n : 0 <= p -> (1 <= n)%nat -> 1 <= amplitudeSum p n.
Proof.
  intros Hp Hn. induction n as [|n IH]; [lia|].
  cbn [amplitudeSum]. pose proof (Qpower_0_le p (Z.of_nat n) Hp) as Hk.
  destruct n as [|n].
  - cbn. lra.
  - specialize (IH ltac:(lia)). lra.
Qed.

Lemma octaveSum_bound noiseTable x y p n :
  0 <= p ->
  - amplitudeSum p n <= octaveSum noiseTable x y p n /\
  octaveSum noiseTable x y p n <= amplitudeSum p n.
Proof.
  intros Hp. induction n as [|n [IHl IHu]].
  - cbn. split; lra.
  - cbn [amplitudeSum octaveSum].
    pose proof (Qpower_0_le p (Z.of_nat n) Hp) as Hk.
    destruct (noise_range noiseTable (x * 2 ^ Z.of_nat n) (y * 2 ^ Z.of_nat n)) as [Nl Nu].
    set (v := noise noiseTable (x * 2 ^ Z.of_nat n) (y * 2 ^ Z.of_nat n)) in *.
    set (a := p ^ Z.of_nat n) in *.
    assert (H1 : 0 <= (1 - v) * a) by (apply Qmult_le_0_compat; lra).
    assert (H2 : 0 <= (v + 1) * a) by (apply Qmult_le_0_compat; lra).
    split; lra.
Qed.

Lemma fractalNoise_sums noiseTable x y n p :
  fractalNoise noiseTable x y n p
  == octaveSum noiseTable x y p n / amplitudeSum p n.
Proof.
  unfold fractalNoise.
  destruct (fractalLoop_sums noiseTable x y p n) as (Ht & Hm & _).
  cbv zeta in Ht, Hm. rewrite Ht, Hm. reflexivity.
Qed.

Lemma fractalNoise_range noiseTable x y n p :
  (1 <= n)%nat -> 0 <= p ->
  -1 <= fractalNoise noiseTable x y n p /\ fractalNoise noiseTable x y n p <= 1.
Proof.
  intros Hn Hp. rewrite fractalNoise_sums.
  pose proof (amplitudeSum_pos p n Hp Hn) as Hpos.
  destruct (octaveSum_bound noiseTable x y p n Hp) as [Hl Hu].
  split.
  - apply Qle_shift_div_l; lra.
  - apply Qle_shift_div_r; lra.
Qed.

(** C7.  On a table built by [initNoise] every table read of the 2D noise
    is inside the table, and its value lies in [-1, 1] for all arguments
    (in exact arithmetic there is no overshoot). *)
Theorem noise_within_unit_interval noiseTable x y :
  valid_table noiseTable ->
  Forall (fun i => (0 <= i < 512)%Z) (noise_reads noiseTable x y) /\
  -1 <= noise noiseTable x y /\ noise noiseTable x y <= 1.
Proof.
  intros Hv. split.
  - apply noise_reads_in_table. exact Hv.
  - apply noise_range.
Qed.

(** When [Math.random()] always returns 0.999 every swap exchanges an
    entry with itself. *)
Example initNoise_identity :
  initNoise (fun _ => 999 # 1000) = Samples.identityTable.
Proof. vm_compute. reflexivity. Qed.

Lemma identityTable_valid : valid_table Samples.identityTable.
Proof.
  unfold valid_table, Samples.identityTable.
  split; [reflexivity|]. split.
  - vm_compute. apply Permutation_refl.
  - vm_compute. reflexivity.
Qed.

Lemma noise_within_unit_interval_witness :
  Forall (fun i => (0 <= i < 512)%Z)
         (noise_reads Samples.identityTable (7 # 2) (-5 # 4)) /\
  -1 <= noise Samples.identityTable (7 # 2) (-5 # 4) /\
  noise Samples.identityTable (7 # 2) (-5 # 4) <= 1.
Proof.
  apply (noise_within_unit_interval Samples.identityTable (7 # 2) (-5 # 4)).
  exact identityTable_valid.
Defined.

(** C6.  For [octaves >= 1] and [0 < persistence <= 1], [fractalNoise]
    is the sum of the octaves divided by the sum of their amplitudes, that
    divisor is positive, and the result lies in [-1, 1] whatever the number
    of octaves. *)
Theorem fractalNoise_normalised noiseTable x y octaves persistence :
  (1 <= octaves)%nat -> 0 < persistence -> persistence <= 1 ->
  fractalNoise noiseTable x y octaves persistence
  == octaveSum noiseTable x y persistence octaves / amplitudeSum persistence octaves /\
  0 < amplitudeSum persistence octaves /\
  -1 <= fractalNoise noiseTable x y octaves persistence /\
  fractalNoise noiseTable x y octaves persistence <= 1.
Proof.
  intros Hn Hp _. split; [apply fractalNoise_sums|]. split.
  - pose proof (amplitudeSum_pos persistence octaves ltac:(lra) Hn). lra.
  - apply fractalNoise_range; [exact Hn | lra].
Qed.

Lemma fractalNoise_normalised_witness :
  -1 <= fractalNoise Samples.identityTable (13 # 10) (27 # 10) 4 (1 # 2) /\
  fractalNoise Samples.identityTable (13 # 10) (27 # 10) 4 (1 # 2) <= 1.
Proof.
  apply (fractalNoise_normalised Samples.identityTable (13 # 10) (27 # 10) 4 (1 # 2));
    [lia | reflexivity | discriminate].
Defined.

(** ** Terrain generation *)

Import Environment.

Lemma flat_map_length_const {A B : Type} (f : A -> list B) (c : nat) (l : list A) :
  (forall a, length (f a) = c) -> length (flat_map f l) = (c * length l)%nat.
Proof.
  intros Hf. induction l as [|a l IH]; cbn [flat_map length].
  - lia.
  - rewrite length_app, Hf, IH. lia.
Qed.

Lemma PlaneGeometry_length width height gridX gridY :
  length (PlaneGeometry width height gridX gridY)
  = (3 * ((gridX + 1) * (gridY + 1)))%nat.
Proof.
  unfold PlaneGeometry.
  rewrite (flat_map_length_const _ (3 * (gridX + 1))%nat).
  - rewrite length_seq. lia.
  - intros iy. unfold planeRow.
    rewrite (flat_map_length_const _ 3%nat) by reflexivity.
    rewrite length_seq. lia.
Qed.

(** Every vertex of the plane built by Three.js has [z = 0]. *)
Lemma PlaneGeometry_flat width height gridX gridY i :
  (i < (gridX + 1) * (gridY + 1))%nat ->
  nth (3 * i + 2) (PlaneGeometry width height gridX gridY) 0 = 0.
Proof.
  unfold PlaneGeometry.
  generalize (width / inject_Z (Z.of_nat gridX)) (width / 2)
             (height / inject_Z (Z.of_nat gridY)) (height / 2).
  intros sw wh sh hh.
  assert (Row : forall n s y j,
             nth (3 * j + 2)
                 (flat_map (fun ix : nat => [inject_Z (Z.of_nat ix) * sw - wh; - y; 0])
                           (seq s n)) 0 = 0).
  { induction n as [|n IH]; intros s y j.
    - destruct (3 * j + 2)%nat; reflexivity.
    - cbn [seq flat_map app]. destruct j as [|j].
      + reflexivity.
      + replace (3 * S j + 2)%nat with (S (S (S (3 * j + 2)))) by lia.
        cbn [nth]. apply IH. }
  assert (All : forall l : list nat, forall k,
             nth (3 * k + 2)
                 (flat_map (fun iy : nat =>
                              planeRow sw wh (gridX + 1)
                                       (inject_Z (Z.of_nat iy) * sh - hh)) l) 0 = 0).
  { induction l as [|iy l IH]; intros k.
    - destruct (3 * k + 2)%nat; reflexivity.
    - cbn [flat_map].
      assert (Hlen : length (planeRow sw wh (gridX + 1)
                                      (inject_Z (Z.of_nat iy) * sh - hh))
                     = (3 * (gridX + 1))%nat).
      { unfold planeRow. rewrite (flat_map_length_const _ 3%nat) by reflexivity.
        rewrite length_seq. lia. }
      destruct (Nat.lt_ge_cases k (gridX + 1)) as [Hk | Hk].
      + rewrite app_nth1 by lia. apply Row.
      + rewrite app_nth2 by lia. rewrite Hlen.
        replace (3 * k + 2 - 3 * (gridX + 1))%nat
          with (3 * (k - (gridX + 1)) + 2)%nat by lia.
        apply IH. }
  intros _. apply All.
Qed.

Lemma applyHeights_length noiseTable c vertices :
  length (applyHeights noiseTable c vertices) = length vertices.
Proof.
  remember (length vertices) as n eqn:Hn.
  revert vertices Hn. induction n as [n IH] using lt_wf_ind. intros vertices Hn.
  subst n. destruct vertices as [|x [|y [|z rest]]]; try reflexivity.
  cbn [applyHeights length]. do 3 f_equal.
  apply (IH (length rest)); [cbn [length]; lia | reflexivity].
Qed.

(** The loop leaves [x] and [z] of every vertex as they were and stores in
    [y] the value that [getTerrainHeightAt] returns for them once the terrain
    is in place. *)
Lemma applyHeights_vertex noiseTable env terrainVertices vertices i :
  terrain env = Some terrainVertices ->
  (3 * i + 2 < length vertices)%nat ->
  let out := applyHeights noiseTable (terrain_config (config env)) vertices in
  nth (3 * i) out 0 = nth (3 * i) vertices 0 /\
  nth (3 * i + 2) out 0 = nth (3 * i + 2) vertices 0 /\
  nth (3 * i + 1) out 0
  = getTerrainHeightAt noiseTable env (nth (3 * i) vertices 0)
                       (nth (3 * i + 2) vertices 0).
Proof.
  intros Ht. revert vertices. induction i as [|i IH]; intros vertices Hlen.
  - destruct vertices as [|x [|y [|z rest]]]; cbn in Hlen; try lia.
    cbn [applyHeights Nat.mul Nat.add nth]. unfold getTerrainHeightAt.
    rewrite Ht. repeat split; reflexivity.
  - destruct vertices as [|x [|y [|z rest]]]; cbn [length] in Hlen; try lia.
    replace (3 * S i)%nat with (S (S (S (3 * i)))) by lia.
    replace (S (S (S (3 * i))) + 2)%nat with (S (S (S (3 * i + 2)))) by lia.
    replace (S (S (S (3 * i))) + 1)%nat with (S (S (S (3 * i + 1)))) by lia.
    cbn [applyHeights nth]. apply IH. lia.
Qed.

Lemma getTerrainHeightAt_lattice noiseTable env x z (i j : Z) :
  x * noiseScale (terrain_config (config env)) == inject_Z i ->
  z * noiseScale (terrain_config (config env)) == inject_Z j ->
  getTerrainHeightAt noiseTable env x z == 0.
Proof.
  intros Hx Hz. unfold getTerrainHeightAt.
  destruct (terrain env); [|reflexivity].
  cbv zeta. rewrite Hx, Hz.
  assert (E2 : forall k : Z, inject_Z k * 2 == inject_Z (k * 2))
    by (intros k; rewrite inject_Z_mult; reflexivity).
  assert (E4 : forall k : Z, inject_Z k * 4 == inject_Z (k * 4))
    by (intros k; rewrite inject_Z_mult; reflexivity).
  rewrite !E2, !E4, !noise_integer. ring.
Qed.



(** C10.  At an integer lattice point the fractional offsets are 0, the fade
    weight of 0 is 0 and every gradient dotted with the zero offset is 0, so
    the 2D noise is exactly 0 there, for any table; hence the terrain height
    is exactly 0 wherever the scaled coordinates are integers, the world
    origin in particular. *)
Theorem noise_zero_on_lattice noiseTable (n m : Z) :
  frac (inject_Z n) == 0 /\ frac (inject_Z m) == 0 /\
  fade 0 == 0 /\
  (forall hash, grad2D hash 0 0 == 0) /\
  noise noiseTable (inject_Z n) (inject_Z m) == 0 /\
  (forall env x z,
      x * noiseScale (terrain_config (config env)) == inject_Z n ->
      z * noiseScale (terrain_config (config env)) == inject_Z m ->
      getTerrainHeightAt noiseTable env x z == 0) /\
  (forall env, getTerrainHeightAt noiseTable env 0 0 == 0).
Proof.
  split; [apply frac_integer|]. split; [apply frac_integer|].
  split; [unfold fade; ring|]. split; [apply grad2D_origin|].
  split; [apply noise_integer|]. split.
  - intros env x z. apply getTerrainHeightAt_lattice.
  - intros env. apply (getTerrainHeightAt_lattice noiseTable env 0 0 0 0); ring.
Qed.

Lemma noise_zero_on_lattice_witness :
  noise Samples.identityTable (inject_Z 3) (inject_Z (-7)) == 0 /\
  getTerrainHeightAt Samples.identityTable
                     (generateTerrain Samples.identityTable
                                      (newEnvironment Samples.scenarioConfig))
                     60 (-140) == 0.
Proof.
  destruct (noise_zero_on_lattice Samples.identityTable 3 (-7))
    as (_ & _ & _ & _ & Hn & Hh & _).
  split; [exact Hn|].
  apply Hh; vm_compute; reflexivity.
Defined.

(** ** Placement of trees *)

Lemma Qltb_lt x y : Qltb x y = true <-> x < y.
Proof.
  unfold Qltb. rewrite negb_true_iff. split.
  - intros H. apply Qnot_le_lt. intros Hle.
    apply Qle_bool_iff in Hle. congruence.
  - intros H. destruct (Qle_bool y x) eqn:E; [|reflexivity].
    apply Qle_bool_iff in E. lra.
Qed.

Lemma Qltb_ge x y : Qltb x y = false <-> y <= x.
Proof.
  unfold Qltb. rewrite negb_false_iff. apply Qle_bool_iff.
Qed.

Lemma distanceToSquared_nonneg p q : 0 <= distanceToSquared p q.
Proof.
  unfold distanceToSquared. cbv zeta.
  pose proof (Qsquare_nonneg (vx p - vx q)).
  pose proof (Qsquare_nonneg (vy p - vy q)).
  pose proof (Qsquare_nonneg (vz p - vz q)). lra.
Qed.

Lemma distanceToSquared_sym p q : distanceToSquared p q == distanceToSquared q p.
Proof.
  unfold distanceToSquared. ring.
Qed.

Lemma distanceTo_lt_true p q d :
  distanceTo_lt p q d = true <-> 0 < d /\ distanceToSquared p q < d * d.
Proof.
  unfold distanceTo_lt. rewrite andb_true_iff, !Qltb_lt. reflexivity.
Qed.

Lemma distanceTo_lt_sym p q d : distanceTo_lt p q d = distanceTo_lt q p d.
Proof.
  destruct (distanceTo_lt p q d) eqn:E1, (distanceTo_lt q p d) eqn:E2;
    try reflexivity; exfalso.
  - apply distanceTo_lt_true in E1. destruct E1 as [Hd Hs].
    rewrite distanceToSquared_sym in Hs.
    assert (H : distanceTo_lt q p d = true) by (apply distanceTo_lt_true; auto).
    congruence.
  - apply distanceTo_lt_true in E2. destruct E2 as [Hd Hs].
    rewrite distanceToSquared_sym in Hs.
    assert (H : distanceTo_lt p q d = true) by (apply distanceTo_lt_true; auto).
    congruence.
Qed.

(** The comparison computed on the squares is the comparison of the
    Euclidean distance, the real square root of the squared distance, with
    [d]. *)
Lemma distanceTo_lt_sqrt p q d :
  distanceTo_lt p q d = true
  <-> (sqrt (Q2R (distanceToSquared p q)) < Q2R d)%R.
Proof.
  pose proof (distanceToSquared_nonneg p q) as Hs.
  apply Qle_Rle in Hs. rewrite RMicromega.Q2R_0 in Hs.
  rewrite distanceTo_lt_true. split.
  - intros [Hd Hlt]. apply Qlt_Rlt in Hd, Hlt.
    rewrite RMicromega.Q2R_0 in Hd. rewrite Q2R_mult in Hlt.
    rewrite <- (sqrt_square (Q2R d)) by lra.
    apply sqrt_lt_1_alt. lra.
  - intros Hlt.
    pose proof (sqrt_pos (Q2R (distanceToSquared p q))) as Hp.
    assert (Hd : (0 < Q2R d)%R) by lra.
    split.
    + apply Rlt_Qlt. rewrite RMicromega.Q2R_0. exact Hd.
    + apply Rlt_Qlt. rewrite Q2R_mult.
      rewrite <- (sqrt_sqrt (Q2R (distanceToSquared p q))) by exact Hs.
      apply Rmult_le_0_lt_compat; lra.
Qed.

Lemma apart_sqrt d p q :
  apart d p q <-> (Q2R d <= sqrt (Q2R (distanceToSquared p q)))%R.
Proof.
  unfold apart. split.
  - intros H. apply Rnot_lt_le. intros Hlt.
    apply distanceTo_lt_sqrt in Hlt. congruence.
  - intros H. destruct (distanceTo_lt p q d) eqn:E; [|reflexivity].
    apply distanceTo_lt_sqrt in E. lra.
Qed.

Lemma apart_sym d p q : apart d p q -> apart d q p.
Proof.
  unfold apart. now rewrite (distanceTo_lt_sym q p).
Qed.

Lemma isValidTreePosition_true position existingPositions d :
  isValidTreePosition position existingPositions d = true
  <-> Forall (apart d position) existingPositions.
Proof.
  induction existingPositions as [|e rest IH]; cbn [isValidTreePosition].
  - split; [constructor | reflexivity].
  - destruct (distanceTo_lt position e d) eqn:E.
    + split; [discriminate|]. intros H. inversion H; subst.
      unfold apart in *. congruence.
    + rewrite IH. split.
      * intros H. constructor; [exact E | exact H].
      * intros H. inversion H; assumption.
Qed.

Lemma ForallOrdPairs_snoc {A : Type} (R : A -> A -> Prop) (l : list A) (a : A) :
  ForallOrdPairs R l -> Forall (fun b => R b a) l -> ForallOrdPairs R (l ++ [a]).
Proof.
  induction 1 as [|b l Hb Hl IH]; intros Ha; cbn [app].
  - constructor; constructor.
  - inversion Ha; subst. constructor.
    + apply Forall_app. split; [exact Hb | constructor; [assumption | constructor]].
    + apply IH. assumption.
Qed.

Lemma ForallOrdPairs_nth {A : Type} (R : A -> A -> Prop) (l : list A) :
  (forall a b, R a b -> R b a) ->
  ForallOrdPairs R l ->
  forall i j a b, i <> j -> nth_error l i = Some a -> nth_error l j = Some b -> R a b.
Proof.
  intros Hsym. induction 1 as [|x l Hx Hl IH]; intros i j a b Hij Hi Hj.
  - destruct i; discriminate.
  - rewrite Forall_forall in Hx.
    destruct i as [|i], j as [|j]; cbn [nth_error] in Hi, Hj.
    + congruence.
    + injection Hi as <-. apply Hx. eapply nth_error_In; eauto.
    + injection Hj as <-. apply Hsym, Hx. eapply nth_error_In; eauto.
    + apply (IH i j); auto.
Qed.

Section PlacementFacts.

Variables (Math_cos Math_sin : Q -> Q) (Math_PI : Q).
Variable randomPosition : nat -> Q * Q.

Local Abbreviation candidate :=
  (getRandomTerrainPosition Math_cos Math_sin Math_PI randomPosition).
Local Abbreviation drawLoop' := (drawLoop Math_cos Math_sin Math_PI randomPosition).
Local Abbreviation placeTreeStep' :=
  (placeTreeStep Math_cos Math_sin Math_PI randomPosition).
Local Abbreviation placeTreesLoop' :=
  (placeTreesLoop Math_cos Math_sin Math_PI randomPosition).
Local Abbreviation placeTreesRun' :=
  (placeTreesRun Math_cos Math_sin Math_PI randomPosition).
Local Abbreviation placeTrees' :=
  (placeTrees Math_cos Math_sin Math_PI randomPosition).

(** The loop started with enough fuel draws between 1 and [maxAttempts]
    candidates, returns the last one drawn, and stops before
    [maxAttempts] only on a valid candidate. *)
Lemma drawLoop_spec c placed fuel attempts k :
  (maxAttempts <= fuel + S attempts)%nat ->
  (attempts < maxAttempts)%nat ->
  forall position attempts' k',
    drawLoop' c placed fuel attempts k = (position, attempts', k') ->
    (attempts < attempts' <= maxAttempts)%nat /\
    k' = (k + (attempts' - attempts))%nat /\
    position = candidate (trees_maxDistance c) (k' - 1) /\
    ((attempts' < maxAttempts)%nat ->
     isValidTreePosition position placed (minDistance c) = true).
Proof.
  revert attempts k.
  induction fuel as [|fuel IH]; intros attempts k Hfuel Hatt position attempts' k' E;
    cbn [drawLoop] in E.
  - assert (Hs : (S attempts <? maxAttempts)%nat = false)
      by (apply Nat.ltb_ge; lia).
    rewrite Hs in E. cbn [andb] in E. injection E as <- <- <-.
    repeat split; try lia. f_equal. lia.
  - destruct ((S attempts <? maxAttempts)%nat) eqn:Hs; cbn [andb] in E.
    + apply Nat.ltb_lt in Hs.
      destruct (isValidTreePosition (candidate (trees_maxDistance c) k) placed
                                    (minDistance c)) eqn:Hv; cbn [negb] in E.
      * injection E as <- <- <-.
        repeat split; try lia; [f_equal; lia | intros _; exact Hv].
      * destruct (IH (S attempts) (S k) ltac:(lia) Hs _ _ _ E)
          as (Ha & Hk & Hp & Hvalid).
        repeat split; try lia; [exact Hp | exact Hvalid].
    + injection E as <- <- <-. apply Nat.ltb_ge in Hs.
      repeat split; try lia. f_equal. lia.
Qed.

(** With [maxAttempts] as fuel the loop never stops for lack of fuel: more
    fuel gives the same result. *)
Lemma drawLoop_fuel c placed fuel fuel' attempts k :
  (maxAttempts <= fuel + S attempts)%nat ->
  (fuel <= fuel')%nat ->
  drawLoop' c placed fuel' attempts k = drawLoop' c placed fuel attempts k.
Proof.
  revert fuel' attempts k.
  induction fuel as [|fuel IH]; intros fuel' attempts k Hfuel Hle.
  - destruct fuel'; cbn [drawLoop];
      assert (Hs : (S attempts <? maxAttempts)%nat = false)
      by (apply Nat.ltb_ge; lia); rewrite Hs; reflexivity.
  - destruct fuel' as [|fuel']; [lia|]. cbn [drawLoop].
    destruct ((S attempts <? maxAttempts)%nat &&
              negb (isValidTreePosition (candidate (trees_maxDistance c) k) placed
                                        (minDistance c))); [|reflexivity].
    apply IH; lia.
Qed.

(** What one iteration of the [for] loop of [placeTrees] does. *)
Lemma placeTreeStep_spec env s :
  let c := trees_config (config env) in
  let s' := placeTreeStep' env s in
  (nextDraw s < nextDraw s' <= nextDraw s + maxAttempts)%nat /\
  ((placedPositions s' = placedPositions s /\ placedTrees s' = placedTrees s) \/
   (exists k,
       (nextDraw s <= k < nextDraw s')%nat /\
       let position := candidate (trees_maxDistance c) k in
       placedPositions s' = placedPositions s ++ [position] /\
       placedTrees s' = placedTrees s ++ [mkInstance Tree position] /\
       Forall (apart (minDistance c) position) (placedPositions s))).
Proof.
  intros c s'. subst s'. unfold placeTreeStep. fold c.
  destruct (drawLoop' c (placedPositions s) maxAttempts 0 (nextDraw s))
    as [[position attempts] k] eqn:E.
  destruct (drawLoop_spec c (placedPositions s) maxAttempts 0 (nextDraw s)
                          ltac:(lia) ltac:(unfold maxAttempts; lia) _ _ _ E)
    as (Ha & Hk & Hp & Hv).
  destruct (maxAttempts <=? attempts)%nat eqn:Hm; cbn [nextDraw placedPositions placedTrees].
  - split; [lia|]. left. split; reflexivity.
  - apply Nat.leb_gt in Hm. unfold createTree.
    cbn [nextDraw placedPositions placedTrees].
    split; [lia|]. right. exists (k - 1)%nat. split; [lia|].
    cbv zeta. rewrite <- Hp. repeat split.
    apply isValidTreePosition_true. apply Hv. exact Hm.
Qed.

(** What [n] iterations of the [for] loop of [placeTrees] do: they
    append at most [n] candidates to [placedPositions], one tree at each of
    them to the trees, use at most [maxAttempts * n] draws, and keep the
    accepted positions pairwise apart. *)
Lemma placeTreesLoop_spec env n s :
  let c := trees_config (config env) in
  let s' := placeTreesLoop' env n s in
  exists added,
    placedPositions s' = placedPositions s ++ added /\
    placedTrees s' = placedTrees s ++ map (mkInstance Tree) added /\
    (length added <= n)%nat /\
    (nextDraw s <= nextDraw s' <= nextDraw s + maxAttempts * n)%nat /\
    Forall (fun p => exists k, (nextDraw s <= k < nextDraw s')%nat /\
                               p = candidate (trees_maxDistance c) k) added /\
    (Separated (minDistance c) (placedPositions s) ->
     Separated (minDistance c) (placedPositions s')).
Proof.
  intros c. revert s. induction n as [|n IH]; intros s; cbn [placeTreesLoop].
  - exists []. rewrite !app_nil_r. cbn [map length].
    repeat split; try lia; [constructor | auto].
  - destruct (placeTreeStep_spec env s) as (Hd & Hstep). cbv zeta in Hd, Hstep.
    fold c in Hstep.
    destruct (IH (placeTreeStep' env s)) as (added & Hp & Ht & Hl & Hk & Hc & Hsep).
    set (s1 := placeTreeStep' env s) in *.
    set (s2 := placeTreesLoop' env n s1) in *.
    destruct Hstep as [[Ep Et] | (k & Hkr & Ep & Et & Hv)].
    + exists added.
      split; [rewrite Hp, Ep; reflexivity|].
      split; [rewrite Ht, Et; reflexivity|].
      split; [lia|]. split; [lia|]. split.
      * eapply Forall_impl; [|exact Hc]. cbn beta.
        intros p (k & Hk1 & ->). exists k. split; [lia | reflexivity].
      * intros H. apply Hsep. rewrite Ep. exact H.
    + exists (candidate (trees_maxDistance c) k :: added).
      split; [rewrite Hp, Ep, <- app_assoc; reflexivity|].
      split; [rewrite Ht, Et, <- app_assoc; reflexivity|].
      split; [cbn [length]; lia|]. split; [lia|]. split.
      * constructor.
        -- exists k. split; [lia | reflexivity].
        -- eapply Forall_impl; [|exact Hc]. cbn beta.
           intros p (k0 & Hk1 & ->). exists k0. split; [lia | reflexivity].
      * intros H. apply Hsep. rewrite Ep.
        apply ForallOrdPairs_snoc; [exact H|].
        eapply Forall_impl; [|exact Hv]. intros q. apply apart_sym.
Qed.

Lemma placeTreesRun_spec env :
  let c := trees_config (config env) in
  let s := placeTreesRun' env in
  (length (placedPositions s) <= trees_count c)%nat /\
  trees (placeTrees' env) = trees env ++ map (mkInstance Tree) (placedPositions s) /\
  (draws env <= draws (placeTrees' env)
   <= draws env + maxAttempts * trees_count c)%nat /\
  Forall (fun p => exists k, (draws env <= k < draws (placeTrees' env))%nat /\
                             p = candidate (trees_maxDistance c) k)
         (placedPositions s) /\
  Separated (minDistance c) (placedPositions s).
Proof.
  intros c s. subst s. unfold placeTrees, placeTreesRun. fold c.
  destruct (placeTreesLoop_spec env (trees_count c)
              {| placedPositions := []; placedTrees := trees env;
                 nextDraw := draws env |})
    as (added & Hp & Ht & Hl & Hk & Hc & Hsep).
  cbv zeta in Hp, Ht, Hk, Hc, Hsep. fold c in Hc, Hsep.
  set (s := placeTreesLoop' env (trees_count c) _) in *.
  cbn [placedPositions placedTrees nextDraw app] in Hp, Ht, Hk, Hc, Hsep.
  cbn [trees draws]. rewrite Ht, Hp.
  split; [exact Hl|]. split; [reflexivity|]. split; [exact Hk|].
  split; [exact Hc|]. rewrite <- Hp. apply Hsep. constructor.
Qed.

(** C2.  Whatever the configuration and the random draws, [placeTrees]
    accepts at most [count] positions, puts one tree at each of them, and
    any two accepted positions are at Euclidean distance at least
    [minDistance]. *)
Theorem placeTrees_count_and_separation env :
  let c := trees_config (config env) in
  let accepted := placedPositions (placeTreesRun' env) in
  (length accepted <= trees_count c)%nat /\
  trees (placeTrees' env) = trees env ++ map (mkInstance Tree) accepted /\
  forall i j p q,
    i <> j -> nth_error accepted i = Some p -> nth_error accepted j = Some q ->
    (Q2R (minDistance c) <= sqrt (Q2R (distanceToSquared p q)))%R.
Proof.
  intros c accepted.
  destruct (placeTreesRun_spec env) as (Hl & Ht & _ & _ & Hsep).
  split; [exact Hl|]. split; [exact Ht|].
  intros i j p q Hij Hi Hj. apply apart_sqrt.
  apply (ForallOrdPairs_nth (apart (minDistance c)) accepted
                            (apart_sym (minDistance c)) Hsep i j p q Hij Hi Hj).
Qed.

End PlacementFacts.

Example sparse_run_accepts_three :
  map (fun p => (Qred (vx p), Qred (vy p), Qred (vz p)))
      (placedPositions
         (placeTreesRun Samples.sampleCos Samples.sampleSin Samples.samplePI
                        Samples.sampleDraws (newEnvironment Samples.sparseConfig)))
  = [(0, 0, 0); (10, 0, 0); (20, 0, 0)].
Proof. vm_compute. reflexivity. Qed.

(** The candidate of the fiftieth attempt is not used even when it is
    valid: the loop leaves with [attempts = maxAttempts] and the iteration is
    skipped. *)
Example fiftieth_attempt_is_skipped :
  let env := newEnvironment Samples.pairConfig in
  let run := placeTreesRun Samples.sampleCos Samples.sampleSin Samples.samplePI
                           Samples.lateDraws env in
  length (placedPositions run) = 1%nat /\ nextDraw run = 51%nat /\
  isValidTreePosition
    (getRandomTerrainPosition Samples.sampleCos Samples.sampleSin Samples.samplePI
                              Samples.lateDraws 40 50)
    (placedPositions run) 5 = true.
Proof. vm_compute. repeat split; reflexivity. Qed.

Example infeasible_run_accepts_one :
  map (fun p => (Qred (vx p), Qred (vy p), Qred (vz p)))
      (placedPositions
         (placeTreesRun Samples.sampleCos Samples.sampleSin Samples.samplePI
                        Samples.sampleDraws (newEnvironment Samples.infeasibleConfig)))
  = [(0, 0, 0)]
  /\ nextDraw
       (placeTreesRun Samples.sampleCos Samples.sampleSin Samples.samplePI
                      Samples.sampleDraws (newEnvironment Samples.infeasibleConfig))
     = 451%nat.
Proof. vm_compute. split; reflexivity. Qed.

(** ** Infeasible densities *)

Lemma same_cell_close a b' (n : Z) :
  Qfloor ((a + 15) / 10) = n -> Qfloor ((b' + 15) / 10) = n ->
  (a - b') * (a - b') < 100.
Proof.
  intros Ha Hb.
  pose proof (Qfloor_le ((a + 15) / 10)) as La.
  pose proof (Qlt_floor ((a + 15) / 10)) as Ua.
  pose proof (Qfloor_le ((b' + 15) / 10)) as Lb.
  pose proof (Qlt_floor ((b' + 15) / 10)) as Ub.
  rewrite Ha in La, Ua. rewrite Hb in Lb, Ub.
  rewrite inject_Z_plus in Ua, Ub. change (inject_Z 1) with 1 in Ua, Ub.
  assert (Ea : a == 10 * ((a + 15) / 10) - 15) by field.
  assert (Eb : b' == 10 * ((b' + 15) / 10) - 15) by field.
  set (u := (a + 15) / 10) in *. set (v := (b' + 15) / 10) in *.
  assert (H1 : -10 < a - b') by lra.
  assert (H2 : a - b' < 10) by lra.
  assert (H : 0 < (10 - (a - b')) * (10 + (a - b')))
    by (apply Qmult_lt_0_compat; lra).
  lra.
Qed.

Lemma same_cell_not_apart p q :
  inSquare 15 p -> inSquare 15 q ->
  gridCell 15 10 p = gridCell 15 10 q -> ~ apart 20 p q.
Proof.
  intros (Hpy & _) (Hqy & _) Hcell Hap. unfold gridCell in Hcell.
  injection Hcell as Hx Hz.
  pose proof (same_cell_close (vx p) (vx q) _ Hx eq_refl) as Dx.
  pose proof (same_cell_close (vz p) (vz q) _ Hz eq_refl) as Dz.
  assert (Hlt : distanceTo_lt p q 20 = true).
  { apply distanceTo_lt_true. split; [reflexivity|].
    unfold distanceToSquared. cbv zeta.
    assert (Dy : (vy p - vy q) * (vy p - vy q) == 0) by (rewrite Hpy, Hqy; ring).
    lra. }
  unfold apart in Hap. congruence.
Qed.

Lemma gridCell_range p :
  inSquare 15 p ->
  In (gridCell 15 10 p)
     [(0, 0); (0, 1); (0, 2); (1, 0); (1, 1); (1, 2); (2, 0); (2, 1); (2, 2)]%Z.
Proof.
  intros (_ & Hx1 & Hx2 & Hz1 & Hz2). unfold gridCell.
  assert (R : forall a, -15 < a -> a < 15 ->
                        (0 <= Qfloor ((a + 15) / 10) <= 2)%Z).
  { intros a H1 H2.
    pose proof (Qfloor_le ((a + 15) / 10)) as L.
    pose proof (Qlt_floor ((a + 15) / 10)) as U.
    rewrite inject_Z_plus in U. change (inject_Z 1) with 1 in U.
    assert (Ea : a == 10 * ((a + 15) / 10) - 15) by field.
    set (u := (a + 15) / 10) in *.
    split.
    - assert (H : inject_Z (-1) < inject_Z (Qfloor u))
        by (change (inject_Z (-1)) with (-1); lra).
      rewrite <- Zlt_Qlt in H. lia.
    - assert (H : inject_Z (Qfloor u) < inject_Z 3)
        by (change (inject_Z 3) with 3; lra).
      rewrite <- Zlt_Qlt in H. lia. }
  pose proof (R (vx p) Hx1 Hx2) as Rx. pose proof (R (vz p) Hz1 Hz2) as Rz.
  set (cx := Qfloor ((vx p + 15) / 10)) in *.
  set (cz := Qfloor ((vz p + 15) / 10)) in *.
  assert (Cx : cx = 0%Z \/ cx = 1%Z \/ cx = 2%Z) by lia.
  assert (Cz : cz = 0%Z \/ cz = 1%Z \/ cz = 2%Z) by lia.
  destruct Cx as [-> | [-> | ->]], Cz as [-> | [-> | ->]]; cbn; tauto.
Qed.

(** Ten positions in the square that bounds the disk of radius 15 cannot be
    pairwise 20 apart: nine squares of side 10 cover it, and two positions in
    one of them are less than 20 apart. *)
Lemma square_infeasible : Infeasible (inSquare 15) 10 20.
Proof.
  intros l Hlen Hreg Hsep.
  assert (Hnd : NoDup (map (gridCell 15 10) l)).
  { clear Hlen. induction Hsep as [|p l Hp Hl IH]; cbn [map].
    - constructor.
    - inversion Hreg as [|? ? Hpr Hlr]; subst. constructor.
      + intros Hin. apply in_map_iff in Hin. destruct Hin as (q & Hq & Hqin).
        rewrite Forall_forall in Hp, Hlr.
        apply (same_cell_not_apart p q Hpr (Hlr q Hqin)); [symmetry; exact Hq|].
        apply Hp. exact Hqin.
      + apply IH. exact Hlr. }
  assert (Hincl : incl (map (gridCell 15 10) l)
                       [(0, 0); (0, 1); (0, 2); (1, 0); (1, 1); (1, 2);
                        (2, 0); (2, 1); (2, 2)]%Z).
  { intros c Hc. apply in_map_iff in Hc. destruct Hc as (p & <- & Hp).
    apply gridCell_range. rewrite Forall_forall in Hreg. apply Hreg. exact Hp. }
  pose proof (NoDup_incl_length Hnd Hincl) as Hle.
  rewrite length_map, Hlen in Hle. cbn in Hle. lia.
Qed.

Lemma inDisk_inSquare radius p : 0 < radius -> inDisk radius p -> inSquare radius p.
Proof.
  intros Hr (Hy & Hd). split; [exact Hy|].
  pose proof (Qsquare_nonneg (vx p)) as Sx.
  pose proof (Qsquare_nonneg (vz p)) as Sz.
  assert (B : forall a, a * a < radius * radius -> - radius < a /\ a < radius).
  { intros a Ha. split.
    - destruct (Qlt_le_dec (- radius) a) as [|Hle]; [assumption|exfalso].
      assert (0 <= (- a - radius) * (- a + radius)) by (apply Qmult_le_0_compat; lra).
      lra.
    - destruct (Qlt_le_dec a radius) as [|Hle]; [assumption|exfalso].
      assert (0 <= (a - radius) * (a + radius)) by (apply Qmult_le_0_compat; lra).
      lra. }
  destruct (B (vx p) ltac:(lra)). destruct (B (vz p) ltac:(lra)). tauto.
Qed.

(** The scenario of the specification: 10 trees, 20 apart, in the disk of
    radius 15. *)
Lemma disk_infeasible : Infeasible (inDisk 15) 10 20.
Proof.
  intros l Hlen Hreg. apply square_infeasible; [exact Hlen|].
  eapply Forall_impl; [|exact Hreg]. intros p. apply inDisk_inSquare. reflexivity.
Qed.

(** ** The whole generation *)

Lemma repeat_step_invariant (body : Env -> Env) (I : Env -> Prop) :
  (forall e, I e -> I (body e)) ->
  forall n e, I e -> I (repeat_step body n e).
Proof.
  intros Hbody. induction n as [|n IH]; intros e He; cbn [repeat_step].
  - exact He.
  - apply IH, Hbody, He.
Qed.

Lemma repeat_step_count (body : Env -> Env) (len : Env -> nat) :
  (forall e, len (body e) = S (len e)) ->
  forall n e, len (repeat_step body n e) = (len e + n)%nat.
Proof.
  intros Hbody. induction n as [|n IH]; intros e; cbn [repeat_step].
  - lia.
  - rewrite IH, Hbody. lia.
Qed.

Lemma getTerrainHeightAt_ext noiseTable e1 e2 x z :
  config e1 = config e2 -> terrain e1 = terrain e2 ->
  getTerrainHeightAt noiseTable e1 x z = getTerrainHeightAt noiseTable e2 x z.
Proof.
  intros Hc Ht. unfold getTerrainHeightAt. rewrite Hc, Ht. reflexivity.
Qed.

Section GenerationFacts.

Variable noiseTable : list Z.
Variables (Math_cos Math_sin : Q -> Q) (Math_PI : Q).
Variable randomPosition : nat -> Q * Q.
Variable randomBlade : nat -> nat -> Q * Q.

Local Abbreviation candidate :=
  (getRandomTerrainPosition Math_cos Math_sin Math_PI randomPosition).
Local Abbreviation placeTreesRun' :=
  (placeTreesRun Math_cos Math_sin Math_PI randomPosition).
Local Abbreviation placeTrees' :=
  (placeTrees Math_cos Math_sin Math_PI randomPosition).
Local Abbreviation grassPatchStep' :=
  (grassPatchStep noiseTable Math_cos Math_sin Math_PI randomPosition randomBlade).
Local Abbreviation flowerStep' :=
  (flowerStep noiseTable Math_cos Math_sin Math_PI randomPosition).
Local Abbreviation rockStep' :=
  (rockStep noiseTable Math_cos Math_sin Math_PI randomPosition).
Local Abbreviation createGrassPatches' :=
  (createGrassPatches noiseTable Math_cos Math_sin Math_PI randomPosition randomBlade).
Local Abbreviation placeFlowers' :=
  (placeFlowers noiseTable Math_cos Math_sin Math_PI randomPosition).
Local Abbreviation placeRocks' :=
  (placeRocks noiseTable Math_cos Math_sin Math_PI randomPosition).
Local Abbreviation init' :=
  (init noiseTable Math_cos Math_sin Math_PI randomPosition randomBlade).
Local Abbreviation height := (getTerrainHeightAt noiseTable).

Lemma liftedBy_ext e0 e offset i :
  sameGround e0 e -> liftedBy noiseTable e offset i -> liftedBy noiseTable e0 offset i.
Proof.
  intros [Hc Ht] H. unfold liftedBy in *.
  rewrite (getTerrainHeightAt_ext noiseTable e0 e) by auto. exact H.
Qed.

(** What the three loops after [placeTrees] do, stated as invariants of
    their bodies relative to the environment [e0] they started from. *)
Lemma grassPatchStep_keeps e0 e :
  sameGround e0 e ->
  Forall (Forall (fun i => kind i = GrassBlade /\ liftedBy noiseTable e0 0 i))
         (grassPatches e) ->
  let e' := grassPatchStep' e in
  sameGround e0 e' /\ trees e' = trees e /\ flowers e' = flowers e /\
  rocks e' = rocks e /\
  length (grassPatches e') = S (length (grassPatches e)) /\
  Forall (Forall (fun i => kind i = GrassBlade /\ liftedBy noiseTable e0 0 i))
         (grassPatches e').
Proof.
  intros Hg Hall e'. subst e'. unfold grassPatchStep, createGrassPatch.
  cbn [config terrain trees flowers rocks grassPatches].
  split; [exact Hg|]. repeat (split; [reflexivity|]). split.
  - rewrite length_app. cbn [length]. lia.
  - apply Forall_app. split; [exact Hall|]. constructor; [|constructor].
    apply Forall_forall. intros i Hi. apply in_map_iff in Hi.
    destruct Hi as (j & <- & _). split; [reflexivity|].
    apply (liftedBy_ext e0 e); [exact Hg|].
    unfold liftedBy, createGrassBlade. cbn [position vx vy vz]. ring.
Qed.

Lemma flowerStep_keeps e0 e :
  sameGround e0 e ->
  Forall (fun i => kind i = Flower /\ liftedBy noiseTable e0 (1 # 10) i) (flowers e) ->
  let e' := flowerStep' e in
  sameGround e0 e' /\ trees e' = trees e /\ grassPatches e' = grassPatches e /\
  rocks e' = rocks e /\
  length (flowers e') = S (length (flowers e)) /\
  Forall (fun i => kind i = Flower /\ liftedBy noiseTable e0 (1 # 10) i) (flowers e').
Proof.
  intros Hg Hall e'. subst e'. unfold flowerStep, createFlower.
  cbn [config terrain trees flowers rocks grassPatches].
  split; [exact Hg|]. repeat (split; [reflexivity|]). split.
  - rewrite length_app. cbn [length]. lia.
  - apply Forall_app. split; [exact Hall|]. constructor; [|constructor].
    split; [reflexivity|]. apply (liftedBy_ext e0 e); [exact Hg|].
    unfold liftedBy. cbn [position vx vy vz]. reflexivity.
Qed.

Lemma rockStep_keeps e0 e :
  sameGround e0 e ->
  Forall (fun i => kind i = Rock /\ liftedBy noiseTable e0 0 i) (rocks e) ->
  let e' := rockStep' e in
  sameGround e0 e' /\ trees e' = trees e /\ grassPatches e' = grassPatches e /\
  flowers e' = flowers e /\
  length (rocks e') = S (length (rocks e)) /\
  Forall (fun i => kind i = Rock /\ liftedBy noiseTable e0 0 i) (rocks e').
Proof.
  intros Hg Hall e'. subst e'. unfold rockStep, createRock.
  cbn [config terrain trees flowers rocks grassPatches].
  split; [exact Hg|]. repeat (split; [reflexivity|]). split.
  - rewrite length_app. cbn [length]. lia.
  - apply Forall_app. split; [exact Hall|]. constructor; [|constructor].
    split; [reflexivity|]. apply (liftedBy_ext e0 e); [exact Hg|].
    unfold liftedBy. cbn [position vx vy vz]. ring.
Qed.

Lemma createGrassPatches_loop e0 n e :
  sameGround e0 e ->
  Forall (Forall (fun i => kind i = GrassBlade /\ liftedBy noiseTable e0 0 i))
         (grassPatches e) ->
  let e' := repeat_step grassPatchStep' n e in
  sameGround e0 e' /\ trees e' = trees e /\ flowers e' = flowers e /\
  rocks e' = rocks e /\
  length (grassPatches e') = (length (grassPatches e) + n)%nat /\
  Forall (Forall (fun i => kind i = GrassBlade /\ liftedBy noiseTable e0 0 i))
         (grassPatches e').
Proof.
  revert e. induction n as [|n IH]; intros e Hg Hall; cbn [repeat_step].
  - cbv zeta. rewrite Nat.add_0_r. tauto.
  - destruct (grassPatchStep_keeps e0 e Hg Hall) as (Hg1 & Ht & Hf & Hr & Hl & Hall1).
    destruct (IH _ Hg1 Hall1) as (Hg2 & Ht2 & Hf2 & Hr2 & Hl2 & Hall2).
    cbv zeta in *. rewrite Ht2, Hf2, Hr2, Hl2, Hl.
    split; [exact Hg2|]. repeat (split; [assumption|]).
    split; [lia | exact Hall2].
Qed.

Lemma placeFlowers_loop e0 n e :
  sameGround e0 e ->
  Forall (fun i => kind i = Flower /\ liftedBy noiseTable e0 (1 # 10) i) (flowers e) ->
  let e' := repeat_step flowerStep' n e in
  sameGround e0 e' /\ trees e' = trees e /\ grassPatches e' = grassPatches e /\
  rocks e' = rocks e /\
  length (flowers e') = (length (flowers e) + n)%nat /\
  Forall (fun i => kind i = Flower /\ liftedBy noiseTable e0 (1 # 10) i) (flowers e').
Proof.
  revert e. induction n as [|n IH]; intros e Hg Hall; cbn [repeat_step].
  - cbv zeta. rewrite Nat.add_0_r. tauto.
  - destruct (flowerStep_keeps e0 e Hg Hall) as (Hg1 & Ht & Hf & Hr & Hl & Hall1).
    destruct (IH _ Hg1 Hall1) as (Hg2 & Ht2 & Hf2 & Hr2 & Hl2 & Hall2).
    cbv zeta in *. rewrite Ht2, Hf2, Hr2, Hl2, Hl.
    split; [exact Hg2|]. repeat (split; [assumption|]).
    split; [lia | exact Hall2].
Qed.

Lemma placeRocks_loop e0 n e :
  sameGround e0 e ->
  Forall (fun i => kind i = Rock /\ liftedBy noiseTable e0 0 i) (rocks e) ->
  let e' := repeat_step rockStep' n e in
  sameGround e0 e' /\ trees e' = trees e /\ grassPatches e' = grassPatches e /\
  flowers e' = flowers e /\
  length (rocks e') = (length (rocks e) + n)%nat /\
  Forall (fun i => kind i = Rock /\ liftedBy noiseTable e0 0 i) (rocks e').
Proof.
  revert e. induction n as [|n IH]; intros e Hg Hall; cbn [repeat_step].
  - cbv zeta. rewrite Nat.add_0_r. tauto.
  - destruct (rockStep_keeps e0 e Hg Hall) as (Hg1 & Ht & Hf & Hr & Hl & Hall1).
    destruct (IH _ Hg1 Hall1) as (Hg2 & Ht2 & Hf2 & Hr2 & Hl2 & Hall2).
    cbv zeta in *. rewrite Ht2, Hf2, Hr2, Hl2, Hl.
    split; [exact Hg2|]. repeat (split; [assumption|]).
    split; [lia | exact Hall2].
Qed.

(** The whole of [init] on a fresh environment: the terrain is in place,
    the trees are those of the run of [placeTrees], and the three later
    loops each add their configured number of objects, every one of them
    placed relative to the terrain as its constructor says. *)
Lemma init_spec (c : Config) :
  let e1 := generateTerrain noiseTable (newEnvironment c) in
  let final := init' (newEnvironment c) in
  sameGround e1 final /\
  trees final = map (mkInstance Tree) (placedPositions (placeTreesRun' e1)) /\
  length (grassPatches final) = patchCount (grass_config c) /\
  length (flowers final) = flowers_count (flowers_config c) /\
  length (rocks final) = rocks_count (rocks_config c) /\
  Forall (Forall (fun i => kind i = GrassBlade /\ liftedBy noiseTable final 0 i))
         (grassPatches final) /\
  Forall (fun i => kind i = Flower /\ liftedBy noiseTable final (1 # 10) i)
         (flowers final) /\
  Forall (fun i => kind i = Rock /\ liftedBy noiseTable final 0 i) (rocks final).
Proof.
  intros e1 final.
  set (e2 := placeTrees' e1).
  assert (G2 : sameGround e1 e2) by (split; reflexivity).
  destruct (placeTreesRun_spec Math_cos Math_sin Math_PI randomPosition e1)
    as (_ & Htrees & _). cbv zeta in Htrees. fold e2 in Htrees.
  change (trees e1) with (@nil Instance) in Htrees. cbn [app] in Htrees.
  destruct (createGrassPatches_loop e1 (patchCount (grass_config (config e2))) e2 G2
              ltac:(constructor))
    as (G3 & T3 & F3 & R3 & L3 & A3). cbv zeta in G3, T3, F3, R3, L3, A3.
  fold (createGrassPatches' e2) in G3, T3, F3, R3, L3, A3.
  set (e3 := createGrassPatches' e2) in *.
  destruct (placeFlowers_loop e1 (flowers_count (flowers_config (config e3))) e3 G3
              ltac:(rewrite F3; constructor))
    as (G4 & T4 & P4 & R4 & L4 & A4). cbv zeta in G4, T4, P4, R4, L4, A4.
  fold (placeFlowers' e3) in G4, T4, P4, R4, L4, A4.
  set (e4 := placeFlowers' e3) in *.
  destruct (placeRocks_loop e1 (rocks_count (rocks_config (config e4))) e4 G4
              ltac:(rewrite R4, R3; constructor))
    as (G5 & T5 & P5 & F5 & L5 & A5). cbv zeta in G5, T5, P5, F5, L5, A5.
  fold (placeRocks' e4) in G5, T5, P5, F5, L5, A5.
  change (placeRocks' e4) with final in G5, T5, P5, F5, L5, A5.
  assert (Gsym : sameGround final e1) by (destruct G5; split; congruence).
  split; [exact G5|].
  split; [rewrite T5, T4, T3; exact Htrees|].
  split; [rewrite P5, P4, L3; destruct G2 as [-> _]; reflexivity|].
  split; [rewrite F5, L4, F3; destruct G3 as [-> _]; reflexivity|].
  split; [rewrite L5, R4, R3; destruct G4 as [-> _]; reflexivity|].
  split; [|split].
  - rewrite P5, P4. eapply Forall_impl; [|exact A3]. intros patch.
    apply Forall_impl. intros i [Hk Hl]. split; [exact Hk|].
    apply (liftedBy_ext final e1); assumption.
  - rewrite F5. eapply Forall_impl; [|exact A4].
    intros i [Hk Hl]. split; [exact Hk|]. apply (liftedBy_ext final e1); assumption.
  - eapply Forall_impl; [|exact A5].
    intros i [Hk Hl]. split; [exact Hk|]. apply (liftedBy_ext final e1); assumption.
Qed.

(** With a cosine and a sine that stay within [-1, 1] and a random
    number in [0, 1), every candidate lies in the square that bounds the
    disk of radius [maxDistance]. *)
Lemma candidate_inSquare maxDistance k :
  (forall a, -1 <= Math_cos a /\ Math_cos a <= 1) ->
  (forall a, -1 <= Math_sin a /\ Math_sin a <= 1) ->
  0 <= snd (randomPosition k) -> snd (randomPosition k) < 1 ->
  0 < maxDistance ->
  inSquare maxDistance (candidate maxDistance k).
Proof.
  intros Hcos Hsin Hr0 Hr1 Hmax. unfold getRandomTerrainPosition, inSquare.
  cbn [vx vy vz].
  set (angle := fst (randomPosition k) * Math_PI * 2).
  set (r := snd (randomPosition k)) in *.
  destruct (Hcos angle) as [C0 C1]. destruct (Hsin angle) as [S0 S1].
  assert (D0 : 0 <= r * maxDistance) by (apply Qmult_le_0_compat; lra).
  assert (D1 : 0 < (1 - r) * maxDistance) by (apply Qmult_lt_0_compat; lra).
  assert (X0 : 0 <= (1 - Math_cos angle) * (r * maxDistance))
    by (apply Qmult_le_0_compat; lra).
  assert (X1 : 0 <= (Math_cos angle + 1) * (r * maxDistance))
    by (apply Qmult_le_0_compat; lra).
  assert (Z0 : 0 <= (1 - Math_sin angle) * (r * maxDistance))
    by (apply Qmult_le_0_compat; lra).
  assert (Z1 : 0 <= (Math_sin angle + 1) * (r * maxDistance))
    by (apply Qmult_le_0_compat; lra).
  split; [reflexivity|]. repeat split; lra.
Qed.

(** Every tree stands at [y = 0], the [y] of the candidate position. *)
Lemma trees_at_zero (c : Config) :
  Forall (fun i => kind i = Tree /\ vy (position i) = 0)
         (trees (init' (newEnvironment c))).
Proof.
  destruct (init_spec c) as (_ & -> & _).
  destruct (placeTreesRun_spec Math_cos Math_sin Math_PI randomPosition
              (generateTerrain noiseTable (newEnvironment c)))
    as (_ & _ & _ & Hc & _). cbv zeta in Hc.
  apply Forall_map. eapply Forall_impl; [|exact Hc].
  intros p (k & _ & ->). split; reflexivity.
Qed.


(** C5.  When no [count] positions of the region the candidates are drawn
    from can be pairwise [minDistance] apart, [placeTrees] still returns:
    it makes at most [count * 50] draws and accepts fewer than [count]
    positions, and the rest of the generation runs to its end, with the
    terrain in place and every later loop adding its configured number of
    objects. *)
Theorem infeasible_density_degrades (c : Config) (region : Vector3 -> Prop) :
  (forall k, region (candidate (trees_maxDistance (trees_config c)) k)) ->
  Infeasible region (trees_count (trees_config c)) (minDistance (trees_config c)) ->
  let e1 := generateTerrain noiseTable (newEnvironment c) in
  let run := placeTreesRun' e1 in
  let final := init' (newEnvironment c) in
  (nextDraw run - draws e1 <= trees_count (trees_config c) * 50)%nat /\
  (length (placedPositions run) < trees_count (trees_config c))%nat /\
  length (trees final) = length (placedPositions run) /\
  terrain final <> None /\
  length (grassPatches final) = patchCount (grass_config c) /\
  length (flowers final) = flowers_count (flowers_config c) /\
  length (rocks final) = rocks_count (rocks_config c).
Proof.
  intros Hregion Hinf e1 run final.
  destruct (placeTreesRun_spec Math_cos Math_sin Math_PI randomPosition e1)
    as (Hlen & _ & Hdraws & Hcand & Hsep).
  cbv zeta in Hlen, Hdraws, Hcand, Hsep. fold run in Hlen, Hcand, Hsep.
  change (draws (placeTrees' e1)) with (nextDraw run) in Hdraws.
  change (trees_config (config e1)) with (trees_config c) in *.
  destruct (init_spec c) as ([_ Hterr] & Htrees & Hg & Hf & Hr & _).
  fold final e1 in Hterr, Htrees, Hg, Hf, Hr. fold run in Htrees.
  split; [unfold maxAttempts in Hdraws; lia|]. split.
  - destruct (Nat.eq_dec (length (placedPositions run)) (trees_count (trees_config c)))
      as [Heq | Hne]; [exfalso | lia].
    apply (Hinf (placedPositions run) Heq); [|exact Hsep].
    eapply Forall_impl; [|exact Hcand]. intros p (k & _ & ->). apply Hregion.
  - split; [rewrite Htrees; apply length_map|].
    split; [rewrite Hterr; discriminate|]. tauto.
Qed.

End GenerationFacts.

(** The scenario of the specification, for any runtime whose cosine and sine
    stay within [-1, 1] and whose random numbers lie in [0, 1): of 10 trees
    requested 20 apart within distance 15, fewer than 10 are placed. *)
Lemma scenario_places_fewer_than_ten
      (Math_cos Math_sin : Q -> Q) (Math_PI : Q) (randomPosition : nat -> Q * Q)
      (env : Env) :
  trees_config (config env)
  = {| trees_count := 10; minDistance := 20; trees_maxDistance := 15 |} ->
  (forall a, -1 <= Math_cos a /\ Math_cos a <= 1) ->
  (forall a, -1 <= Math_sin a /\ Math_sin a <= 1) ->
  (forall k, 0 <= snd (randomPosition k) /\ snd (randomPosition k) < 1) ->
  (length (placedPositions
             (placeTreesRun Math_cos Math_sin Math_PI randomPosition env)) < 10)%nat.
Proof.
  intros Hc Hcos Hsin Hrand.
  destruct (placeTreesRun_spec Math_cos Math_sin Math_PI randomPosition env)
    as (Hlen & _ & _ & Hcand & Hsep).
  cbv zeta in Hlen, Hcand, Hsep. rewrite Hc in Hlen, Hcand, Hsep.
  cbn [trees_count minDistance trees_maxDistance] in Hlen, Hcand, Hsep.
  set (run := placeTreesRun Math_cos Math_sin Math_PI randomPosition env) in *.
  destruct (Nat.eq_dec (length (placedPositions run)) 10) as [Heq | Hne];
    [exfalso | lia].
  apply (square_infeasible (placedPositions run) Heq); [|exact Hsep].
  eapply Forall_impl; [|exact Hcand]. intros p (k & _ & ->).
  apply candidate_inSquare; try assumption; try apply Hrand. reflexivity.
Qed.

Lemma infeasible_density_degrades_witness :
  let c := Samples.infeasibleConfig in
  let e1 := generateTerrain Samples.identityTable (newEnvironment c) in
  let run := placeTreesRun Samples.sampleCos Samples.sampleSin Samples.samplePI
                           Samples.constantDraws e1 in
  let final := init Samples.identityTable Samples.sampleCos Samples.sampleSin
                    Samples.samplePI Samples.constantDraws Samples.sampleBlades
                    (newEnvironment c) in
  (nextDraw run - draws e1 <= 10 * 50)%nat /\
  (length (placedPositions run) < 10)%nat /\
  length (trees final) = length (placedPositions run) /\
  terrain final <> None /\
  length (grassPatches final) = 300%nat /\
  length (flowers final) = 200%nat /\
  length (rocks final) = 80%nat.
Proof.
  apply (infeasible_density_degrades
           Samples.identityTable Samples.sampleCos Samples.sampleSin Samples.samplePI
           Samples.constantDraws Samples.sampleBlades Samples.infeasibleConfig
           (inSquare 15)).
  - intros k. vm_compute. repeat split; reflexivity.
  - exact square_infeasible.
Defined.

Lemma placeTrees_count_and_separation_witness :
  let accepted :=
    placedPositions
      (placeTreesRun Samples.sampleCos Samples.sampleSin Samples.samplePI
                     Samples.sampleDraws (newEnvironment Samples.sparseConfig)) in
  (length accepted <= 3)%nat /\
  forall p q, nth_error accepted 0 = Some p -> nth_error accepted 2 = Some q ->
              (Q2R 5 <= sqrt (Q2R (distanceToSquared p q)))%R.
Proof.
  destruct (placeTrees_count_and_separation
              Samples.sampleCos Samples.sampleSin Samples.samplePI
              Samples.sampleDraws (newEnvironment Samples.sparseConfig))
    as (Hlen & _ & Hsep).
  split; [exact Hlen|].
  intros p q Hp Hq. apply (Hsep 0%nat 2%nat p q); [discriminate | exact Hp | exact Hq].
Defined.


(** The second tree of the sample run stands at [(10, 0, 0)], where the
    terrain is 4 high. *)
Example tree_not_on_terrain :
  let env := generateTerrain Samples.identityTable
                             (newEnvironment Samples.sparseConfig) in
  exists t,
    nth_error (trees (placeTrees Samples.sampleCos Samples.sampleSin Samples.samplePI
                                 Samples.sampleDraws env)) 1 = Some t /\
    vx (position t) == 10 /\ vy (position t) == 0 /\ vz (position t) == 0 /\
    getTerrainHeightAt Samples.identityTable env (vx (position t)) (vz (position t))
    == 4.
Proof.
  eexists. split; [vm_compute; reflexivity|].
  vm_compute. repeat split; reflexivity.
Qed.

(** ** The day cycle *)

Section LightingFacts.
Import Lighting.

Lemma calculateLightingForTime_blend hour :
  calculateLightingForTime hour
  = (let '(beforeTime, afterTime) := findBracket hour times (6, 22)%Z in
     blend (timeData_get timeData beforeTime) (timeData_get timeData afterTime)
           (Math_max 0 (Math_min 1 ((hour - inject_Z beforeTime)
                                    / (inject_Z afterTime - inject_Z beforeTime))))).
Proof.
  unfold calculateLightingForTime. cbn [times timeData map fst nth length Nat.sub].
  destruct (findBracket hour [6; 12; 14; 18; 22]%Z (6, 22)%Z). reflexivity.
Qed.

(** The interval the loop selects, or the default pair 6 and 22 when the
    hour is outside every interval. *)
Lemma findBracket_cases hour :
  (hour < 6 /\ findBracket hour times (6, 22)%Z = (6, 22)%Z) \/
  (6 <= hour /\ hour <= 12 /\ findBracket hour times (6, 22)%Z = (6, 12)%Z) \/
  (12 < hour /\ hour <= 14 /\ findBracket hour times (6, 22)%Z = (12, 14)%Z) \/
  (14 < hour /\ hour <= 18 /\ findBracket hour times (6, 22)%Z = (14, 18)%Z) \/
  (18 < hour /\ hour <= 22 /\ findBracket hour times (6, 22)%Z = (18, 22)%Z) \/
  (22 < hour /\ findBracket hour times (6, 22)%Z = (6, 22)%Z).
Proof.
  cbn [times timeData map fst findBracket].
  change (inject_Z 6) with 6. change (inject_Z 12) with 12.
  change (inject_Z 14) with 14. change (inject_Z 18) with 18.
  change (inject_Z 22) with 22.
  destruct (Qle_bool 6 hour) eqn:H6; destruct (Qle_bool hour 12) eqn:H12;
    destruct (Qle_bool 12 hour) eqn:H12'; destruct (Qle_bool hour 14) eqn:H14;
    destruct (Qle_bool 14 hour) eqn:H14'; destruct (Qle_bool hour 18) eqn:H18;
    destruct (Qle_bool 18 hour) eqn:H18'; destruct (Qle_bool hour 22) eqn:H22;
    cbn [andb];
    repeat match goal with
           | H : Qle_bool _ _ = true |- _ => apply Qle_bool_iff in H
           | H : Qle_bool ?a ?b = false |- _ =>
               assert (b < a)
                 by (apply Qnot_le_lt; intros Hle; apply Qle_bool_iff in Hle;
                     congruence);
               clear H
           end;
    try (exfalso; lra);
    first [ left; split; [lra | reflexivity]
          | right; left; repeat split; (lra || reflexivity)
          | right; right; left; repeat split; (lra || reflexivity)
          | right; right; right; left; repeat split; (lra || reflexivity)
          | right; right; right; right; left; repeat split; (lra || reflexivity)
          | right; right; right; right; right; split; [lra | reflexivity] ].
Qed.

(** Both hours used are keys of [timeData]. *)
Lemma bracket_in_times hour :
  In (fst (findBracket hour times (6, 22)%Z)) times /\
  In (snd (findBracket hour times (6, 22)%Z)) times.
Proof.
  destruct (findBracket_cases hour)
    as [[_ E] | [(_ & _ & E) | [(_ & _ & E) | [(_ & _ & E)
       | [(_ & _ & E) | [_ E]]]]]]; rewrite E; cbn; tauto.
Qed.

Lemma Qle_bool_Proper a a' b' b'' :
  a == a' -> b' == b'' -> Qle_bool a b' = Qle_bool a' b''.
Proof.
  intros Ha Hb.
  destruct (Qle_bool a b') eqn:E1, (Qle_bool a' b'') eqn:E2; try reflexivity.
  - apply Qle_bool_iff in E1. rewrite Ha, Hb in E1. apply Qle_bool_iff in E1.
    congruence.
  - apply Qle_bool_iff in E2. rewrite <- Ha, <- Hb in E2. apply Qle_bool_iff in E2.
    congruence.
Qed.

Lemma toInt_Proper q q' : q == q' -> toInt q = toInt q'.
Proof.
  intros H. unfold toInt.
  rewrite (Qle_bool_Proper 0 0 q q') by (reflexivity || exact H).
  destruct (Qle_bool 0 q').
  - apply Qfloor_comp, H.
  - apply Qceiling_comp, H.
Qed.

Lemma interpolateColor_Proper c1 c2 f f' :
  f == f' -> interpolateColor c1 c2 f = interpolateColor c1 c2 f'.
Proof.
  intros H. unfold interpolateColor, Color_getHex, Color_lerp. cbn [r g b].
  f_equal; [f_equal|]; f_equal; apply toInt_Proper; rewrite H; reflexivity.
Qed.

Lemma blend_Proper before after f f' :
  f == f' -> sameLighting (blend before after f) (blend before after f').
Proof.
  intros H. unfold sameLighting, blend, lerp.
  cbn [sunColor sunIntensity ambientColor ambientIntensity skyColor groundColor
       hemisphereIntensity].
  repeat split; try (apply interpolateColor_Proper; exact H); rewrite H; reflexivity.
Qed.

Lemma sameLighting_refl d : sameLighting d d.
Proof. unfold sameLighting. repeat split; reflexivity. Qed.

Lemma sameLighting_sym d1 d2 : sameLighting d1 d2 -> sameLighting d2 d1.
Proof.
  unfold sameLighting. intros (H1 & H2 & H3 & H4 & H5 & H6 & H7).
  repeat split; symmetry; assumption.
Qed.

Lemma sameLighting_trans d1 d2 d3 :
  sameLighting d1 d2 -> sameLighting d2 d3 -> sameLighting d1 d3.
Proof.
  unfold sameLighting.
  intros (H1 & H2 & H3 & H4 & H5 & H6 & H7) (K1 & K2 & K3 & K4 & K5 & K6 & K7).
  repeat split; etransitivity; eassumption.
Qed.

(** [Math.max(0, Math.min(1, factor))] is [factor] clamped to [0, 1]. *)
Lemma clamp_cases f :
  (f <= 0 -> Math_max 0 (Math_min 1 f) == 0) /\
  (0 <= f -> f <= 1 -> Math_max 0 (Math_min 1 f) == f) /\
  (1 <= f -> Math_max 0 (Math_min 1 f) == 1).
Proof.
  unfold Math_max, Math_min.
  destruct (Qle_bool 1 f) eqn:E1.
  - apply Qle_bool_iff in E1. change (Qle_bool 0 1) with true. cbv iota.
    split; [|split]; intros; first [lra | exfalso; lra].
  - assert (H1 : f < 1)
      by (apply Qnot_le_lt; intros Hle; apply Qle_bool_iff in Hle; congruence).
    destruct (Qle_bool 0 f) eqn:E0.
    + apply Qle_bool_iff in E0. split; [|split]; intros; first [lra | exfalso; lra].
    + assert (H0 : f < 0)
        by (apply Qnot_le_lt; intros Hle; apply Qle_bool_iff in Hle; congruence).
      split; [|split]; intros; first [lra | exfalso; lra].
Qed.

Lemma factor_equation (t0 t1 : Z) h :
  (t0 < t1)%Z ->
  h - inject_Z t0
  == (h - inject_Z t0) / (inject_Z t1 - inject_Z t0) * (inject_Z t1 - inject_Z t0).
Proof.
  intros Hlt. field. intros H. rewrite Zlt_Qlt in Hlt.
  revert Hlt H. generalize (inject_Z t0) (inject_Z t1). intros a c Hlt H. lra.
Qed.

Lemma factor_range (t0 t1 : Z) h :
  (t0 < t1)%Z ->
  let f := (h - inject_Z t0) / (inject_Z t1 - inject_Z t0) in
  (inject_Z t0 <= h -> 0 <= f) /\ (h <= inject_Z t1 -> f <= 1) /\
  (h <= inject_Z t0 -> f <= 0) /\ (inject_Z t1 <= h -> 1 <= f).
Proof.
  intros Hlt. rewrite Zlt_Qlt in Hlt. revert Hlt.
  generalize (inject_Z t0) (inject_Z t1). intros a c Hlt. cbv zeta.
  repeat split; intros H.
  - apply Qle_shift_div_l; lra.
  - apply Qle_shift_div_r; lra.
  - apply Qle_shift_div_r; lra.
  - apply Qle_shift_div_l; lra.
Qed.

(** The clamped factor of the source, for an hour inside, below and above
    the interval of the two keyframes used. *)
Lemma clampedFactor_cases (t0 t1 : Z) h :
  (t0 < t1)%Z ->
  let f := (h - inject_Z t0) / (inject_Z t1 - inject_Z t0) in
  (inject_Z t0 <= h -> h <= inject_Z t1 -> Math_max 0 (Math_min 1 f) == f) /\
  (h <= inject_Z t0 -> Math_max 0 (Math_min 1 f) == 0) /\
  (inject_Z t1 <= h -> Math_max 0 (Math_min 1 f) == 1).
Proof.
  intros Hlt f. destruct (factor_range t0 t1 h Hlt) as (F0 & F1 & F2 & F3).
  fold f in F0, F1, F2, F3. destruct (clamp_cases f) as (C0 & C1 & C2).
  repeat split; intros; auto.
Qed.

Lemma blend_factor_zero (t0 t1 : Z) h before after :
  (t0 < t1)%Z -> h == inject_Z t0 ->
  sameLighting (blend before after ((h - inject_Z t0) / (inject_Z t1 - inject_Z t0)))
               (blend before after 0).
Proof.
  intros Hlt Hh. apply blend_Proper.
  destruct (factor_range t0 t1 h Hlt) as (F0 & _ & F2 & _). cbv zeta in F0, F2.
  apply Qle_antisym; [apply F2 | apply F0]; rewrite Hh; apply Qle_refl.
Qed.

Ltac keyframes :=
  change (timeData_get timeData 6) with dawn;
  change (timeData_get timeData 12) with noon;
  change (timeData_get timeData 14) with afternoon;
  change (timeData_get timeData 18) with sunset;
  change (timeData_get timeData 22) with night.

Ltac numerals H :=
  change (inject_Z 6) with 6 in H; change (inject_Z 12) with 12 in H;
  change (inject_Z 14) with 14 in H; change (inject_Z 18) with 18 in H;
  change (inject_Z 22) with 22 in H.

Ltac compare_blends := vm_compute; repeat split; reflexivity.

(** Below the first keyframe. *)
Lemma calculateLightingForTime_low h :
  h <= 6 -> sameLighting (calculateLightingForTime h) dawn.
Proof.
  intros Hh. rewrite calculateLightingForTime_blend.
  destruct (findBracket_cases h)
    as [[H E] | [(H1 & H2 & E) | [(H1 & H2 & E) | [(H1 & H2 & E)
       | [(H1 & H2 & E) | [H E]]]]]]; rewrite E; try (exfalso; lra); keyframes.
  - destruct (clampedFactor_cases 6 22 h eq_refl) as (_ & C & _). cbv zeta in C.
    eapply sameLighting_trans; [apply blend_Proper, C; exact Hh|]. compare_blends.
  - destruct (clampedFactor_cases 6 12 h eq_refl) as (_ & C & _). cbv zeta in C.
    eapply sameLighting_trans; [apply blend_Proper, C; exact Hh|]. compare_blends.
Qed.

(** Above the last keyframe. *)
Lemma calculateLightingForTime_high h :
  22 <= h -> sameLighting (calculateLightingForTime h) night.
Proof.
  intros Hh. rewrite calculateLightingForTime_blend.
  destruct (findBracket_cases h)
    as [[H E] | [(H1 & H2 & E) | [(H1 & H2 & E) | [(H1 & H2 & E)
       | [(H1 & H2 & E) | [H E]]]]]]; rewrite E; try (exfalso; lra); keyframes.
  - destruct (clampedFactor_cases 18 22 h eq_refl) as (_ & _ & C). cbv zeta in C.
    eapply sameLighting_trans; [apply blend_Proper, C; exact Hh|]. compare_blends.
  - destruct (clampedFactor_cases 6 22 h eq_refl) as (_ & _ & C). cbv zeta in C.
    eapply sameLighting_trans; [apply blend_Proper, C; exact Hh|]. compare_blends.
Qed.

Ltac same_bracket h :=
  match goal with
  | |- sameLighting
         (blend ?d0 ?d1 (Math_max 0 (Math_min 1 ((h - inject_Z ?b)
                                                 / (inject_Z ?a - inject_Z ?b)))))
         (blend ?d0 ?d1 _) =>
      let C := fresh "C" in
      apply blend_Proper;
      destruct (clampedFactor_cases b a h eq_refl) as (C & _ & _);
      cbv zeta in C; apply C;
      [change (inject_Z b) with (Qmake b 1) | change (inject_Z a) with (Qmake a 1)];
      lra
  end.

Ltac previous_bracket h :=
  match goal with
  | |- sameLighting
         (blend _ _ (Math_max 0 (Math_min 1 ((h - inject_Z ?b)
                                             / (inject_Z ?a - inject_Z ?b)))))
         (blend _ _ ((h - inject_Z ?t0) / (inject_Z ?t1 - inject_Z ?t0))) =>
      let C := fresh "C" in
      destruct (clampedFactor_cases b a h eq_refl) as (_ & _ & C);
      cbv zeta in C;
      eapply sameLighting_trans;
      [ apply blend_Proper, C; change (inject_Z a) with (Qmake a 1); lra |];
      eapply sameLighting_trans;
      [| apply sameLighting_sym, (blend_factor_zero t0 t1 h);
         [reflexivity | change (inject_Z t0) with (Qmake t0 1); lra] ];
      compare_blends
  end.

(** Between two consecutive keyframes the result is their blend at the
    fraction of the interval that has passed. *)
Lemma calculateLightingForTime_between h t0 d0 t1 d1 :
  In ((t0, d0), (t1, d1)) (adjacent timeData) ->
  inject_Z t0 <= h -> h <= inject_Z t1 ->
  sameLighting (calculateLightingForTime h)
               (blend d0 d1 ((h - inject_Z t0) / (inject_Z t1 - inject_Z t0))).
Proof.
  intros Hin Hlo Hhi. cbn [adjacent timeData In] in Hin.
  rewrite calculateLightingForTime_blend.
  destruct Hin as [Hin | [Hin | [Hin | [Hin | []]]]];
    injection Hin as <- <- <- <-; numerals Hlo; numerals Hhi;
    destruct (findBracket_cases h)
      as [[H E] | [(H1 & H2 & E) | [(H1 & H2 & E) | [(H1 & H2 & E)
         | [(H1 & H2 & E) | [H E]]]]]]; rewrite E; try (exfalso; lra); keyframes;
    first [same_bracket h | previous_bracket h].
Qed.

(** The shape of the result over the day: constant up to hour 6, linear
    on each interval between consecutive keyframes, constant from hour 22
    on.  On an interval, [f] is the fraction of the interval that has
    passed. *)
Lemma intensities_cases h :
  let d := calculateLightingForTime h in
  (h <= 6 /\ sameLighting d dawn) \/
  (22 <= h /\ sameLighting d night) \/
  (exists t0 d0 t1 d1 f,
      In ((t0, d0), (t1, d1)) (adjacent timeData) /\
      inject_Z t0 <= h /\ h <= inject_Z t1 /\
      h - inject_Z t0 == f * (inject_Z t1 - inject_Z t0) /\
      sunIntensity d == lerp (sunIntensity d0) (sunIntensity d1) f /\
      ambientIntensity d == lerp (ambientIntensity d0) (ambientIntensity d1) f /\
      hemisphereIntensity d
      == lerp (hemisphereIntensity d0) (hemisphereIntensity d1) f).
Proof.
  intros d. subst d.
  assert (Hint : forall t0 d0 t1 d1,
             In ((t0, d0), (t1, d1)) (adjacent timeData) -> (t0 < t1)%Z ->
             inject_Z t0 <= h -> h <= inject_Z t1 ->
             exists t0' d0' t1' d1' f,
               In ((t0', d0'), (t1', d1')) (adjacent timeData) /\
               inject_Z t0' <= h /\ h <= inject_Z t1' /\
               h - inject_Z t0' == f * (inject_Z t1' - inject_Z t0') /\
               sunIntensity (calculateLightingForTime h)
               == lerp (sunIntensity d0') (sunIntensity d1') f /\
               ambientIntensity (calculateLightingForTime h)
               == lerp (ambientIntensity d0') (ambientIntensity d1') f /\
               hemisphereIntensity (calculateLightingForTime h)
               == lerp (hemisphereIntensity d0') (hemisphereIntensity d1') f).
  { intros t0 d0 t1 d1 Hin Hlt Hlo Hhi.
    exists t0, d0, t1, d1, ((h - inject_Z t0) / (inject_Z t1 - inject_Z t0)).
    destruct (calculateLightingForTime_between h t0 d0 t1 d1 Hin Hlo Hhi)
      as (_ & Hs & _ & Ha & _ & _ & Hh).
    repeat (split; [assumption|]).
    split; [apply factor_equation; exact Hlt|].
    split; [exact Hs|]. split; [exact Ha | exact Hh]. }
  destruct (Qlt_le_dec 6 h) as [H6|H6];
    [|left; split; [exact H6 | apply calculateLightingForTime_low; exact H6]].
  destruct (Qlt_le_dec h 22) as [H22|H22];
    [|right; left; split; [exact H22 | apply calculateLightingForTime_high; exact H22]].
  right. right.
  destruct (Qlt_le_dec h 12) as [H12|H12];
    [apply (Hint 6%Z dawn 12%Z noon); [cbn; tauto | reflexivity | | ];
     [change (inject_Z 6) with 6 | change (inject_Z 12) with 12]; lra|].
  destruct (Qlt_le_dec h 14) as [H14|H14];
    [apply (Hint 12%Z noon 14%Z afternoon); [cbn; tauto | reflexivity | | ];
     [change (inject_Z 12) with 12 | change (inject_Z 14) with 14]; lra|].
  destruct (Qlt_le_dec h 18) as [H18|H18];
    [apply (Hint 14%Z afternoon 18%Z sunset); [cbn; tauto | reflexivity | | ];
     [change (inject_Z 14) with 14 | change (inject_Z 18) with 18]; lra|].
  apply (Hint 18%Z sunset 22%Z night); [cbn; tauto | reflexivity | | ];
    [change (inject_Z 18) with 18 | change (inject_Z 22) with 22]; lra.
Qed.

Ltac region C :=
  let t0 := fresh "t0" in let d0 := fresh "d0" in
  let t1 := fresh "t1" in let d1 := fresh "d1" in
  let f := fresh "f" in let Hin := fresh "Hin" in
  let Hlo := fresh "Hlo" in let Hhi := fresh "Hhi" in
  let Hf := fresh "Hf" in let Hs := fresh "Hs" in
  let Ha := fresh "Ha" in let Hm := fresh "Hm" in
  destruct C as [(Hhi & _ & Hs & _ & Ha & _ & _ & Hm)
                | [(Hlo & _ & Hs & _ & Ha & _ & _ & Hm)
                  | (t0 & d0 & t1 & d1 & f & Hin & Hlo & Hhi & Hf & Hs & Ha & Hm)]];
  [ | | cbn [adjacent timeData In] in Hin;
        destruct Hin as [Hin | [Hin | [Hin | [Hin | []]]]];
        injection Hin as <- <- <- <-;
        numerals Hlo; numerals Hhi; numerals Hf ];
  unfold lerp in Hs, Ha, Hm;
  cbn [sunIntensity ambientIntensity hemisphereIntensity
       dawn noon afternoon sunset night] in Hs, Ha, Hm.

Ltac lipschitz_by_regions :=
  let h1 := fresh "h1" in let h2 := fresh "h2" in
  let C1 := fresh "C" in let C2 := fresh "C" in
  intros h1 h2; cbv beta;
  pose proof (intensities_cases h1) as C1;
  pose proof (intensities_cases h2) as C2;
  cbv zeta in C1, C2; unfold sameLighting in C1, C2;
  set (s1 := sunIntensity (calculateLightingForTime h1)) in *;
  set (a1 := ambientIntensity (calculateLightingForTime h1)) in *;
  set (m1 := hemisphereIntensity (calculateLightingForTime h1)) in *;
  set (s2 := sunIntensity (calculateLightingForTime h2)) in *;
  set (a2 := ambientIntensity (calculateLightingForTime h2)) in *;
  set (m2 := hemisphereIntensity (calculateLightingForTime h2)) in *;
  region C1; region C2;
  apply Qabs_Qle_condition;
  (destruct (Qlt_le_dec (h1 - h2) 0);
   [rewrite (Qabs_neg (h1 - h2)) by lra | rewrite (Qabs_pos (h1 - h2)) by lra]);
  split; lra.

(** The intensities change by at most 1/8 per hour over the whole line of
    hours, the keyframe hours included. *)
Lemma sunIntensity_lipschitz :
  lipschitz (1 # 8) (fun h => sunIntensity (calculateLightingForTime h)).
Proof. lipschitz_by_regions. Qed.

Lemma ambientIntensity_lipschitz :
  lipschitz (1 # 8) (fun h => ambientIntensity (calculateLightingForTime h)).
Proof. lipschitz_by_regions. Qed.

Lemma hemisphereIntensity_lipschitz :
  lipschitz (1 # 8) (fun h => hemisphereIntensity (calculateLightingForTime h)).
Proof. lipschitz_by_regions. Qed.

(** At a keyframe hour the result holds that keyframe's values. *)
Lemma calculateLightingForTime_keyframe t d :
  In (t, d) timeData -> sameLighting (calculateLightingForTime (inject_Z t)) d.
Proof.
  cbn [timeData In].
  intros [H | [H | [H | [H | [H | []]]]]]; injection H as <- <-; compare_blends.
Qed.




(** Three hours after the last keyframe and five before the first, the
    result is the first keyframe itself, not a mix of the two. *)
Example hour_one_is_dawn :
  let d := calculateLightingForTime 1 in
  sunColor d = 0xFFB366%Z /\ Qred (sunIntensity d) = 3 # 10 /\
  Qred (sunIntensity (calculateLightingForTime 23)) = 1 # 10.
Proof. vm_compute. repeat split; reflexivity. Qed.

Example hour_nine :
  let d := calculateLightingForTime 9 in
  sunColor d = 0xFFD9B2%Z /\ Qred (sunIntensity d) = 13 # 20.
Proof. vm_compute. split; reflexivity. Qed.

End LightingFacts.

(** ** Displacement of meshes *)

Import GeometryUtils.

Lemma nmul_NaN_r a : nmul a NaN = NaN.
Proof. destruct a; reflexivity. Qed.

Lemma nmul_NaN_l a : nmul NaN a = NaN.
Proof. destruct a; reflexivity. Qed.

Lemma num_eq_refl a : num_eq a a.
Proof. destruct a; cbn; [reflexivity | reflexivity | exact I]. Qed.

Lemma forEachVertex_app body (k : nat) :
  forall before rest,
    length before = (3 * k)%nat ->
    forEachVertex body (before ++ rest)
    = forEachVertex body before ++ forEachVertex body rest.
Proof.
  induction k as [|k IH]; intros before rest Hlen.
  - destruct before; [reflexivity | discriminate].
  - destruct before as [|x [|y [|z before]]]; cbn [length] in Hlen; try lia.
    cbn [app forEachVertex]. destruct (body x y z) as [[x' y'] z'].
    cbn [app]. rewrite (IH before rest) by lia. reflexivity.
Qed.

Lemma forEachVertex_length body positions :
  length (forEachVertex body positions) = length positions.
Proof.
  remember (length positions) as n eqn:Hn. revert positions Hn.
  induction n as [n IH] using lt_wf_ind. intros positions Hn. subst n.
  destruct positions as [|x [|y [|z rest]]]; try reflexivity.
  cbn [forEachVertex]. destruct (body x y z) as [[x' y'] z']. cbn [length].
  do 3 f_equal. apply (IH (length rest)); [cbn [length]; lia | reflexivity].
Qed.

(** A loop body that maps every finite vertex to the same values leaves a
    buffer of finite numbers as it was. *)
Lemma forEachVertex_identity body :
  (forall x y z,
      let '(x', y', z') := body (Fin x) (Fin y) (Fin z) in
      num_eq x' (Fin x) /\ num_eq y' (Fin y) /\ num_eq z' (Fin z)) ->
  forall coordinates : list Q,
    buffer_eq (forEachVertex body (map Fin coordinates)) (map Fin coordinates).
Proof.
  intros Hbody coordinates.
  remember (length coordinates) as n eqn:Hn. revert coordinates Hn.
  induction n as [n IH] using lt_wf_ind. intros coordinates Hn. subst n.
  destruct coordinates as [|x [|y [|z rest]]]; cbn [map forEachVertex].
  - constructor.
  - constructor; [apply num_eq_refl | constructor].
  - constructor; [apply num_eq_refl|]. constructor; [apply num_eq_refl | constructor].
  - specialize (Hbody x y z). destruct (body (Fin x) (Fin y) (Fin z)) as [[x' y'] z'].
    destruct Hbody as (Hx & Hy & Hz).
    repeat (constructor; [assumption|]).
    apply (IH (length rest)); [cbn [length]; lia | reflexivity].
Qed.

Lemma Forall2_nth {A B : Type} (R : A -> B -> Prop) l l' (n : nat) d d' :
  Forall2 R l l' -> (n < length l)%nat -> R (nth n l d) (nth n l' d').
Proof.
  intros H. revert n. induction H as [|a b' l l' Hab Hl IH]; intros n Hn.
  - cbn in Hn. lia.
  - destruct n as [|n]; cbn [nth]; [exact Hab|]. apply IH. cbn in Hn. lia.
Qed.

Section DisplacementFacts.

Variable noiseTable : list Z.
Variable Math_sqrt : num -> num.
Variable Math_atan2 : num -> num -> num.
Variables Math_acos Math_sin Math_cos : num -> num.

Local Abbreviation sphereVertex' :=
  (sphereVertex noiseTable Math_sqrt Math_atan2 Math_acos Math_sin Math_cos).
Local Abbreviation addSphereIrregularities' :=
  (addSphereIrregularities noiseTable Math_sqrt Math_atan2 Math_acos Math_sin Math_cos).
Local Abbreviation rockVertex' := (rockVertex noiseTable Math_sqrt).
Local Abbreviation addRockIrregularities' :=
  (addRockIrregularities noiseTable Math_sqrt).
Local Abbreviation trunkVertex' := (trunkVertex noiseTable Math_sqrt Math_atan2).
Local Abbreviation addTrunkIrregularities' :=
  (addTrunkIrregularities noiseTable Math_sqrt Math_atan2).
Local Abbreviation coneVertex' := (coneVertex noiseTable Math_sqrt Math_atan2).
Local Abbreviation addConeIrregularities' :=
  (addConeIrregularities noiseTable Math_sqrt Math_atan2).

Lemma squares_of_zero x y z :
  x == 0 -> y == 0 -> z == 0 -> x * x + y * y + z * z == 0.
Proof. intros -> -> ->. reflexivity. Qed.

(** The sphere routine at a vertex at the origin: [radius] is 0,
    [y / radius] is [0 / 0], and the NaN runs through [Math.acos],
    [Math.sin] and [Math.cos] into all three coordinates. *)
Lemma sphereVertex_origin strength x y z :
  sqrt_of_zero Math_sqrt ->
  NaN_to_NaN Math_acos -> NaN_to_NaN Math_sin -> NaN_to_NaN Math_cos ->
  x == 0 -> y == 0 -> z == 0 ->
  sphereVertex' strength (Fin x) (Fin y) (Fin z) = (NaN, NaN, NaN).
Proof.
  intros Hsqrt Hacos Hsin Hcos Hx Hy Hz. unfold sphereVertex. cbv zeta.
  cbn [nmul nadd].
  destruct (Hsqrt _ (squares_of_zero x y z Hx Hy Hz)) as (r & -> & Hr).
  assert (Hdiv : ndiv (Fin y) (Fin r) = NaN).
  { cbn [ndiv]. apply Qeq_bool_iff in Hr, Hy. rewrite Hr, Hy. reflexivity. }
  rewrite Hdiv, Hacos, Hsin, Hcos.
  rewrite !nmul_NaN_r, !nmul_NaN_l. reflexivity.
Qed.

(** The rock routine at a vertex at the origin: [length > 0] is false and
    the vertex is left as it was. *)
Lemma rockVertex_origin irregularity x y z :
  sqrt_of_zero Math_sqrt ->
  x == 0 -> y == 0 -> z == 0 ->
  rockVertex' irregularity (Fin x) (Fin y) (Fin z) = (Fin x, Fin y, Fin z).
Proof.
  intros Hsqrt Hx Hy Hz. unfold rockVertex. cbv zeta.
  cbn [nmul nadd].
  destruct (Hsqrt _ (squares_of_zero x y z Hx Hy Hz)) as (r & -> & Hr).
  cbn [ngt]. assert (Hgt : Qltb 0 r = false) by (apply Qltb_ge; lra).
  rewrite Hgt. reflexivity.
Qed.

(** The rock routine with [irregularity = 0]: every finite vertex keeps
    its values, whatever [Math.sqrt] returns. *)
Lemma rockVertex_zero_irregularity x y z :
  let '(x', y', z') := rockVertex' (Fin 0) (Fin x) (Fin y) (Fin z) in
  num_eq x' (Fin x) /\ num_eq y' (Fin y) /\ num_eq z' (Fin z).
Proof.
  unfold rockVertex. cbv zeta. cbn [nmul nadd noise3D_num].
  destruct (Math_sqrt (Fin (x * x + y * y + z * z))) as [l | s |]; cbn [ngt].
  - destruct (Qltb 0 l) eqn:Hl.
    + apply Qltb_lt in Hl. assert (Hne : ~ l == 0) by lra.
      cbn [ndiv]. destruct (Qeq_bool l 0) eqn:E;
        [apply Qeq_bool_iff in E; contradiction|].
      cbn [nmul nadd num_eq]. repeat split; ring.
    + cbn [num_eq]. repeat split; reflexivity.
  - destruct s; cbn [negb].
    + cbn [num_eq]. repeat split; reflexivity.
    + cbn [ndiv nmul nadd num_eq]. repeat split; ring.
  - cbn [num_eq]. repeat split; reflexivity.
Qed.

(** The trunk routine with [irregularity = 0] and a height that is not
    zero: every finite vertex keeps its values. *)
Lemma trunkVertex_zero_irregularity height x y z :
  finite_atan2 Math_atan2 -> ~ height == 0 ->
  let '(x', y', z') := trunkVertex' (Fin height) (Fin 0) (Fin x) (Fin y) (Fin z) in
  num_eq x' (Fin x) /\ num_eq y' (Fin y) /\ num_eq z' (Fin z).
Proof.
  intros Hatan Hh. unfold trunkVertex. cbv zeta.
  destruct (Hatan z x) as (a & ->).
  cbn [ndiv nadd nmul nsub nopp noise_num].
  change (Qeq_bool 2 0) with false. cbv iota. cbn [nadd ndiv].
  destruct (Qeq_bool height 0) eqn:E; [apply Qeq_bool_iff in E; contradiction|].
  cbn [nmul nadd nsub nopp num_eq]. repeat split; try reflexivity; ring.
Qed.

(** The cone routine with [irregularity = 0] and a height that is not
    zero: every finite vertex keeps its values. *)
Lemma coneVertex_zero_irregularity height x y z :
  finite_atan2 Math_atan2 -> ~ height == 0 ->
  let '(x', y', z') := coneVertex' (Fin height) (Fin 0) (Fin x) (Fin y) (Fin z) in
  num_eq x' (Fin x) /\ num_eq y' (Fin y) /\ num_eq z' (Fin z).
Proof.
  intros Hatan Hh. unfold coneVertex. cbv zeta.
  destruct (Hatan z x) as (a & ->).
  cbn [ndiv nadd nmul nsub nopp noise_num].
  change (Qeq_bool 2 0) with false. cbv iota. cbn [nadd ndiv].
  destruct (Qeq_bool height 0) eqn:E; [apply Qeq_bool_iff in E; contradiction|].
  cbn [ngt]. destruct (Qltb _ _); cbn [nmul nadd nsub nopp num_eq];
    repeat split; try reflexivity; ring.
Qed.

(** The trunk and the cone routine at a vertex on the axis, the origin in
    particular: [x] and [z] are multiplied by a finite factor and stay 0. *)
Lemma trunkVertex_axis height irregularity x y z :
  finite_atan2 Math_atan2 -> ~ height == 0 -> x == 0 -> z == 0 ->
  let '(x', y', z') :=
    trunkVertex' (Fin height) (Fin irregularity) (Fin x) (Fin y) (Fin z) in
  num_eq x' (Fin x) /\ num_eq y' (Fin y) /\ num_eq z' (Fin z).
Proof.
  intros Hatan Hh Hx Hz. unfold trunkVertex. cbv zeta.
  destruct (Hatan z x) as (a & ->).
  cbn [ndiv nadd nmul nsub nopp noise_num].
  change (Qeq_bool 2 0) with false. cbv iota. cbn [nadd ndiv].
  destruct (Qeq_bool height 0) eqn:E; [apply Qeq_bool_iff in E; contradiction|].
  cbn [nmul nadd nsub nopp num_eq].
  split; [|split]; [rewrite Hx; ring | reflexivity | rewrite Hz; ring].
Qed.

Lemma coneVertex_axis height irregularity x y z :
  finite_atan2 Math_atan2 -> ~ height == 0 -> x == 0 -> z == 0 ->
  let '(x', y', z') :=
    coneVertex' (Fin height) (Fin irregularity) (Fin x) (Fin y) (Fin z) in
  num_eq x' (Fin x) /\ num_eq y' (Fin y) /\ num_eq z' (Fin z).
Proof.
  intros Hatan Hh Hx Hz. unfold coneVertex. cbv zeta.
  destruct (Hatan z x) as (a & ->).
  cbn [ndiv nadd nmul nsub nopp noise_num].
  change (Qeq_bool 2 0) with false. cbv iota. cbn [nadd ndiv].
  destruct (Qeq_bool height 0) eqn:E; [apply Qeq_bool_iff in E; contradiction|].
  cbn [ngt]. destruct (Qltb _ _); cbn [nmul nadd nsub nopp num_eq].
  - split; [|split]; [rewrite Hx; ring | reflexivity | rewrite Hz; ring].
  - split; [|split]; reflexivity.
Qed.

(** With [irregularity = 0] the trunk, cone and rock routines return a
    buffer of finite numbers as it was. *)
Lemma addTrunkIrregularities_zero height (coordinates : list Q) :
  finite_atan2 Math_atan2 -> ~ height == 0 ->
  buffer_eq (addTrunkIrregularities' (map Fin coordinates) (Fin height) (Fin 0))
            (map Fin coordinates).
Proof.
  intros Hatan Hh. apply forEachVertex_identity. intros x y z.
  apply trunkVertex_zero_irregularity; assumption.
Qed.

Lemma addConeIrregularities_zero height (coordinates : list Q) :
  finite_atan2 Math_atan2 -> ~ height == 0 ->
  buffer_eq (addConeIrregularities' (map Fin coordinates) (Fin height) (Fin 0))
            (map Fin coordinates).
Proof.
  intros Hatan Hh. apply forEachVertex_identity. intros x y z.
  apply coneVertex_zero_irregularity; assumption.
Qed.

Lemma addRockIrregularities_zero (coordinates : list Q) :
  buffer_eq (addRockIrregularities' (map Fin coordinates) (Fin 0))
            (map Fin coordinates).
Proof.
  apply forEachVertex_identity. intros x y z. apply rockVertex_zero_irregularity.
Qed.

(** The rock routine leaves a vertex at the origin as it was. *)
Lemma addRockIrregularities_origin irregularity before after (k : nat) x y z :
  sqrt_of_zero Math_sqrt ->
  length before = (3 * k)%nat -> x == 0 -> y == 0 -> z == 0 ->
  addRockIrregularities' (before ++ Fin x :: Fin y :: Fin z :: after) irregularity
  = addRockIrregularities' before irregularity
    ++ Fin x :: Fin y :: Fin z :: addRockIrregularities' after irregularity.
Proof.
  intros Hsqrt Hlen Hx Hy Hz. unfold addRockIrregularities.
  rewrite (forEachVertex_app _ k) by exact Hlen. cbn [forEachVertex].
  rewrite rockVertex_origin by assumption. reflexivity.
Qed.

(** C8 fails on the sphere routine: a vertex at the origin, wherever it is
    in the buffer and whatever the strength, comes out as three NaN. *)
Theorem addSphereIrregularities_origin_NaN strength before after (k : nat) x y z :
  sqrt_of_zero Math_sqrt ->
  NaN_to_NaN Math_acos -> NaN_to_NaN Math_sin -> NaN_to_NaN Math_cos ->
  length before = (3 * k)%nat -> x == 0 -> y == 0 -> z == 0 ->
  addSphereIrregularities' (before ++ Fin x :: Fin y :: Fin z :: after) strength
  = addSphereIrregularities' before strength
    ++ NaN :: NaN :: NaN :: addSphereIrregularities' after strength.
Proof.
  intros Hsqrt Hacos Hsin Hcos Hlen Hx Hy Hz. unfold addSphereIrregularities.
  rewrite (forEachVertex_app _ k) by exact Hlen. cbn [forEachVertex].
  rewrite sphereVertex_origin by assumption. reflexivity.
Qed.

(** C9 fails on the sphere routine: with strength 0 a buffer that holds a
    vertex at the origin does not come back with the same values. *)
Theorem addSphereIrregularities_zero_not_identity before after (k : nat) x y z :
  sqrt_of_zero Math_sqrt ->
  NaN_to_NaN Math_acos -> NaN_to_NaN Math_sin -> NaN_to_NaN Math_cos ->
  length before = (3 * k)%nat -> x == 0 -> y == 0 -> z == 0 ->
  ~ buffer_eq
      (addSphereIrregularities' (before ++ Fin x :: Fin y :: Fin z :: after) (Fin 0))
      (before ++ Fin x :: Fin y :: Fin z :: after).
Proof.
  intros Hsqrt Hacos Hsin Hcos Hlen Hx Hy Hz Heq.
  assert (Hout : addSphereIrregularities'
                   (before ++ Fin x :: Fin y :: Fin z :: after) (Fin 0)
                 = addSphereIrregularities' before (Fin 0)
                   ++ NaN :: NaN :: NaN :: addSphereIrregularities' after (Fin 0)).
  { unfold addSphereIrregularities.
    rewrite (forEachVertex_app _ k) by exact Hlen. cbn [forEachVertex].
    rewrite sphereVertex_origin by assumption. reflexivity. }
  rewrite Hout in Heq.
  assert (Hb : length (addSphereIrregularities' before (Fin 0)) = length before)
    by apply forEachVertex_length.
  pose proof (Forall2_nth num_eq _ _ (length before) NaN NaN Heq) as Hn.
  rewrite length_app in Hn. cbn [length] in Hn. specialize (Hn ltac:(lia)).
  rewrite app_nth2 in Hn by lia. rewrite Hb, Nat.sub_diag in Hn.
  rewrite app_nth2 in Hn by lia. rewrite Nat.sub_diag in Hn.
  exact Hn.
Qed.

End DisplacementFacts.

Lemma sampleSqrt_of_zero : sqrt_of_zero Samples.sampleSqrt.
Proof.
  intros q Hq. exists 0. unfold Samples.sampleSqrt.
  assert (H1 : Qltb q 0 = false) by (apply Qltb_ge; lra).
  assert (H2 : Qeq_bool q 0 = true) by (apply Qeq_bool_iff; exact Hq).
  rewrite H1, H2. split; reflexivity.
Qed.

Lemma addSphereIrregularities_origin_NaN_witness :
  addSphereIrregularities Samples.identityTable Samples.sampleSqrt Samples.sampleAtan2
                          Samples.sampleAcosNum Samples.sampleSinNum Samples.sampleCosNum
                          [Fin 1; Fin 0; Fin 0; Fin 0; Fin 0; Fin 0] (Fin (3 # 10))
  = addSphereIrregularities Samples.identityTable Samples.sampleSqrt Samples.sampleAtan2
                            Samples.sampleAcosNum Samples.sampleSinNum
                            Samples.sampleCosNum [Fin 1; Fin 0; Fin 0] (Fin (3 # 10))
    ++ [NaN; NaN; NaN].
Proof.
  apply (addSphereIrregularities_origin_NaN
           Samples.identityTable Samples.sampleSqrt Samples.sampleAtan2
           Samples.sampleAcosNum Samples.sampleSinNum Samples.sampleCosNum
           (Fin (3 # 10)) [Fin 1; Fin 0; Fin 0] [] 1 0 0 0);
    first [exact sampleSqrt_of_zero | reflexivity].
Defined.

Lemma addSphereIrregularities_zero_not_identity_witness :
  ~ buffer_eq
      (addSphereIrregularities Samples.identityTable Samples.sampleSqrt
                               Samples.sampleAtan2 Samples.sampleAcosNum
                               Samples.sampleSinNum Samples.sampleCosNum
                               [Fin 0; Fin 0; Fin 0] (Fin 0))
      [Fin 0; Fin 0; Fin 0].
Proof.
  apply (addSphereIrregularities_zero_not_identity
           Samples.identityTable Samples.sampleSqrt Samples.sampleAtan2
           Samples.sampleAcosNum Samples.sampleSinNum Samples.sampleCosNum
           [] [] 0 0 0 0);
    first [exact sampleSqrt_of_zero | reflexivity].
Defined.

(** The two routines side by side on the one-vertex buffer [0, 0, 0]. *)
Example origin_vertex_sphere_and_rock :
  map isNaN
      (addSphereIrregularities Samples.identityTable Samples.sampleSqrt
                               Samples.sampleAtan2 Samples.sampleAcosNum
                               Samples.sampleSinNum Samples.sampleCosNum
                               [Fin 0; Fin 0; Fin 0] (Fin (3 # 10)))
  = [true; true; true] /\
  addRockIrregularities Samples.identityTable Samples.sampleSqrt
                        [Fin 0; Fin 0; Fin 0] (Fin (3 # 10))
  = [Fin 0; Fin 0; Fin 0].
Proof. vm_compute. split; reflexivity. Qed.

(** * Properties of the other helpers *)

Import MathUtils THREE GeometryUtils.

(** ** One-dimensional noise *)

Lemma grad1D_bound hash a A : - A <= a -> a <= A -> - A <= Noise1D.grad1D hash a <= A.
Proof.
  intros Hl Hu. unfold Noise1D.grad1D.
  destruct (Z.land hash 1 =? 0)%Z; split; lra.
Qed.

(** X1.  [noise1D] stays within [-1/2, 1/2], half the interval its documentation
    gives, for every table and every argument, and it is 0 at every
    integer. *)
Theorem noise1D_range noiseTable x :
  - (1 # 2) <= Noise1D.noise1D noiseTable x <= 1 # 2 /\
  forall n : Z, Noise1D.noise1D noiseTable (inject_Z n) == 0.
Proof.
  split.
  - unfold Noise1D.noise1D.
    destruct (frac_bounds x) as [H0 H1].
    set (t := frac x) in *.
    assert (Hf0 := fade_nonneg t H0 (Qlt_le_weak _ _ H1)).
    assert (Hf1 := fade_le_1 t H0 (Qlt_le_weak _ _ H1)).
    assert (Hb := fade_balance t H0 (Qlt_le_weak _ _ H1)).
    destruct (grad1D_bound (table_get noiseTable (cell x)) t t) as [Ha Ha']; try lra.
    destruct (grad1D_bound (table_get noiseTable (cell x + 1)) (t - 1) (1 - t))
      as [Hb1 Hb2]; try lra.
    assert (E : lerp t (1 - t) (fade t) == t + fade t * (1 - 2 * t))
      by (unfold lerp; ring).
    assert (E' : lerp (- t) (- (1 - t)) (fade t) == - (t + fade t * (1 - 2 * t)))
      by (unfold lerp; ring).
    split.
    + apply Qle_trans with (lerp (- t) (- (1 - t)) (fade t)).
      * rewrite E'. lra.
      * apply lerp_mono; assumption.
    + apply Qle_trans with (lerp t (1 - t) (fade t)).
      * apply lerp_mono; assumption.
      * rewrite E. lra.
  - intro n. unfold Noise1D.noise1D.
    assert (E := frac_integer n).
    assert (Ef : fade (frac (inject_Z n)) == 0) by (rewrite E; reflexivity).
    unfold lerp. rewrite Ef.
    set (gb := Noise1D.grad1D _ (_ - 1)).
    unfold Noise1D.grad1D.
    destruct (Z.land _ 1 =? 0)%Z; lra.
Qed.

(** ** Clamping and interpolation *)

Lemma Qeq_bool_false x y : ~ x == y -> Qeq_bool x y = false.
Proof.
  intro H. destruct (Qeq_bool x y) eqn:E; [|reflexivity].
  apply Qeq_bool_iff in E. contradiction.
Qed.

Lemma Qeq_bool_true x y : x == y -> Qeq_bool x y = true.
Proof. intro H. apply Qeq_bool_iff. exact H. Qed.

Lemma ndiv_finite x y : ~ y == 0 -> ndiv (Fin x) (Fin y) = Fin (x / y).
Proof. intro H. unfold ndiv. rewrite (Qeq_bool_false _ _ H). reflexivity. Qed.

Lemma Qltb_cases x y : (Qltb x y = true /\ x < y) \/ (Qltb x y = false /\ y <= x).
Proof.
  destruct (Qltb x y) eqn:E.
  - left. split; [reflexivity|]. apply Qltb_lt. exact E.
  - right. split; [reflexivity|]. apply Qltb_ge. exact E.
Qed.

Lemma clamp_finite value min max :
  BasicMath.clamp (Fin value) (Fin min) (Fin max)
  = Fin (if Qltb (if Qltb value max then value else max) min
         then min else (if Qltb value max then value else max)).
Proof.
  unfold BasicMath.clamp, BasicMath.Math_min, BasicMath.Math_max, ngt.
  destruct (Qltb value max); destruct (Qltb _ min); reflexivity.
Qed.

Lemma clamp_spec value min max :
  exists r, BasicMath.clamp (Fin value) (Fin min) (Fin max) = Fin r /\
    min <= r /\
    (min <= max -> r <= max) /\
    (min <= value -> value <= max -> r == value) /\
    (value <= min -> r == min) /\
    (min <= max -> max <= value -> r == max) /\
    (max < min -> r == min).
Proof.
  rewrite clamp_finite. eexists. split; [reflexivity|].
  destruct (Qltb_cases value max) as [[-> H1]|[-> H1]];
    match goal with |- context [Qltb ?a min] =>
      destruct (Qltb_cases a min) as [[-> H2]|[-> H2]] end;
    repeat split; intros; lra.
Qed.

Lemma clamp01_finite t :
  exists r, BasicMath.clamp01 (Fin t) = Fin r /\ 0 <= r <= 1 /\
    (t <= 0 -> r == 0) /\ (1 <= t -> r == 1) /\ (0 <= t -> t <= 1 -> r == t).
Proof.
  unfold BasicMath.clamp01.
  destruct (clamp_spec t 0 1) as (r & E & H0 & H1 & H2 & H3 & H4 & _).
  exists r. split; [exact E|]. repeat split; try assumption.
  - apply H1. lra.
  - intro. apply H4; lra.
Qed.

Lemma smoothstep_polynomial t : 0 <= t -> t <= 1 -> 0 <= t * t * (3 - 2 * t) <= 1.
Proof.
  intros H0 H1.
  assert (Hs := Qsquare_nonneg t).
  assert (Hs' := Qsquare_nonneg (1 - t)).
  assert (P1 : 0 <= t * t * (3 - 2 * t)) by (apply Qmult_le_0_compat; lra).
  assert (P2 : 0 <= (1 - t) * (1 - t) * (1 + 2 * t)) by (apply Qmult_le_0_compat; lra).
  assert (E : 1 - t * t * (3 - 2 * t) == (1 - t) * (1 - t) * (1 + 2 * t)) by ring.
  split; lra.
Qed.

Lemma smoothstep_polynomial_mono s t :
  0 <= s -> s <= t -> t <= 1 -> s * s * (3 - 2 * s) <= t * t * (3 - 2 * t).
Proof.
  intros H0 Hst H1.
  assert (E : t * t * (3 - 2 * t) - s * s * (3 - 2 * s)
              == (t - s) * (2 * (t * (1 - t)) + 2 * (s * (1 - s))
                            + t * (1 - s) + s * (1 - t))) by ring.
  assert (A1 : 0 <= t * (1 - t)) by (apply Qmult_le_0_compat; lra).
  assert (A2 : 0 <= s * (1 - s)) by (apply Qmult_le_0_compat; lra).
  assert (A3 : 0 <= t * (1 - s)) by (apply Qmult_le_0_compat; lra).
  assert (A4 : 0 <= s * (1 - t)) by (apply Qmult_le_0_compat; lra).
  assert (P : 0 <= (t - s) * (2 * (t * (1 - t)) + 2 * (s * (1 - s))
                            + t * (1 - s) + s * (1 - t)))
    by (apply Qmult_le_0_compat; lra).
  lra.
Qed.

Lemma smoothstep_finite edge0 edge1 x :
  edge0 < edge1 ->
  exists t, BasicMath.clamp01 ((Fin x - Fin edge0) / (Fin edge1 - Fin edge0))%num = Fin t /\
    0 <= t <= 1 /\ (x <= edge0 -> t == 0) /\ (edge1 <= x -> t == 1) /\
    (edge0 <= x -> x <= edge1 -> t == (x - edge0) / (edge1 - edge0)).
Proof.
  intro H. cbn [nsub nadd nopp].
  rewrite ndiv_finite by lra.
  set (f := (x + - edge0) / (edge1 + - edge0)).
  assert (Ef : x - edge0 == f * (edge1 - edge0)) by (unfold f; field; lra).
  assert (Ef' : f == (x - edge0) / (edge1 - edge0))
    by (unfold f; field; lra).
  destruct (clamp01_finite f) as (t & E & Ht & Hlo & Hhi & Hmid).
  exists t. split; [exact E|]. split; [exact Ht|].
  assert (Hpos : 0 < edge1 - edge0) by lra.
  repeat split.
  - intro Hx. apply Hlo.
    destruct (Qlt_le_dec 0 f) as [Hf|Hf]; [|exact Hf].
    assert (0 < f * (edge1 - edge0)) by (apply Qmult_lt_0_compat; assumption).
    lra.
  - intro Hx. apply Hhi.
    destruct (Qlt_le_dec f 1) as [Hf|Hf]; [|exact Hf].
    assert (0 < (1 - f) * (edge1 - edge0)) by (apply Qmult_lt_0_compat; lra).
    assert (E1 : (1 - f) * (edge1 - edge0) == (edge1 - edge0) - f * (edge1 - edge0))
      by ring.
    lra.
  - intros Hx0 Hx1. rewrite <- Ef'. apply Hmid.
    + destruct (Qlt_le_dec f 0) as [Hf|Hf]; [|exact Hf].
      assert (0 < (- f) * (edge1 - edge0)) by (apply Qmult_lt_0_compat; lra).
      assert (E1 : (- f) * (edge1 - edge0) == - (f * (edge1 - edge0))) by ring.
      lra.
    + destruct (Qlt_le_dec 1 f) as [Hf|Hf]; [|exact Hf].
      assert (0 < (f - 1) * (edge1 - edge0)) by (apply Qmult_lt_0_compat; lra).
      assert (E1 : (f - 1) * (edge1 - edge0) == f * (edge1 - edge0) - (edge1 - edge0))
        by ring.
      lra.
Qed.

(** X2.  [clamp] on finite numbers: with [min <= max] the result lies between
    the bounds and is the value itself when the value does; with
    [min > max] the result is [min] whatever the value; a NaN value is
    not clamped. *)
Theorem clamp_between_bounds value min max :
  (exists r, BasicMath.clamp (Fin value) (Fin min) (Fin max) = Fin r /\
     min <= r /\
     (min <= max -> r <= max) /\
     (min <= value -> value <= max -> r == value) /\
     (max < min -> r == min)) /\
  BasicMath.clamp NaN (Fin min) (Fin max) = NaN.
Proof.
  split; [|reflexivity].
  destruct (clamp_spec value min max) as (r & E & H0 & H1 & H2 & H3 & H4 & H5).
  exists r. repeat split; assumption.
Qed.

(** X3.  [smoothstep] and [smootherstep] with [edge0 < edge1] return a finite
    number between 0 and 1, which is 0 up to [edge0] and 1 from [edge1] on;
    [smoothstep] never decreases when [x] grows. *)
Theorem smoothstep_between_edges edge0 edge1 x :
  edge0 < edge1 ->
  (exists r, BasicMath.smoothstep (Fin edge0) (Fin edge1) (Fin x) = Fin r /\
     0 <= r <= 1 /\ (x <= edge0 -> r == 0) /\ (edge1 <= x -> r == 1) /\
     forall x' r', x <= x' ->
       BasicMath.smoothstep (Fin edge0) (Fin edge1) (Fin x') = Fin r' -> r <= r') /\
  (exists r, BasicMath.smootherstep (Fin edge0) (Fin edge1) (Fin x) = Fin r /\
     0 <= r <= 1 /\ (x <= edge0 -> r == 0) /\ (edge1 <= x -> r == 1)).
Proof.
  intro H.
  destruct (smoothstep_finite edge0 edge1 x H) as (t & E & [Ht0 Ht1] & Hlo & Hhi & Hmid).
  split.
  - unfold BasicMath.smoothstep. rewrite E. cbn [nmul nsub nadd nopp].
    eexists. split; [reflexivity|].
    assert (P := smoothstep_polynomial t Ht0 Ht1).
    assert (Ep : t * t * (3 + - (2 * t)) == t * t * (3 - 2 * t)) by ring.
    split; [rewrite Ep; exact P|].
    split; [intro Hx; rewrite (Hlo Hx); reflexivity|].
    split; [intro Hx; rewrite (Hhi Hx); reflexivity|].
    intros x' r' Hxx' E'.
    destruct (smoothstep_finite edge0 edge1 x' H)
      as (t' & Et' & [Ht0' Ht1'] & Hlo' & Hhi' & Hmid').
    cbn [nsub nadd nopp] in Et'. rewrite Et' in E'.
    cbn [nmul nsub nadd nopp] in E'.
    injection E' as <-.
    assert (Hmono : t <= t').
    { destruct (Qlt_le_dec x edge0) as [Ha|Ha].
      - rewrite (Hlo (Qlt_le_weak _ _ Ha)). exact Ht0'.
      - destruct (Qlt_le_dec edge1 x') as [Hb|Hb].
        + rewrite (Hhi' (Qlt_le_weak _ _ Hb)). exact Ht1.
        + rewrite Hmid by lra. rewrite Hmid' by lra.
          unfold Qdiv. apply Qmult_le_compat_r; [lra|].
          apply Qlt_le_weak, Qinv_lt_0_compat. lra. }
    assert (M := smoothstep_polynomial_mono t t' Ht0 Hmono Ht1').
    assert (Ep' : t' * t' * (3 + - (2 * t')) == t' * t' * (3 - 2 * t')) by ring.
    rewrite Ep, Ep'. exact M.
  - unfold BasicMath.smootherstep. rewrite E. cbn [nmul nsub nadd nopp].
    eexists. split; [reflexivity|].
    assert (Ef : t * t * t * (t * (t * 6 + - (15)) + 10) == fade t)
      by (unfold fade; ring).
    split; [rewrite Ef; split; [apply fade_nonneg|apply fade_le_1]; assumption|].
    split; [intro Hx; rewrite (Hlo Hx); reflexivity|].
    intro Hx; rewrite (Hhi Hx); reflexivity.
Qed.

Lemma smoothstep_between_edges_witness :
  (exists r, BasicMath.smoothstep (Fin 0) (Fin 2) (Fin 1) = Fin r /\
     0 <= r <= 1 /\ (1 <= 0 -> r == 0) /\ (2 <= 1 -> r == 1) /\
     forall x' r', 1 <= x' ->
       BasicMath.smoothstep (Fin 0) (Fin 2) (Fin x') = Fin r' -> r <= r') /\
  (exists r, BasicMath.smootherstep (Fin 0) (Fin 2) (Fin 1) = Fin r /\
     0 <= r <= 1 /\ (1 <= 0 -> r == 0) /\ (2 <= 1 -> r == 1)).
Proof. apply (smoothstep_between_edges 0 2 1). reflexivity. Defined.

(** X4.  With equal edges [smoothstep] and [smootherstep] divide by zero: below
    the edge the result is 0, above it 1, and at the edge itself NaN. *)
Theorem smoothstep_equal_edges edge x :
  (x < edge -> num_eq (BasicMath.smoothstep (Fin edge) (Fin edge) (Fin x)) (Fin 0) /\
               num_eq (BasicMath.smootherstep (Fin edge) (Fin edge) (Fin x)) (Fin 0)) /\
  (edge < x -> num_eq (BasicMath.smoothstep (Fin edge) (Fin edge) (Fin x)) (Fin 1) /\
               num_eq (BasicMath.smootherstep (Fin edge) (Fin edge) (Fin x)) (Fin 1)) /\
  (x == edge -> BasicMath.smoothstep (Fin edge) (Fin edge) (Fin x) = NaN /\
                BasicMath.smootherstep (Fin edge) (Fin edge) (Fin x) = NaN).
Proof.
  assert (Ez : Qeq_bool (edge + - edge) 0 = true) by (apply Qeq_bool_true; ring).
  unfold BasicMath.smoothstep, BasicMath.smootherstep.
  cbn [nsub nadd nopp]. unfold ndiv. rewrite Ez.
  repeat split.
  - assert (En : Qeq_bool (x + - edge) 0 = false) by (apply Qeq_bool_false; lra).
    rewrite En. assert (Es : isNegative (x + - edge) = true)
      by (apply Qltb_lt; lra).
    rewrite Es. vm_compute. reflexivity.
  - assert (En : Qeq_bool (x + - edge) 0 = false) by (apply Qeq_bool_false; lra).
    rewrite En. assert (Es : isNegative (x + - edge) = true)
      by (apply Qltb_lt; lra).
    rewrite Es. vm_compute. reflexivity.
  - assert (En : Qeq_bool (x + - edge) 0 = false) by (apply Qeq_bool_false; lra).
    rewrite En. assert (Es : isNegative (x + - edge) = false)
      by (apply Qltb_ge; lra).
    rewrite Es. vm_compute. reflexivity.
  - assert (En : Qeq_bool (x + - edge) 0 = false) by (apply Qeq_bool_false; lra).
    rewrite En. assert (Es : isNegative (x + - edge) = false)
      by (apply Qltb_ge; lra).
    rewrite Es. vm_compute. reflexivity.
  - assert (En : Qeq_bool (x + - edge) 0 = true) by (apply Qeq_bool_true; lra).
    rewrite En. reflexivity.
  - assert (En : Qeq_bool (x + - edge) 0 = true) by (apply Qeq_bool_true; lra).
    rewrite En. reflexivity.
Qed.

(** X5.  [inverseLerp] undoes [lerp] and [lerp] undoes [inverseLerp], as long
    as the two ends differ. *)
Theorem inverseLerp_lerp_round_trip a b t :
  ~ a == b ->
  num_eq (BasicMath.inverseLerp (Fin a) (Fin b) (Fin (lerp a b t))) (Fin t) /\
  exists s, BasicMath.inverseLerp (Fin a) (Fin b) (Fin t) = Fin s /\ lerp a b s == t.
Proof.
  intro H. unfold BasicMath.inverseLerp. cbn [nsub nadd nopp].
  assert (Hd : ~ b + - a == 0) by (intro E; apply H; lra).
  rewrite !ndiv_finite by exact Hd.
  split.
  - cbn [num_eq]. unfold lerp. field. exact Hd.
  - eexists. split; [reflexivity|]. unfold lerp. field. exact Hd.
Qed.

Lemma inverseLerp_lerp_round_trip_witness :
  num_eq (BasicMath.inverseLerp (Fin 2) (Fin 6) (Fin (lerp 2 6 (1 # 4)))) (Fin (1 # 4)) /\
  exists s, BasicMath.inverseLerp (Fin 2) (Fin 6) (Fin (1 # 4)) = Fin s
            /\ lerp 2 6 s == 1 # 4.
Proof. apply (inverseLerp_lerp_round_trip 2 6 (1 # 4)). discriminate. Defined.

(** [inverseLerp] between equal ends is not a finite number: NaN at the
    end itself, an infinity elsewhere. *)
Lemma inverseLerp_equal_ends a value :
  (value == a -> BasicMath.inverseLerp (Fin a) (Fin a) (Fin value) = NaN) /\
  (a < value -> BasicMath.inverseLerp (Fin a) (Fin a) (Fin value) = Inf false) /\
  (value < a -> BasicMath.inverseLerp (Fin a) (Fin a) (Fin value) = Inf true).
Proof.
  assert (Ez : Qeq_bool (a + - a) 0 = true) by (apply Qeq_bool_true; ring).
  unfold BasicMath.inverseLerp. cbn [nsub nadd nopp]. unfold ndiv. rewrite Ez.
  repeat split; intro Hv.
  - rewrite Qeq_bool_true by lra. reflexivity.
  - rewrite Qeq_bool_false by lra.
    assert (Es : isNegative (value + - a) = false) by (apply Qltb_ge; lra).
    rewrite Es. reflexivity.
  - rewrite Qeq_bool_false by lra.
    assert (Es : isNegative (value + - a) = true) by (apply Qltb_lt; lra).
    rewrite Es. reflexivity.
Qed.

(** ** Mapping between ranges *)

Lemma map_finite value inMin inMax outMin outMax :
  ~ inMin == inMax ->
  Utility.map (Fin value) (Fin inMin) (Fin inMax) (Fin outMin) (Fin outMax)
  = Fin ((value + - inMin) * (outMax + - outMin) / (inMax + - inMin) + outMin).
Proof.
  intro H. unfold Utility.map. cbn [nsub nadd nopp nmul].
  rewrite ndiv_finite by (intro E; apply H; lra).
  reflexivity.
Qed.

(** X6.  [map] sends the ends of the input range to the ends of the output
    range, and mapping back from the output range to the input range
    returns the value, as long as neither range is a single point. *)
Theorem map_ends_and_round_trip value inMin inMax outMin outMax :
  ~ inMin == inMax ->
  ~ outMin == outMax ->
  num_eq (Utility.map (Fin inMin) (Fin inMin) (Fin inMax) (Fin outMin) (Fin outMax))
         (Fin outMin) /\
  num_eq (Utility.map (Fin inMax) (Fin inMin) (Fin inMax) (Fin outMin) (Fin outMax))
         (Fin outMax) /\
  num_eq (Utility.map
            (Utility.map (Fin value) (Fin inMin) (Fin inMax) (Fin outMin) (Fin outMax))
            (Fin outMin) (Fin outMax) (Fin inMin) (Fin inMax))
         (Fin value).
Proof.
  intros Hi Ho.
  assert (Hi' : ~ inMax + - inMin == 0) by (intro E; apply Hi; lra).
  assert (Ho' : ~ outMax + - outMin == 0) by (intro E; apply Ho; lra).
  rewrite !map_finite by assumption.
  cbn [num_eq]. repeat split; field; try assumption.
  split; assumption.
Qed.

Lemma map_ends_and_round_trip_witness :
  num_eq (Utility.map (Fin 0) (Fin 0) (Fin 10) (Fin 100) (Fin 200)) (Fin 100) /\
  num_eq (Utility.map (Fin 10) (Fin 0) (Fin 10) (Fin 100) (Fin 200)) (Fin 200) /\
  num_eq (Utility.map
            (Utility.map (Fin 3) (Fin 0) (Fin 10) (Fin 100) (Fin 200))
            (Fin 100) (Fin 200) (Fin 0) (Fin 10))
         (Fin 3).
Proof. apply (map_ends_and_round_trip 3 0 10 100 200); discriminate. Defined.

(** ** Random helpers *)

Lemma randomInt_bounds r (min max : Z) :
  0 <= r -> r < 1 -> (min <= max)%Z ->
  (min <= BasicMath.randomInt r (inject_Z min) (inject_Z max) <= max)%Z.
Proof.
  intros H0 H1 Hmm. unfold BasicMath.randomInt, BasicMath.random.
  set (w := inject_Z max + 1 - inject_Z min).
  assert (Hw : 1 <= w).
  { unfold w. rewrite Zle_Qle in Hmm. lra. }
  assert (P0 : 0 <= r * w) by (apply Qmult_le_0_compat; lra).
  assert (P1 : 0 < (1 - r) * w) by (apply Qmult_lt_0_compat; lra).
  assert (E1 : (1 - r) * w == w - r * w) by ring.
  split.
  - apply Z.le_trans with (Qfloor (inject_Z min)).
    + rewrite Qfloor_Z. lia.
    + apply Qfloor_resp_le. lra.
  - assert (Hf := Qfloor_le (inject_Z min + r * w)).
    assert (Hlt : inject_Z (Qfloor (inject_Z min + r * w)) < inject_Z (max + 1)).
    { rewrite inject_Z_plus. unfold w in *. change (inject_Z 1) with 1. lra. }
    rewrite <- Zlt_Qlt in Hlt. lia.
Qed.



(** X8.  [randomChoice] returns an element of a non-empty array, and
    [undefined], without an error, for the empty array. *)
Theorem randomChoice_element {A : Type} r (array : list A) :
  0 <= r -> r < 1 -> array <> [] ->
  (exists x, BasicMath.randomChoice r array = Some x /\ In x array) /\
  BasicMath.randomChoice r (@nil A) = None.
Proof.
  intros H0 H1 Hne. split.
  - unfold BasicMath.randomChoice.
    assert (Hlen : (1 <= length array)%nat)
      by (destruct array; [contradiction | cbn; lia]).
    assert (E : inject_Z (Z.of_nat (length array)) - 1
                == inject_Z (Z.of_nat (length array) - 1)).
    { unfold Zminus. rewrite inject_Z_plus. reflexivity. }
    assert (Hr := randomInt_bounds r 0 (Z.of_nat (length array) - 1) H0 H1 ltac:(lia)).
    change (inject_Z 0) with 0 in Hr.
    assert (Ei : BasicMath.randomInt r 0 (inject_Z (Z.of_nat (length array)) - 1)
                 = BasicMath.randomInt r 0 (inject_Z (Z.of_nat (length array) - 1))).
    { unfold BasicMath.randomInt, BasicMath.random.
      apply Qfloor_comp. rewrite E. reflexivity. }
    rewrite Ei.
    set (i := BasicMath.randomInt r 0 _) in *.
    destruct (Z.ltb_spec i 0) as [Hneg|_]; [lia|].
    destruct (nth_error array (Z.to_nat i)) as [x|] eqn:En.
    + exists x. split; [reflexivity|]. eapply nth_error_In. exact En.
    + apply nth_error_None in En. lia.
  - unfold BasicMath.randomChoice, BasicMath.randomInt, BasicMath.random. cbn [length].
    assert (Ez : 0 + r * (inject_Z (Z.of_nat 0) - 1 + 1 - 0) == inject_Z 0)
      by (change (inject_Z (Z.of_nat 0)) with 0; change (inject_Z 0) with 0; ring).
    rewrite (Qfloor_comp _ _ Ez). rewrite Qfloor_Z. reflexivity.
Qed.

Lemma randomChoice_element_witness :
  (exists x, BasicMath.randomChoice (1 # 2) [7; 8; 9]%Z = Some x /\ In x [7; 8; 9]%Z) /\
  BasicMath.randomChoice (1 # 2) (@nil Z) = None.
Proof.
  apply (randomChoice_element (1 # 2) [7; 8; 9]%Z);
    [discriminate | reflexivity | discriminate].
Defined.

(** X9.  [shuffle] returns the elements of the array in some order: none is
    lost, none is duplicated, whatever the random numbers are. *)
Theorem shuffle_is_permutation rand (array : list Z) :
  (forall n : nat, 0 <= rand n < 1) ->
  Permutation (BasicMath.shuffle rand array) array /\
  length (BasicMath.shuffle rand array) = length array.
Proof.
  intro Hr. unfold BasicMath.shuffle.
  destruct array as [|a rest].
  - cbn. split; [constructor | reflexivity].
  - apply shuffleLoop_Permutation; [exact Hr | cbn; lia].
Qed.

Lemma shuffle_is_permutation_witness :
  Permutation (BasicMath.shuffle (fun _ => 1 # 3) [1; 2; 3; 4]%Z) [1; 2; 3; 4]%Z /\
  length (BasicMath.shuffle (fun _ => 1 # 3) [1; 2; 3; 4]%Z) = length [1; 2; 3; 4]%Z.
Proof.
  apply (shuffle_is_permutation (fun _ => 1 # 3) [1; 2; 3; 4]%Z).
  intro n. split; [discriminate | reflexivity].
Defined.

(** ** Angles *)

Section AngleFacts.

Variable Math_PI : Q.
Hypothesis PI_positive : 0 < Math_PI.

Local Abbreviation TWO_PI := (Angles.TWO_PI Math_PI).

Lemma whileAbove_spec fuel angle :
  angle <= Math_PI + inject_Z (Z.of_nat fuel) * TWO_PI ->
  exists r (k : nat), Angles.whileAbove Math_PI fuel angle = Some r /\
    r <= Math_PI /\ r == angle - inject_Z (Z.of_nat k) * TWO_PI /\
    (angle <= Math_PI -> r == angle) /\ (Math_PI < angle -> - Math_PI < r).
Proof.
  revert angle. induction fuel as [|fuel IH]; intros angle Hb.
  - cbn [Angles.whileAbove].
    change (inject_Z (Z.of_nat 0)) with 0 in Hb.
    destruct (Qltb_cases Math_PI angle) as [[-> H]|[-> H]]; [lra|].
    exists angle, 0%nat. change (inject_Z (Z.of_nat 0)) with 0.
    repeat split; try lra.
  - cbn [Angles.whileAbove].
    destruct (Qltb_cases Math_PI angle) as [[-> H]|[-> H]].
    + rewrite Nat2Z.inj_succ in Hb. unfold Z.succ in Hb.
      rewrite inject_Z_plus in Hb. change (inject_Z 1) with 1 in Hb.
      assert (Hb' : angle - TWO_PI
                    <= Math_PI + inject_Z (Z.of_nat fuel) * TWO_PI) by lra.
      destruct (IH _ Hb') as (r & k & E & Hr & Hk & Hsame & Hran).
      exists r, (S k). split; [exact E|]. split; [exact Hr|].
      rewrite Nat2Z.inj_succ. unfold Z.succ. rewrite inject_Z_plus.
      change (inject_Z 1) with 1.
      split; [lra|]. split; [lra|]. intros _.
      destruct (Qlt_le_dec Math_PI (angle - TWO_PI)) as [Hc|Hc].
      * apply Hran. exact Hc.
      * rewrite (Hsame Hc). unfold Angles.TWO_PI. lra.
    + exists angle, 0%nat. change (inject_Z (Z.of_nat 0)) with 0.
      repeat split; try lra.
Qed.

Lemma whileBelow_spec fuel angle :
  - (Math_PI + inject_Z (Z.of_nat fuel) * TWO_PI) <= angle ->
  exists r (k : nat), Angles.whileBelow Math_PI fuel angle = Some r /\
    - Math_PI <= r /\ r == angle + inject_Z (Z.of_nat k) * TWO_PI /\
    (- Math_PI <= angle -> r == angle) /\ (angle < - Math_PI -> r < Math_PI).
Proof.
  revert angle. induction fuel as [|fuel IH]; intros angle Hb.
  - cbn [Angles.whileBelow].
    change (inject_Z (Z.of_nat 0)) with 0 in Hb.
    destruct (Qltb_cases angle (- Math_PI)) as [[-> H]|[-> H]]; [lra|].
    exists angle, 0%nat. change (inject_Z (Z.of_nat 0)) with 0.
    repeat split; try lra.
  - cbn [Angles.whileBelow].
    destruct (Qltb_cases angle (- Math_PI)) as [[-> H]|[-> H]].
    + rewrite Nat2Z.inj_succ in Hb. unfold Z.succ in Hb.
      rewrite inject_Z_plus in Hb. change (inject_Z 1) with 1 in Hb.
      assert (Hb' : - (Math_PI + inject_Z (Z.of_nat fuel) * TWO_PI)
                    <= angle + TWO_PI) by lra.
      destruct (IH _ Hb') as (r & k & E & Hr & Hk & Hsame & Hran).
      exists r, (S k). split; [exact E|]. split; [exact Hr|].
      rewrite Nat2Z.inj_succ. unfold Z.succ. rewrite inject_Z_plus.
      change (inject_Z 1) with 1.
      split; [lra|]. split; [lra|]. intros _.
      destruct (Qlt_le_dec (angle + TWO_PI) (- Math_PI)) as [Hc|Hc].
      * apply Hran. exact Hc.
      * rewrite (Hsame Hc). unfold Angles.TWO_PI. lra.
    + exists angle, 0%nat. change (inject_Z (Z.of_nat 0)) with 0.
      repeat split; try lra.
Qed.

Lemma turns_bound angle :
  Qabs angle <= inject_Z (Z.of_nat (Angles.turns Math_PI angle)) * TWO_PI.
Proof.
  unfold Angles.turns, Angles.TWO_PI.
  set (w := Math_PI * 2).
  assert (Hw : 0 < w) by (unfold w; lra).
  assert (Hq : 0 <= Qabs angle / w).
  { unfold Qdiv. apply Qmult_le_0_compat; [apply Qabs_nonneg|].
    apply Qlt_le_weak, Qinv_lt_0_compat, Hw. }
  assert (Hc := Qle_ceiling (Qabs angle / w)).
  assert (Hn : (0 <= Qceiling (Qabs angle / w))%Z).
  { rewrite Zle_Qle. change (inject_Z 0) with 0. lra. }
  rewrite Z2Nat.id by exact Hn.
  assert (E : Qabs angle == Qabs angle / w * w) by (field; lra).
  rewrite E at 1. apply Qmult_le_compat_r; lra.
Qed.

Lemma normalizeAngle_spec fuel angle :
  (Angles.turns Math_PI angle <= fuel)%nat ->
  exists r (k : Z), Angles.normalizeAngle Math_PI fuel angle = Some r /\
    - Math_PI <= r <= Math_PI /\ r == angle + inject_Z k * TWO_PI /\
    (- Math_PI <= angle <= Math_PI -> r == angle).
Proof.
  intro Hfuel.
  assert (Ht := turns_bound angle).
  assert (Hle : inject_Z (Z.of_nat (Angles.turns Math_PI angle)) * TWO_PI
                <= inject_Z (Z.of_nat fuel) * TWO_PI).
  { apply Qmult_le_compat_r; [|unfold Angles.TWO_PI; lra].
    rewrite <- Zle_Qle. lia. }
  assert (Habs : - Qabs angle <= angle /\ angle <= Qabs angle).
  { split; [|apply Qle_Qabs].
    assert (H := Qle_Qabs (- angle)). rewrite Qabs_opp in H. lra. }
  unfold Angles.normalizeAngle.
  destruct (whileAbove_spec fuel angle) as (r1 & k1 & E1 & Hr1 & Hk1 & Hsame1 & Hran1);
    [lra|].
  rewrite E1.
  destruct (Qlt_le_dec Math_PI angle) as [Hc|Hc].
  - (* the first loop ran: the second does not *)
    specialize (Hran1 Hc).
    destruct (whileBelow_spec fuel r1) as (r2 & k2 & E2 & Hr2 & Hk2 & Hsame2 & _).
    { assert (0 <= inject_Z (Z.of_nat fuel) * TWO_PI).
      { apply Qmult_le_0_compat; [|unfold Angles.TWO_PI; lra].
        change 0 with (inject_Z 0). rewrite <- Zle_Qle. lia. }
      lra. }
    exists r2, (- Z.of_nat k1)%Z. split; [exact E2|].
    rewrite (Hsame2 ltac:(lra)).
    split; [lra|]. split; [|intros [_ Hin]; lra].
    rewrite inject_Z_opp. lra.
  - specialize (Hsame1 Hc).
    destruct (whileBelow_spec fuel r1) as (r2 & k2 & E2 & Hr2 & Hk2 & Hsame2 & Hran2);
      [lra|].
    exists r2, (Z.of_nat k2). split; [exact E2|].
    split.
    + split; [exact Hr2|].
      destruct (Qlt_le_dec r1 (- Math_PI)) as [Hd|Hd].
      * apply Qlt_le_weak, Hran2, Hd.
      * rewrite (Hsame2 Hd). lra.
    + split; [lra|]. intros [Hin _]. rewrite Hsame2 by lra. exact Hsame1.
Qed.

(** X10.  [normalizeAngle] stops, after at most [turns] iterations of its
    loops, with an angle between [-PI] and [PI] that differs from the
    argument by a whole number of turns; an angle already in that range is
    returned unchanged. *)
Theorem normalizeAngle_in_range fuel angle :
  (Angles.turns Math_PI angle <= fuel)%nat ->
  exists r (k : Z), Angles.normalizeAngle Math_PI fuel angle = Some r /\
    - Math_PI <= r <= Math_PI /\ r == angle + inject_Z k * TWO_PI /\
    (- Math_PI <= angle <= Math_PI -> r == angle).
Proof. exact (normalizeAngle_spec fuel angle). Qed.

(** X11.  [lerpAngle] turns from [a] toward [b] the short way round: the result
    is [a] at [t = 0], is [b] up to whole turns at [t = 1], and is never
    further than [PI * |t|] from [a]. *)
Theorem lerpAngle_shortest_path fuel a b t :
  (Angles.turns Math_PI (b - a) <= fuel)%nat ->
  exists r, Angles.lerpAngle Math_PI fuel a b t = Some r /\
    Qabs (r - a) <= Math_PI * Qabs t /\
    (t == 0 -> r == a) /\
    (t == 1 -> exists k : Z, r == b + inject_Z k * TWO_PI).
Proof.
  intro Hfuel. unfold Angles.lerpAngle.
  destruct (normalizeAngle_spec fuel (b - a) Hfuel) as (d & k & E & [Hd0 Hd1] & Hk & _).
  rewrite E. eexists. split; [reflexivity|].
  split; [|split].
  - assert (Ed : a + d * t - a == d * t) by ring.
    rewrite Ed, Qabs_Qmult.
    apply Qmult_le_compat_r; [|apply Qabs_nonneg].
    apply Qabs_Qle_condition. split; assumption.
  - intro Ht. rewrite Ht. ring.
  - intro Ht. exists k. rewrite Ht, Hk. ring.
Qed.

End AngleFacts.

Lemma normalizeAngle_in_range_witness :
  exists r (k : Z),
    Angles.normalizeAngle (355 # 113) 2 10 = Some r /\
    - (355 # 113) <= r <= 355 # 113 /\
    r == 10 + inject_Z k * Angles.TWO_PI (355 # 113) /\
    (- (355 # 113) <= 10 <= 355 # 113 -> r == 10).
Proof.
  apply (normalizeAngle_in_range (355 # 113) eq_refl 2 10).
  vm_compute. repeat constructor.
Defined.

Lemma lerpAngle_shortest_path_witness :
  exists r, Angles.lerpAngle (355 # 113) 1 3 (-3) (1 # 2) = Some r /\
    Qabs (r - 3) <= (355 # 113) * Qabs (1 # 2) /\
    ((1 # 2) == 0 -> r == 3) /\
    ((1 # 2) == 1 -> exists k : Z, r == (-3) + inject_Z k * Angles.TWO_PI (355 # 113)).
Proof.
  apply (lerpAngle_shortest_path (355 # 113) eq_refl 1 3 (-3) (1 # 2)).
  vm_compute. repeat constructor.
Defined.

(** ** Easing *)

Ltac split_at_half t :=
  unfold Easing.easeInOutQuad, Easing.easeInOutCubic;
  destruct (Qltb_cases t (5 # 10)) as [[-> ?]|[-> ?]].

Lemma cube_bounds t : 0 <= t -> t <= 1 -> 0 <= t * t * t <= 1.
Proof.
  intros H0 H1.
  assert (S0 : 0 <= t * t) by (apply Qmult_le_0_compat; lra).
  assert (S1 : 0 <= t * (1 - t)) by (apply Qmult_le_0_compat; lra).
  assert (C0 : 0 <= t * t * t) by (apply Qmult_le_0_compat; lra).
  assert (C1 : 0 <= t * t * (1 - t)) by (apply Qmult_le_0_compat; lra).
  assert (E : t * t * (1 - t) == t * t - t * t * t) by ring.
  assert (E' : t * (1 - t) == t - t * t) by ring.
  lra.
Qed.

(** X12.  The polynomial easing functions map the interval from 0 to 1 into
    itself and keep its ends: 0 at [t = 0] and 1 at [t = 1]. *)
Theorem easing_unit_interval t :
  0 <= t -> t <= 1 ->
  (0 <= Easing.easeInQuad t <= 1 /\ 0 <= Easing.easeOutQuad t <= 1 /\
   0 <= Easing.easeInOutQuad t <= 1 /\ 0 <= Easing.easeInCubic t <= 1 /\
   0 <= Easing.easeOutCubic t <= 1 /\ 0 <= Easing.easeInOutCubic t <= 1) /\
  (Easing.easeInQuad 0 == 0 /\ Easing.easeOutQuad 0 == 0 /\
   Easing.easeInOutQuad 0 == 0 /\ Easing.easeInCubic 0 == 0 /\
   Easing.easeOutCubic 0 == 0 /\ Easing.easeInOutCubic 0 == 0) /\
  (Easing.easeInQuad 1 == 1 /\ Easing.easeOutQuad 1 == 1 /\
   Easing.easeInOutQuad 1 == 1 /\ Easing.easeInCubic 1 == 1 /\
   Easing.easeOutCubic 1 == 1 /\ Easing.easeInOutCubic 1 == 1).
Proof.
  intros H0 H1.
  split; [|split; vm_compute; repeat split; reflexivity].
  assert (S0 : 0 <= t * t) by (apply Qmult_le_0_compat; lra).
  assert (S1 : 0 <= t * (1 - t)) by (apply Qmult_le_0_compat; lra).
  assert (S2 : 0 <= (1 - t) * (1 - t)) by (apply Qmult_le_0_compat; lra).
  assert (E1 : t * (1 - t) == t - t * t) by ring.
  assert (E2 : (1 - t) * (1 - t) == 1 - 2 * t + t * t) by ring.
  assert (C := cube_bounds t H0 H1).
  assert (C' := cube_bounds (1 - t) ltac:(lra) ltac:(lra)).
  repeat split.
  - unfold Easing.easeInQuad. lra.
  - unfold Easing.easeInQuad. lra.
  - unfold Easing.easeOutQuad. assert (E : t * (2 - t) == 2 * t - t * t) by ring. lra.
  - unfold Easing.easeOutQuad. assert (E : t * (2 - t) == 2 * t - t * t) by ring. lra.
  - split_at_half t.
    + assert (E : 2 * t * t == 2 * (t * t)) by ring. lra.
    + assert (E : -1 + (4 - 2 * t) * t == 1 - 2 * ((1 - t) * (1 - t))) by ring.
      assert (P : 0 <= ((1 # 2) - (1 - t)) * ((1 # 2) + (1 - t)))
        by (apply Qmult_le_0_compat; lra).
      assert (E' : ((1 # 2) - (1 - t)) * ((1 # 2) + (1 - t))
                   == (1 # 4) - (1 - t) * (1 - t)) by ring.
      lra.
  - split_at_half t.
    + assert (E : 2 * t * t == 2 * (t * t)) by ring.
      assert (P : 0 <= ((1 # 2) - t) * ((1 # 2) + t))
        by (apply Qmult_le_0_compat; lra).
      assert (E' : ((1 # 2) - t) * ((1 # 2) + t) == (1 # 4) - t * t) by ring.
      lra.
    + assert (E : -1 + (4 - 2 * t) * t == 1 - 2 * ((1 - t) * (1 - t))) by ring. lra.
  - unfold Easing.easeInCubic. lra.
  - unfold Easing.easeInCubic. lra.
  - unfold Easing.easeOutCubic.
    assert (E : (t - 1) * (t - 1) * (t - 1) + 1 == 1 - (1 - t) * (1 - t) * (1 - t))
      by ring.
    lra.
  - unfold Easing.easeOutCubic.
    assert (E : (t - 1) * (t - 1) * (t - 1) + 1 == 1 - (1 - t) * (1 - t) * (1 - t))
      by ring.
    lra.
  - split_at_half t.
    + assert (E : 4 * t * t * t == 4 * (t * t * t)) by ring. lra.
    + assert (E : (t - 1) * (2 * t - 2) * (2 * t - 2) + 1
                  == 1 - 4 * ((1 - t) * (1 - t) * (1 - t))) by ring.
      assert (B := cube_bounds (2 * (1 - t)) ltac:(lra) ltac:(lra)).
      assert (E' : 2 * (1 - t) * (2 * (1 - t)) * (2 * (1 - t))
                   == 8 * ((1 - t) * (1 - t) * (1 - t))) by ring.
      lra.
  - split_at_half t.
    + assert (E : 4 * t * t * t == 4 * (t * t * t)) by ring.
      assert (B := cube_bounds (2 * t) ltac:(lra) ltac:(lra)).
      assert (E' : 2 * t * (2 * t) * (2 * t) == 8 * (t * t * t)) by ring.
      lra.
    + assert (E : (t - 1) * (2 * t - 2) * (2 * t - 2) + 1
                  == 1 - 4 * ((1 - t) * (1 - t) * (1 - t))) by ring.
      lra.
Qed.

Lemma easing_unit_interval_witness :
  (0 <= Easing.easeInQuad (1 # 3) <= 1 /\ 0 <= Easing.easeOutQuad (1 # 3) <= 1 /\
   0 <= Easing.easeInOutQuad (1 # 3) <= 1 /\ 0 <= Easing.easeInCubic (1 # 3) <= 1 /\
   0 <= Easing.easeOutCubic (1 # 3) <= 1 /\ 0 <= Easing.easeInOutCubic (1 # 3) <= 1) /\
  (Easing.easeInQuad 0 == 0 /\ Easing.easeOutQuad 0 == 0 /\
   Easing.easeInOutQuad 0 == 0 /\ Easing.easeInCubic 0 == 0 /\
   Easing.easeOutCubic 0 == 0 /\ Easing.easeInOutCubic 0 == 0) /\
  (Easing.easeInQuad 1 == 1 /\ Easing.easeOutQuad 1 == 1 /\
   Easing.easeInOutQuad 1 == 1 /\ Easing.easeInCubic 1 == 1 /\
   Easing.easeOutCubic 1 == 1 /\ Easing.easeInOutCubic 1 == 1).
Proof. apply (easing_unit_interval (1 # 3)); discriminate. Defined.

(** Each ease-out function is the mirror image of its ease-in function,
    and each ease-in-out function is its own mirror image:
    [out(t) = 1 - in(1 - t)] and [inOut(1 - t) = 1 - inOut(t)], for every
    [t]. *)
Lemma easing_mirror t :
  Easing.easeOutQuad t == 1 - Easing.easeInQuad (1 - t) /\
  Easing.easeOutCubic t == 1 - Easing.easeInCubic (1 - t) /\
  Easing.easeInOutQuad (1 - t) == 1 - Easing.easeInOutQuad t /\
  Easing.easeInOutCubic (1 - t) == 1 - Easing.easeInOutCubic t.
Proof.
  split; [unfold Easing.easeOutQuad, Easing.easeInQuad; ring|].
  split; [unfold Easing.easeOutCubic, Easing.easeInCubic; ring|].
  unfold Easing.easeInOutQuad, Easing.easeInOutCubic.
  destruct (Qltb_cases t (5 # 10)) as [[-> H]|[-> H]];
    destruct (Qltb_cases (1 - t) (5 # 10)) as [[-> H']|[-> H']];
    try lra; split; try ring.
  - assert (Et : t == 1 # 2) by lra. rewrite Et. reflexivity.
  - assert (Et : t == 1 # 2) by lra. rewrite Et. reflexivity.
Qed.

(** X13.  [easeOutBounce] maps the interval from 0 to 1 into itself and keeps
    its ends. *)
Theorem easeOutBounce_unit_interval t :
  0 <= t -> t <= 1 ->
  0 <= Easing.easeOutBounce t <= 1 /\
  Easing.easeOutBounce 0 == 0 /\ Easing.easeOutBounce 1 == 1.
Proof.
  intros H0 H1. split; [|split; vm_compute; reflexivity].
  unfold Easing.easeOutBounce.
  assert (Hsq : forall c w u, - w <= u - c -> u - c <= w ->
                  0 <= (u - c) * (u - c) <= w * w).
  { intros c w u Hl Hu. split; [apply Qsquare_nonneg|].
    assert (P : 0 <= (w - (u - c)) * (w + (u - c)))
      by (apply Qmult_le_0_compat; lra).
    assert (E : (w - (u - c)) * (w + (u - c)) == w * w - (u - c) * (u - c)) by ring.
    lra. }
  assert (En : forall u, (75625 # 10000) * u * u == (75625 # 10000) * (u * u))
    by (intro; ring).
  assert (K1 : 1 / (275 # 100) == 100 # 275) by reflexivity.
  assert (K2 : 2 / (275 # 100) == 200 # 275) by reflexivity.
  assert (K3 : (25 # 10) / (275 # 100) == 250 # 275) by reflexivity.
  assert (C2 : (15 # 10) / (275 # 100) == 150 # 275) by reflexivity.
  assert (C3 : (225 # 100) / (275 # 100) == 225 # 275) by reflexivity.
  assert (C4 : (2625 # 1000) / (275 # 100) == 2625 # 2750) by reflexivity.
  destruct (Qltb_cases t (1 / (275 # 100))) as [[-> Ha]|[-> Ha]]; rewrite K1 in Ha.
  - rewrite En. destruct (Hsq 0 (100 # 275) t) as [P0 P1]; [lra | lra |].
    assert (Et : (t - 0) * (t - 0) == t * t) by ring.
    assert (Ew : (100 # 275) * (100 # 275) == 10000 # 75625) by reflexivity.
    lra.
  - destruct (Qltb_cases t (2 / (275 # 100))) as [[-> Hb]|[-> Hb]]; rewrite K2 in Hb.
    + rewrite En, C2.
      destruct (Hsq (150 # 275) (50 # 275) t) as [P0 P1]; [lra | lra |].
      assert (Ew : (50 # 275) * (50 # 275) == 2500 # 75625) by reflexivity.
      lra.
    + destruct (Qltb_cases t ((25 # 10) / (275 # 100))) as [[-> Hc]|[-> Hc]];
        rewrite K3 in Hc.
      * rewrite En, C3.
        destruct (Hsq (225 # 275) (25 # 275) t) as [P0 P1];
          [lra | lra |].
        assert (Ew : (25 # 275) * (25 # 275) == 625 # 75625) by reflexivity.
        lra.
      * rewrite En, C4.
        destruct (Hsq (2625 # 2750) (125 # 2750) t) as [P0 P1];
          [lra | lra |].
        assert (Ew : (125 # 2750) * (125 # 2750) == 15625 # 7562500) by reflexivity.
        lra.
Qed.

Lemma easeOutBounce_unit_interval_witness :
  0 <= Easing.easeOutBounce (1 # 2) <= 1 /\
  Easing.easeOutBounce 0 == 0 /\ Easing.easeOutBounce 1 == 1.
Proof. apply (easeOutBounce_unit_interval (1 # 2)); discriminate. Defined.

(** ** Integer utilities *)

Lemma factorialRec_spec fuel (n : Z) :
  (Z.to_nat n <= fuel)%nat ->
  Utility.factorialRec fuel n = Some (Z.of_nat (fact (Z.to_nat n))).
Proof.
  revert n. induction fuel as [|fuel IH]; intros n Hf; cbn [Utility.factorialRec].
  - destruct (Z.leb_spec n 1) as [Hn|Hn]; [|lia].
    assert (E : Z.to_nat n = 0%nat) by lia. rewrite E. reflexivity.
  - destruct (Z.leb_spec n 1) as [Hn|Hn].
    + assert (E : Z.to_nat n = 0%nat \/ Z.to_nat n = 1%nat) by lia.
      destruct E as [-> | ->]; reflexivity.
    + rewrite IH by lia.
      assert (E : Z.to_nat n = S (Z.to_nat (n - 1))) by lia.
      rewrite E. cbn [fact]. f_equal.
      rewrite Nat2Z.inj_mul. f_equal. lia.
Qed.

(** [factorial(n)] returns [n!] for every integer [n >= 0], and 1 for every
    negative integer; the recursion always stops. *)
Lemma factorial_value (n : Z) :
  Utility.factorial n = Some (Z.of_nat (fact (Z.to_nat n))) /\
  ((n < 0)%Z -> Utility.factorial n = Some 1%Z).
Proof.
  split.
  - apply factorialRec_spec. lia.
  - intro Hn. unfold Utility.factorial.
    rewrite factorialRec_spec by lia.
    assert (E : Z.to_nat n = 0%nat) by lia. rewrite E. reflexivity.
Qed.

Lemma gcdRec_spec fuel (a b : Z) :
  (Z.abs_nat b <= fuel)%nat ->
  exists g, Utility.gcdRec fuel a b = Some g /\ Z.abs g = Z.gcd a b /\
            ((0 <= a)%Z -> (0 <= b)%Z -> (0 <= g)%Z).
Proof.
  revert a b. induction fuel as [|fuel IH]; intros a b Hf; cbn [Utility.gcdRec].
  - destruct (Z.eqb_spec b 0) as [->|Hb]; [|lia].
    exists a. rewrite Z.gcd_0_r. repeat split. intros; assumption.
  - destruct (Z.eqb_spec b 0) as [->|Hb].
    + exists a. rewrite Z.gcd_0_r. repeat split. intros; assumption.
    + assert (Hr := Z.rem_bound_abs a b Hb).
      destruct (IH b (Z.rem a b)) as (g & E & Hg & Hpos); [lia|].
      exists g. split; [exact E|]. split.
      * rewrite Hg, (Z.gcd_comm b (Z.rem a b)), (Z.gcd_rem a b Hb).
        apply Z.gcd_comm.
      * intros Ha Hb'. apply Hpos; [exact Hb'|].
        apply Z.rem_nonneg; [exact Hb | exact Ha].
Qed.

(** X14.  [gcd(a, b)] stops for all integers, and its result is the greatest
    common divisor up to sign: exactly that for non-negative arguments,
    possibly its opposite otherwise. *)
Theorem gcd_up_to_sign (a b : Z) :
  exists g, Utility.gcd a b = Some g /\ Z.abs g = Z.gcd a b /\
            ((0 <= a)%Z -> (0 <= b)%Z -> g = Z.gcd a b).
Proof.
  destruct (gcdRec_spec (Z.abs_nat b) a b (le_n _)) as (g & E & Hg & Hpos).
  exists g. split; [exact E|]. split; [exact Hg|].
  intros Ha Hb. specialize (Hpos Ha Hb). lia.
Qed.

Example gcd_negative : Utility.gcd 4 (-6) = Some (-2)%Z.
Proof. reflexivity. Qed.

Lemma inject_Z_nonzero (z : Z) : z <> 0%Z -> ~ inject_Z z == 0.
Proof. intros H E. apply H. unfold Qeq in E. cbn in E. lia. Qed.

Lemma lcm_quotient (a b g : Z) :
  Z.abs g = Z.gcd a b -> g <> 0%Z ->
  Qabs (inject_Z (Z.abs (a * b)) / inject_Z g) == inject_Z (Z.lcm a b).
Proof.
  intros Hg Hnz.
  destruct (Z.gcd_divide_r a b) as [k Hk].
  remember (Z.gcd a b) as G eqn:EG.
  assert (HG : (0 < G)%Z) by lia.
  assert (El : Z.lcm a b = Z.abs (a * k)).
  { unfold Z.lcm. rewrite <- EG. f_equal. f_equal.
    rewrite Hk at 1. apply Z.div_mul. lia. }
  assert (Eab : Z.abs (a * b) = (Z.abs (a * k) * G)%Z).
  { rewrite Hk at 1. rewrite Z.mul_assoc, Z.abs_mul. f_equal.
    apply Z.abs_eq, Z.lt_le_incl, HG. }
  rewrite El, Eab, inject_Z_mult.
  assert (HGq : ~ inject_Z G == 0).
  { apply inject_Z_nonzero. lia. }
  assert (Hk0 : 0 <= inject_Z (Z.abs (a * k))).
  { change 0 with (inject_Z 0). rewrite <- Zle_Qle. lia. }
  assert (Hcase : g = G \/ g = (- G)%Z) by lia.
  destruct Hcase as [-> | ->].
  - assert (E : inject_Z (Z.abs (a * k)) * inject_Z G / inject_Z G
                == inject_Z (Z.abs (a * k))) by (field; exact HGq).
    rewrite E. apply Qabs_pos. exact Hk0.
  - rewrite inject_Z_opp.
    assert (E : inject_Z (Z.abs (a * k)) * inject_Z G / - inject_Z G
                == - inject_Z (Z.abs (a * k))) by (field; exact HGq).
    rewrite E, Qabs_opp. apply Qabs_pos. exact Hk0.
Qed.



Example lcm_negative :
  match Utility.lcm 4 (-6) with Some (Fin q) => q == -12 | _ => False end.
Proof. vm_compute. reflexivity. Qed.

Lemma isPrimeLoop_spec fuel (n i : Z) :
  (5 <= i)%Z -> (i mod 6 = 5)%Z -> (n - i < Z.of_nat fuel)%Z ->
  exists b, Utility.isPrimeLoop fuel n i = Some b /\
    (b = false -> exists d, (1 < d < n)%Z /\ (d | n)%Z) /\
    (b = true -> forall j, (i <= j)%Z -> (j * j <= n)%Z -> (j mod 6 = 5)%Z ->
                           ~ (j | n)%Z /\ ~ (j + 2 | n)%Z).
Proof.
  revert i. induction fuel as [|fuel IH]; intros i Hi Hm Hf.
  - cbn [Utility.isPrimeLoop].
    destruct (Z.leb_spec (i * i) n) as [Hsq|Hsq]; [nia|].
    exists true. split; [reflexivity|]. split; [discriminate|].
    intros _ j Hj Hjj _. nia.
  - cbn [Utility.isPrimeLoop].
    destruct (Z.leb_spec (i * i) n) as [Hsq|Hsq].
    + destruct (Z.eqb_spec (Z.rem n i) 0) as [Hd|Hd]; cbn [orb].
      * exists false. split; [reflexivity|]. split; [|discriminate].
        intros _. exists i. split; [nia|]. apply Z.rem_divide; [lia | exact Hd].
      * destruct (Z.eqb_spec (Z.rem n (i + 2)) 0) as [Hd2|Hd2].
        -- exists false. split; [reflexivity|]. split; [|discriminate].
           intros _. exists (i + 2)%Z. split; [nia|].
           apply Z.rem_divide; [lia | exact Hd2].
        -- destruct (IH (i + 6)%Z) as (b & E & Hfalse & Htrue).
           ++ lia.
           ++ rewrite <- Zplus_mod_idemp_l, Hm. reflexivity.
           ++ lia.
           ++ exists b. split; [exact E|]. split; [exact Hfalse|].
              intros Hb j Hj Hjj Hjm.
              destruct (Z.eq_dec j i) as [->|Hne].
              ** split; intro Hdiv;
                   [apply Hd | apply Hd2]; apply Z.rem_divide; (lia || assumption).
              ** apply (Htrue Hb); try assumption.
                 assert (Ej := Z.div_mod j 6 ltac:(lia)).
                 assert (Ei := Z.div_mod i 6 ltac:(lia)).
                 lia.
    + exists true. split; [reflexivity|]. split; [discriminate|].
      intros _ j Hj Hjj _. nia.
Qed.

Lemma small_divisor (n d : Z) :
  (1 < d < n)%Z -> (d | n)%Z ->
  exists e, (1 < e)%Z /\ (e * e <= n)%Z /\ (e | n)%Z.
Proof.
  intros Hd [q Hq].
  assert (Hq1 : (1 < q)%Z) by nia.
  destruct (Z.le_gt_cases (d * d) n) as [Hle|Hgt].
  - exists d. repeat split; try lia. exists q. exact Hq.
  - exists q. repeat split; try lia; [nia|]. exists d. lia.
Qed.

(** X16.  [isPrime(n)] answers for every integer, and answers [true] exactly
    for the prime numbers. *)
Theorem isPrime_correct (n : Z) :
  exists b, Utility.isPrime n = Some b /\ (b = true <-> Z.prime n).
Proof.
  unfold Utility.isPrime.
  destruct (Z.leb_spec n 1) as [H1|H1].
  { exists false. split; [reflexivity|]. split; [discriminate|].
    intros [Hp _]. lia. }
  destruct (Z.leb_spec n 3) as [H3|H3].
  { exists true. split; [reflexivity|]. split; [|reflexivity].
    intros _. assert (E : n = 2%Z \/ n = 3%Z) by lia.
    destruct E as [-> | ->]; [apply Z.prime_2 | apply Z.prime_3]. }
  assert (Hcomposite : forall d, (1 < d < n)%Z -> (d | n)%Z -> ~ Z.prime n).
  { intros d Hd Hdiv [_ Hp]. exact (Hp d Hd Hdiv). }
  destruct (Z.eqb_spec (Z.rem n 2) 0) as [H2|H2]; cbn [orb].
  { exists false. split; [reflexivity|]. split; [discriminate|].
    intro Hp. exfalso. apply (Hcomposite 2%Z); [lia | | exact Hp].
    apply Z.rem_divide; [lia | exact H2]. }
  destruct (Z.eqb_spec (Z.rem n 3) 0) as [H3'|H3'].
  { exists false. split; [reflexivity|]. split; [discriminate|].
    intro Hp. exfalso. apply (Hcomposite 3%Z); [lia | | exact Hp].
    apply Z.rem_divide; [lia | exact H3']. }
  destruct (isPrimeLoop_spec (Z.to_nat n) n 5) as (b & E & Hfalse & Htrue);
    [lia | reflexivity | lia |].
  exists b. split; [exact E|].
  destruct b.
  - split; [|reflexivity]. intros _.
    split; [lia|]. intros d Hd Hdiv.
    destruct (small_divisor n d Hd Hdiv) as (e & He1 & Hee & Hen).
    assert (Hodd : ~ (2 | e)%Z).
    { intro H. apply H2. apply Z.rem_divide; [lia|].
      eapply Z.divide_trans; eassumption. }
    assert (Hno3 : ~ (3 | e)%Z).
    { intro H. apply H3'. apply Z.rem_divide; [lia|].
      eapply Z.divide_trans; eassumption. }
    assert (Ee := Z.div_mod e 6 ltac:(lia)).
    assert (Hr := Z.mod_pos_bound e 6 ltac:(lia)).
    set (q := (e / 6)%Z) in *. set (r := (e mod 6)%Z) in *.
    assert (Hcases : r = 1%Z \/ r = 5%Z).
    { assert (C : (r = 0 \/ r = 1 \/ r = 2 \/ r = 3 \/ r = 4 \/ r = 5)%Z) by lia.
      destruct C as [C|[C|[C|[C|[C|C]]]]]; try (left; exact C); try (right; exact C);
        exfalso.
      - apply Hodd. exists (3 * q)%Z. lia.
      - apply Hodd. exists (3 * q + 1)%Z. lia.
      - apply Hno3. exists (2 * q + 1)%Z. lia.
      - apply Hodd. exists (3 * q + 2)%Z. lia. }
    destruct Hcases as [Hc|Hc].
    + destruct (Htrue eq_refl (e - 2)%Z) as [_ Hno]; try nia.
      * replace (e - 2)%Z with (5 + (q - 1) * 6)%Z by lia.
        rewrite Z.mod_add by lia. reflexivity.
      * apply Hno. replace (e - 2 + 2)%Z with e by lia. exact Hen.
    + destruct (Htrue eq_refl e) as [Hno _]; try lia.
      apply Hno. exact Hen.
  - split; [discriminate|]. intro Hp. exfalso.
    destruct (Hfalse eq_refl) as (d & Hd & Hdiv).
    exact (Hcomposite d Hd Hdiv Hp).
Qed.

(** ** Colours *)

Lemma byte_high_bits (x n : Z) :
  (0 <= x < 256)%Z -> (8 <= n)%Z -> Z.testbit x n = false.
Proof.
  intros Hx Hn. apply Z.testbit_false; [lia|].
  rewrite Z.div_small; [reflexivity|].
  split; [lia|]. apply Z.lt_le_trans with (2 ^ 8)%Z; [lia|].
  apply Z.pow_le_mono_r; lia.
Qed.

Lemma testbit_255 (n : Z) : (0 <= n)%Z -> Z.testbit 255 n = (n <? 8)%Z.
Proof.
  intro Hn. change 255%Z with (Z.ones 8).
  destruct (Z.ltb_spec n 8).
  - apply Z.ones_spec_low. lia.
  - apply Z.ones_spec_high. lia.
Qed.

Lemma pack_bits (R G B n : Z) :
  (0 <= R < 256)%Z -> (0 <= G < 256)%Z -> (0 <= B < 256)%Z -> (0 <= n)%Z ->
  Z.testbit (Z.lxor (Z.lxor (Z.shiftl R 16) (Z.shiftl G 8)) (Z.shiftl B 0)) n
  = if (n <? 8)%Z then Z.testbit B n
    else if (n <? 16)%Z then Z.testbit G (n - 8)
         else Z.testbit R (n - 16).
Proof.
  intros HR HG HB Hn.
  rewrite !Z.lxor_spec, !Z.shiftl_spec by lia.
  rewrite Z.sub_0_r.
  destruct (Z.ltb_spec n 8) as [H8|H8].
  - rewrite (Z.testbit_neg_r R), (Z.testbit_neg_r G) by lia.
    destruct (Z.testbit B n); reflexivity.
  - rewrite (byte_high_bits B n HB H8).
    destruct (Z.ltb_spec n 16) as [H16|H16].
    + rewrite (Z.testbit_neg_r R) by lia.
      destruct (Z.testbit G (n - 8)); reflexivity.
    + rewrite (byte_high_bits G (n - 8) HG) by lia.
      destruct (Z.testbit R (n - 16)); reflexivity.
Qed.

Local Abbreviation packed R G B :=
  (Z.lxor (Z.lxor (Z.shiftl R 16) (Z.shiftl G 8)) (Z.shiftl B 0)).

Lemma packed_red (R G B : Z) :
  (0 <= R < 256)%Z -> (0 <= G < 256)%Z -> (0 <= B < 256)%Z ->
  Z.land (Z.shiftr (packed R G B) 16) 255 = R.
Proof.
  intros HR HG HB.
  apply Z.bits_inj'. intros n Hn.
  rewrite Z.land_spec, Z.shiftr_spec, testbit_255 by lia.
  rewrite pack_bits by (assumption || lia).
  destruct (Z.ltb_spec n 8) as [H8|H8].
  + destruct (Z.ltb_spec (n + 16) 8); [lia|].
    destruct (Z.ltb_spec (n + 16) 16); [lia|].
    rewrite Z.add_simpl_r, andb_true_r. reflexivity.
  + rewrite andb_false_r. symmetry. apply byte_high_bits; assumption.
Qed.

Lemma packed_green (R G B : Z) :
  (0 <= R < 256)%Z -> (0 <= G < 256)%Z -> (0 <= B < 256)%Z ->
  Z.land (Z.shiftr (packed R G B) 8) 255 = G.
Proof.
  intros HR HG HB.
  apply Z.bits_inj'. intros n Hn.
  rewrite Z.land_spec, Z.shiftr_spec, testbit_255 by lia.
  rewrite pack_bits by (assumption || lia).
  destruct (Z.ltb_spec n 8) as [H8|H8].
  + destruct (Z.ltb_spec (n + 8) 8); [lia|].
    destruct (Z.ltb_spec (n + 8) 16); [|lia].
    rewrite Z.add_simpl_r, andb_true_r. reflexivity.
  + rewrite andb_false_r. symmetry. apply byte_high_bits; assumption.
Qed.

Lemma packed_blue (R G B : Z) :
  (0 <= R < 256)%Z -> (0 <= G < 256)%Z -> (0 <= B < 256)%Z ->
  Z.land (packed R G B) 255 = B.
Proof.
  intros HR HG HB.
  apply Z.bits_inj'. intros n Hn.
  rewrite Z.land_spec, testbit_255 by lia.
  rewrite pack_bits by (assumption || lia).
  destruct (Z.ltb_spec n 8) as [H8|H8].
  + rewrite andb_true_r. reflexivity.
  + rewrite andb_false_r. symmetry. apply byte_high_bits; assumption.
Qed.

Lemma packed_range (R G B : Z) :
  (0 <= R < 256)%Z -> (0 <= G < 256)%Z -> (0 <= B < 256)%Z ->
  (0 <= packed R G B < 16777216)%Z.
Proof.
  intros HR HG HB.
  assert (E : packed R G B = Z.land (packed R G B) (Z.ones 24)).
  { apply Z.bits_inj'. intros n Hn. rewrite Z.land_spec.
    destruct (Z.ltb_spec n 24) as [H24|H24].
    - rewrite Z.ones_spec_low, andb_true_r by lia. reflexivity.
    - rewrite Z.ones_spec_high, andb_false_r by lia.
      rewrite pack_bits by (assumption || lia).
      destruct (Z.ltb_spec n 8); [lia|]. destruct (Z.ltb_spec n 16); [lia|].
      apply byte_high_bits; [assumption | lia]. }
  rewrite E, Z.land_ones by lia.
  change (2 ^ 24)%Z with 16777216%Z.
  apply Z.mod_pos_bound. reflexivity.
Qed.

Lemma unpack_pack (c : Z) :
  (0 <= c < 16777216)%Z ->
  packed (Z.land (Z.shiftr c 16) 255) (Z.land (Z.shiftr c 8) 255) (Z.land c 255) = c.
Proof.
  intro Hc.
  assert (Hbyte : forall x, (0 <= Z.land x 255 < 256)%Z).
  { intro x. change 255%Z with (Z.ones 8). rewrite Z.land_ones by lia.
    apply Z.mod_pos_bound. lia. }
  apply Z.bits_inj'. intros n Hn.
  rewrite pack_bits by (apply Hbyte || exact Hn).
  destruct (Z.ltb_spec n 8) as [H8|H8].
  - rewrite Z.land_spec, testbit_255 by lia.
    destruct (Z.ltb_spec n 8); [|lia]. apply andb_true_r.
  - destruct (Z.ltb_spec n 16) as [H16|H16].
    + rewrite Z.land_spec, Z.shiftr_spec, testbit_255 by lia.
      destruct (Z.ltb_spec (n - 8) 8); [|lia].
      rewrite andb_true_r. f_equal. lia.
    + rewrite Z.land_spec, Z.shiftr_spec, testbit_255 by lia.
      replace (n - 16 + 16)%Z with n by lia.
      destruct (Z.ltb_spec (n - 16) 8) as [H24|H24].
      * apply andb_true_r.
      * rewrite andb_false_r. symmetry.
        apply Z.testbit_false; [lia|].
        rewrite Z.div_small; [reflexivity|].
        split; [lia|]. apply Z.lt_le_trans with (2 ^ 24)%Z; [exact (proj2 Hc)|].
        apply Z.pow_le_mono_r; lia.
Qed.

Lemma channel_byte (x : Z) :
  0 <= inject_Z (Z.land x 255) / 255 * 255 /\
  inject_Z (Z.land x 255) / 255 * 255 == inject_Z (Z.land x 255) /\
  (0 <= Z.land x 255 < 256)%Z.
Proof.
  assert (Hb : (0 <= Z.land x 255 < 256)%Z).
  { change 255%Z with (Z.ones 8). rewrite Z.land_ones by lia.
    apply Z.mod_pos_bound. lia. }
  assert (E : inject_Z (Z.land x 255) / 255 * 255 == inject_Z (Z.land x 255))
    by (field; discriminate).
  split; [|split; assumption].
  rewrite E. change 0 with (inject_Z 0). rewrite <- Zle_Qle. lia.
Qed.

Lemma toInt_between (q : Q) (lo hi : Z) :
  (0 <= lo)%Z -> inject_Z lo <= q -> q <= inject_Z hi -> (lo <= toInt q <= hi)%Z.
Proof.
  intros H0 Hlo Hhi. unfold toInt.
  assert (Hq : 0 <= q).
  { apply Qle_trans with (inject_Z lo); [|exact Hlo].
    change 0 with (inject_Z 0). rewrite <- Zle_Qle. exact H0. }
  rewrite (proj2 (Qle_bool_iff 0 q) Hq).
  split.
  - rewrite <- (Qfloor_Z lo). apply Qfloor_resp_le. exact Hlo.
  - rewrite <- (Qfloor_Z hi). apply Qfloor_resp_le. exact Hhi.
Qed.

Lemma lerp_channel (n1 n2 : Z) (f : Q) :
  (0 <= n1 < 256)%Z -> (0 <= n2 < 256)%Z -> 0 <= f -> f <= 1 ->
  let v := (inject_Z n1 / 255 + (inject_Z n2 / 255 - inject_Z n1 / 255) * f) * 255 in
  (Z.min n1 n2 <= toInt v <= Z.max n1 n2)%Z.
Proof.
  intros H1 H2 Hf0 Hf1 v.
  assert (Ev : v == inject_Z n1 + (inject_Z n2 - inject_Z n1) * f)
    by (unfold v; field).
  assert (Hv : inject_Z (Z.min n1 n2) <= v /\ v <= inject_Z (Z.max n1 n2)).
  { rewrite Ev.
    destruct (Z.le_ge_cases n1 n2) as [Hle|Hle].
    - rewrite Z.min_l, Z.max_r by lia.
      assert (Hd : 0 <= inject_Z n2 - inject_Z n1)
        by (rewrite Zle_Qle in Hle; lra).
      assert (P0 : 0 <= (inject_Z n2 - inject_Z n1) * f)
        by (apply Qmult_le_0_compat; lra).
      assert (P1 : 0 <= (inject_Z n2 - inject_Z n1) * (1 - f))
        by (apply Qmult_le_0_compat; lra).
      assert (E1 : (inject_Z n2 - inject_Z n1) * (1 - f)
                   == (inject_Z n2 - inject_Z n1)
                      - (inject_Z n2 - inject_Z n1) * f) by ring.
      split; lra.
    - rewrite Z.min_r, Z.max_l by lia.
      assert (Hd : 0 <= inject_Z n1 - inject_Z n2)
        by (rewrite Zle_Qle in Hle; lra).
      assert (P0 : 0 <= (inject_Z n1 - inject_Z n2) * f)
        by (apply Qmult_le_0_compat; lra).
      assert (P1 : 0 <= (inject_Z n1 - inject_Z n2) * (1 - f))
        by (apply Qmult_le_0_compat; lra).
      assert (E0 : (inject_Z n2 - inject_Z n1) * f
                   == - ((inject_Z n1 - inject_Z n2) * f)) by ring.
      assert (E1 : (inject_Z n1 - inject_Z n2) * (1 - f)
                   == (inject_Z n1 - inject_Z n2)
                      - (inject_Z n1 - inject_Z n2) * f) by ring.
      split; lra. }
  apply toInt_between; [lia | apply Hv | apply Hv].
Qed.

Local Abbreviation red c := (Z.land (Z.shiftr c 16) 255).
Local Abbreviation green c := (Z.land (Z.shiftr c 8) 255).
Local Abbreviation blue c := (Z.land c 255).

Lemma byte_range (x : Z) : (0 <= Z.land x 255 < 256)%Z.
Proof.
  change 255%Z with (Z.ones 8). rewrite Z.land_ones by lia.
  apply Z.mod_pos_bound. lia.
Qed.

Lemma toInt_integer (n : Z) (q : Q) : (0 <= n)%Z -> q == inject_Z n -> toInt q = n.
Proof.
  intros Hn E. rewrite (toInt_Proper _ _ E). unfold toInt.
  assert (H : 0 <= inject_Z n)
    by (change 0 with (inject_Z 0); rewrite <- Zle_Qle; exact Hn).
  rewrite (proj2 (Qle_bool_iff 0 _) H). apply Qfloor_Z.
Qed.

Lemma interpolateColor_packed c1 c2 f :
  Lighting.interpolateColor c1 c2 f
  = packed (toInt ((inject_Z (red c1) / 255
                    + (inject_Z (red c2) / 255 - inject_Z (red c1) / 255) * f) * 255))
           (toInt ((inject_Z (green c1) / 255
                    + (inject_Z (green c2) / 255 - inject_Z (green c1) / 255) * f) * 255))
           (toInt ((inject_Z (blue c1) / 255
                    + (inject_Z (blue c2) / 255 - inject_Z (blue c1) / 255) * f) * 255)).
Proof. reflexivity. Qed.



(** ** The lights and the time of day *)

Section LightingSystemFacts.
Import Lighting LightingSystem.

Variable Math_cos Math_sin : Q -> Q.
Variable Math_PI : Q.

Local Abbreviation update' := (update Math_cos Math_sin Math_PI).
Local Abbreviation updateEffects' := (updateEffects Math_sin Math_PI).
Local Abbreviation updateSunPosition' := (updateSunPosition Math_cos Math_sin Math_PI).
Local Abbreviation setTimeOfDay' := (setTimeOfDay Math_cos Math_sin Math_PI).

Lemma Math_max_cases a b :
  (a <= b /\ Math_max a b = b) \/ (b < a /\ Math_max a b = a).
Proof.
  unfold Math_max. destruct (Qle_bool a b) eqn:E.
  - left. split; [apply Qle_bool_iff; exact E | reflexivity].
  - right. split; [|reflexivity].
    apply Qnot_le_lt. intro H. apply Qle_bool_iff in H. congruence.
Qed.

Lemma Math_min_cases a b :
  (a <= b /\ Math_min a b = a) \/ (b < a /\ Math_min a b = b).
Proof.
  unfold Math_min. destruct (Qle_bool a b) eqn:E.
  - left. split; [apply Qle_bool_iff; exact E | reflexivity].
  - right. split; [|reflexivity].
    apply Qnot_le_lt. intro H. apply Qle_bool_iff in H. congruence.
Qed.

Lemma updateSunPosition_keeps s :
  hour (updateSunPosition' s) = hour s /\
  ambientLight (updateSunPosition' s) = ambientLight s /\
  hemisphereLight (updateSunPosition' s) = hemisphereLight s /\
  (sunLight s = None -> sunLight (updateSunPosition' s) = None) /\
  (forall sun, sunLight s = Some sun ->
     exists sun', sunLight (updateSunPosition' s) = Some sun' /\
       sun_intensity sun' = sun_intensity sun /\ 5 <= vy (sun_position sun')).
Proof.
  unfold LightingSystem.updateSunPosition.
  destruct (sunLight s) as [sun|] eqn:E; cbn.
  - split; [reflexivity|]. split; [reflexivity|]. split; [reflexivity|].
    split; [discriminate|].
    intros sun0 [= <-]. eexists. split; [reflexivity|]. split; [reflexivity|].
    cbn. match goal with |- 5 <= Math_max ?y 5 =>
      destruct (Math_max_cases y 5) as [[H ->]|[H ->]]; lra end.
  - split; [reflexivity|]. split; [reflexivity|]. split; [reflexivity|].
    split; [intros _; exact E|]. intros sun0 H. discriminate H.
Qed.

Lemma updateAtmosphere_lights s :
  hour (updateAtmosphere s) = hour s /\
  (forall sun, sunLight s = Some sun ->
     exists sun', sunLight (updateAtmosphere s) = Some sun' /\
       sun_intensity sun' = sunIntensity (calculateLightingForTime (hour s)) /\
       sun_color sun' = Color_setHex (sunColor (calculateLightingForTime (hour s))) /\
       sun_position sun' = sun_position sun) /\
  (forall l, ambientLight s = Some l ->
     ambientLight (updateAtmosphere s)
     = Some {| ambient_color :=
                 Color_setHex (ambientColor (calculateLightingForTime (hour s)));
               ambient_intensity :=
                 ambientIntensity (calculateLightingForTime (hour s)) |}) /\
  (forall l, hemisphereLight s = Some l ->
     hemisphereLight (updateAtmosphere s)
     = Some {| hemisphere_color :=
                 Color_setHex (skyColor (calculateLightingForTime (hour s)));
               hemisphere_groundColor :=
                 Color_setHex (groundColor (calculateLightingForTime (hour s)));
               hemisphere_intensity :=
                 hemisphereIntensity (calculateLightingForTime (hour s)) |}).
Proof.
  unfold updateAtmosphere.
  set (data := calculateLightingForTime (hour s)).
  destruct (sunLight s) as [sun|] eqn:Es;
    destruct (ambientLight s) as [amb|] eqn:Ea;
    destruct (hemisphereLight s) as [hem|] eqn:Eh; cbn;
    rewrite ?Es, ?Ea, ?Eh; cbn; rewrite ?Es, ?Ea, ?Eh; cbn.
  all: split; [reflexivity|].
  all: split;
    [intros sun0 H;
     first [discriminate H
           | injection H as <-; eexists; split; [reflexivity|];
             split; [reflexivity|]; split; reflexivity]|].
  all: split; intros l H; first [discriminate H | reflexivity].
Qed.

Lemma updateEffects_keeps s time :
  hour (updateEffects' s time) = hour s /\
  ambientLight (updateEffects' s time) = ambientLight s /\
  hemisphereLight (updateEffects' s time) = hemisphereLight s /\
  sunFlicker (updateEffects' s time) = sunFlicker s /\
  (forall sun, sunLight s = Some sun ->
     exists sun', sunLight (updateEffects' s time) = Some sun' /\
                  sun_position sun' = sun_position sun).
Proof.
  destruct s as [[sun|] al hl h sp path [fe fi ff fb] [ce cs ci] lu];
    destruct fe; destruct ce; cbn;
    (split; [reflexivity|]); (split; [reflexivity|]); (split; [reflexivity|]);
    (split; [reflexivity|]);
    intros sun0 H; first [discriminate H | injection H as <-];
    eexists; split; reflexivity.
Qed.

(** X18.  An [update] that is not throttled leaves every light that exists at
    the values [calculateLightingForTime] gives for the new hour, whatever
    the sun-flicker and cloud-shadow settings are: what [updateEffects]
    wrote into the intensity of the sun is overwritten by
    [updateAtmosphere] in the same call.  A throttled [update] changes
    nothing. *)
Theorem update_shows_time_of_day s now time deltaTime :
  let s' := update' s now time deltaTime in
  let data := calculateLightingForTime (hour s') in
  (now - lastUpdate s < 1000 / 60 -> s' = s) /\
  (1000 / 60 <= now - lastUpdate s ->
   hour s' = hour (updateTimeOfDay s deltaTime) /\
   (forall sun, sunLight s = Some sun ->
      exists sun', sunLight s' = Some sun' /\
        sun_intensity sun' = sunIntensity data /\
        sun_color sun' = Color_setHex (sunColor data)) /\
   (forall l, ambientLight s = Some l ->
      ambientLight s' = Some {| ambient_color := Color_setHex (ambientColor data);
                                ambient_intensity := ambientIntensity data |}) /\
   (forall l, hemisphereLight s = Some l ->
      hemisphereLight s'
      = Some {| hemisphere_color := Color_setHex (skyColor data);
                hemisphere_groundColor := Color_setHex (groundColor data);
                hemisphere_intensity := hemisphereIntensity data |})).
Proof.
  cbv zeta. unfold LightingSystem.update, updateFrequency.
  destruct (Qltb_cases (now - lastUpdate s) (1000 / 60)) as [[-> H]|[-> H]].
  - split; [reflexivity|]. intro H'. lra.
  - split; [intro H'; lra|]. intros _.
    set (s1 := updateTimeOfDay (with_lastUpdate s now) deltaTime).
    set (s2 := updateEffects' s1 time).
    set (s3 := updateSunPosition' s2).
    destruct (updateEffects_keeps s1 time) as (Eh2 & Ea2 & Ehm2 & _ & Hs2).
    destruct (updateSunPosition_keeps s2) as (Eh3 & Ea3 & Ehm3 & _ & Hs3).
    destruct (updateAtmosphere_lights s3) as (Eh4 & Hsun & Hamb & Hhem).
    fold s2 in Eh2, Ea2, Ehm2, Hs2. fold s3 in Eh3, Ea3, Ehm3, Hs3.
    assert (Eh : hour (updateAtmosphere s3) = hour s1) by congruence.
    rewrite Eh.
    assert (Eh3' : hour s3 = hour s1) by congruence.
    rewrite Eh3' in Hsun, Hamb, Hhem.
    split; [reflexivity|].
    split; [|split].
    + intros sun Hsun0.
      destruct (Hs2 sun Hsun0) as (sun2 & E2 & _).
      destruct (Hs3 sun2 E2) as (sun3 & E3 & _).
      destruct (Hsun sun3 E3) as (sun4 & E4 & Hi & Hc & _).
      exists sun4. repeat split; assumption.
    + intros l Hl. apply (Hamb l). rewrite Ea3, Ea2. exact Hl.
    + intros l Hl. apply (Hhem l). rewrite Ehm3, Ehm2. exact Hl.
Qed.

(** X19.  [updateTimeOfDay] keeps the hour in the day, from 0 up to but not
    including 24, as long as one step advances the clock by at most 24
    hours; the new hour is the old one plus the step, less 24 when that
    reaches 24. *)
Theorem updateTimeOfDay_keeps_hour_in_day s deltaTime :
  0 <= hour s -> hour s < 24 ->
  0 <= speed s * deltaTime -> speed s * deltaTime <= 24 ->
  let h := hour (updateTimeOfDay s deltaTime) in
  0 <= h /\ h < 24 /\
  (h == hour s + speed s * deltaTime \/ h == hour s + speed s * deltaTime - 24).
Proof.
  intros H0 H24 Hs0 Hs24. cbn.
  destruct (Qle_bool 24 (hour s + speed s * deltaTime)) eqn:E.
  - apply Qle_bool_iff in E. split; [lra|]. split; [lra|]. right. reflexivity.
  - assert (hour s + speed s * deltaTime < 24).
    { apply Qnot_le_lt. intro H. apply Qle_bool_iff in H. congruence. }
    split; [lra|]. split; [lra|]. left. reflexivity.
Qed.

(** X20.  [getLightIntensityForTime] returns a value between 0.1 and 1; during
    the day, from hour 6 to hour 18, it is [1 - 0.7 * |hour - 12| / 6],
    which is at least 0.3, so the lower bound 0.1 of [Math.max] never
    applies there; outside the day the value is 0.1. *)
Theorem getLightIntensityForTime_range s :
  (1 # 10) <= getLightIntensityForTime s <= 1 /\
  (6 <= hour s -> hour s <= 18 ->
   getLightIntensityForTime s == 1 - Qabs (hour s - 12) / 6 * (7 # 10) /\
   (3 # 10) <= getLightIntensityForTime s) /\
  (hour s < 6 \/ 18 < hour s -> getLightIntensityForTime s == 1 # 10).
Proof.
  unfold getLightIntensityForTime.
  assert (Habs : 0 <= Qabs (hour s - 12)) by apply Qabs_nonneg.
  assert (Hday : 6 <= hour s -> hour s <= 18 -> Qabs (hour s - 12) <= 6).
  { intros. apply Qabs_Qle_condition. split; lra. }
  set (d := Qabs (hour s - 12)) in *.
  assert (Ed : d / 6 * (7 # 10) == d * (7 # 60)) by (field).
  destruct (Qle_bool 6 (hour s)) eqn:E6; cbn [andb].
  - destruct (Qle_bool (hour s) 18) eqn:E18.
    + apply Qle_bool_iff in E6, E18. specialize (Hday E6 E18).
      destruct (Math_max_cases (1 # 10) (1 - d / 6 * (7 # 10))) as [[H ->]|[H ->]].
      * split; [rewrite Ed in *; lra|]. split; [|intros [?|?]; lra].
        intros _ _. split; [reflexivity | rewrite Ed; lra].
      * rewrite Ed in H. lra.
    + assert (18 < hour s).
      { apply Qnot_le_lt. intro H. apply Qle_bool_iff in H. congruence. }
      split; [lra|]. split; [intros; lra|]. intros _. reflexivity.
  - assert (hour s < 6).
    { apply Qnot_le_lt. intro H. apply Qle_bool_iff in H. congruence. }
    split; [lra|]. split; [intros; lra|]. intros _. reflexivity.
Qed.

(** X21.  [setTimeOfDay] clamps the hour into the closed range from 0 to 24, so
    hour 24 itself can be set; it then lifts the sun to a height of at least
    5 and sets its intensity to what [calculateLightingForTime] gives for
    the clamped hour. *)
Theorem setTimeOfDay_clamps s h :
  let s' := setTimeOfDay' s h in
  0 <= hour s' <= 24 /\
  (0 <= h -> h <= 24 -> hour s' == h) /\
  (24 <= h -> hour s' == 24) /\
  (forall sun, sunLight s = Some sun ->
     exists sun', sunLight s' = Some sun' /\
       5 <= vy (sun_position sun') /\
       sun_intensity sun' = sunIntensity (calculateLightingForTime (hour s'))).
Proof.
  cbv zeta. unfold LightingSystem.setTimeOfDay.
  set (s1 := with_hour s (Math_max 0 (Math_min 24 h))).
  destruct (updateSunPosition_keeps s1) as (Eh2 & _ & _ & _ & Hs2).
  destruct (updateAtmosphere_lights (updateSunPosition' s1)) as (Eh3 & Hsun & _).
  rewrite Eh3, Eh2. rewrite Eh2 in Hsun.
  change (hour s1) with (Math_max 0 (Math_min 24 h)) in *.
  split; [|split; [|split]].
  - destruct (Math_min_cases 24 h) as [[H ->]|[H ->]];
      match goal with |- context [Math_max 0 ?x] =>
        destruct (Math_max_cases 0 x) as [[H' ->]|[H' ->]] end; lra.
  - intros H0 H24.
    destruct (Math_min_cases 24 h) as [[H ->]|[H ->]];
      match goal with |- context [Math_max 0 ?x] =>
        destruct (Math_max_cases 0 x) as [[H' ->]|[H' ->]] end; lra.
  - intro H24.
    destruct (Math_min_cases 24 h) as [[H ->]|[H ->]];
      match goal with |- context [Math_max 0 ?x] =>
        destruct (Math_max_cases 0 x) as [[H' ->]|[H' ->]] end; lra.
  - intros sun Hsun0.
    destruct (Hs2 sun Hsun0) as (sun2 & E2 & _ & Hy).
    destruct (Hsun sun2 E2) as (sun3 & E3 & Hi & _ & Hp).
    exists sun3. split; [exact E3|]. split; [rewrite Hp; exact Hy | exact Hi].
Qed.

(** X22.  Switching the sun flicker on and off again restores the intensity of
    the sun: [enableSunFlicker] remembers the intensity, the flicker and the
    cloud shadows of [updateEffects] change it, and [disableSunFlicker]
    writes the remembered value back; after [setSunIntensity] in between it
    is the newly set value that comes back. *)
Theorem sunFlicker_round_trip s sun intensity frequency time :
  sunLight s = Some sun ->
  let flickering := updateEffects' (enableSunFlicker s intensity frequency) time in
  (exists sun', sunLight (disableSunFlicker flickering) = Some sun' /\
                sun_intensity sun' = sun_intensity sun) /\
  flicker_enabled (sunFlicker (disableSunFlicker flickering)) = false /\
  forall v, exists sun',
    sunLight (disableSunFlicker (setSunIntensity flickering v)) = Some sun' /\
    sun_intensity sun' = v.
Proof.
  intro Hs.
  destruct s as [sl al hl h sp path [fe fi ff fb] [ce cs ci] lu].
  cbn in Hs. subst sl. destruct ce; cbn.
  all: split; [eexists; split; reflexivity|].
  all: split; [reflexivity|].
  all: intro v; eexists; split; reflexivity.
Qed.

End LightingSystemFacts.

Lemma updateTimeOfDay_keeps_hour_in_day_witness :
  let s := LightingSystem.newLighting in
  let h := LightingSystem.hour (LightingSystem.updateTimeOfDay s 100) in
  0 <= h /\ h < 24 /\
  (h == LightingSystem.hour s + LightingSystem.speed s * 100 \/
   h == LightingSystem.hour s + LightingSystem.speed s * 100 - 24).
Proof.
  apply (updateTimeOfDay_keeps_hour_in_day LightingSystem.newLighting 100);
    (discriminate || reflexivity).
Defined.

Lemma sunFlicker_round_trip_witness :
  let s := LightingSystem.createSunLight LightingSystem.newLighting in
  let flickering :=
    LightingSystem.updateEffects Samples.sampleSin Samples.samplePI
      (LightingSystem.enableSunFlicker s (1 # 10) (5 # 10)) 3 in
  (exists sun', LightingSystem.sunLight (LightingSystem.disableSunFlicker flickering)
                = Some sun' /\
                LightingSystem.sun_intensity sun' = 1) /\
  LightingSystem.flicker_enabled
    (LightingSystem.sunFlicker (LightingSystem.disableSunFlicker flickering)) = false /\
  forall v, exists sun',
    LightingSystem.sunLight
      (LightingSystem.disableSunFlicker (LightingSystem.setSunIntensity flickering v))
    = Some sun' /\
    LightingSystem.sun_intensity sun' = v.
Proof.
  apply (sunFlicker_round_trip Samples.sampleSin Samples.samplePI
           (LightingSystem.createSunLight LightingSystem.newLighting)
           _ (1 # 10) (5 # 10) 3 eq_refl).
Defined.

(** After [init] the three lights exist and show the afternoon keyframe of
    hour 14, whatever the runtime's functions are. *)
Example init_shows_afternoon :
  let s := LightingSystem.init Samples.sampleCos Samples.sampleSin Samples.samplePI
                               LightingSystem.newLighting in
  match LightingSystem.sunLight s, LightingSystem.ambientLight s with
  | Some sun, Some ambient =>
      LightingSystem.hour s == 14 /\
      LightingSystem.sun_intensity sun == 9 # 10 /\
      LightingSystem.ambient_intensity ambient == 3 # 10
  | _, _ => False
  end.
Proof. vm_compute. repeat split; reflexivity. Qed.

(** ** The generated world *)

Import Environment.

Lemma getTerrainHeightAt_bound noiseTable env x z :
  0 <= heightVariation (terrain_config (config env)) ->
  Qabs (getTerrainHeightAt noiseTable env x z)
  <= (7 # 4) * heightVariation (terrain_config (config env)).
Proof.
  intro Hv. unfold getTerrainHeightAt.
  set (c := terrain_config (config env)) in *.
  destruct (terrain env).
  - cbv zeta.
    assert (N1 := noise_range noiseTable (x * noiseScale c) (z * noiseScale c)).
    assert (N2 := noise_range noiseTable (x * noiseScale c * 2) (z * noiseScale c * 2)).
    assert (N4 := noise_range noiseTable (x * noiseScale c * 4) (z * noiseScale c * 4)).
    set (n1 := noise noiseTable (x * noiseScale c) (z * noiseScale c)) in *.
    set (n2 := noise noiseTable (x * noiseScale c * 2) (z * noiseScale c * 2)) in *.
    set (n4 := noise noiseTable (x * noiseScale c * 4) (z * noiseScale c * 4)) in *.
    set (v := heightVariation c) in *.
    assert (P1 : 0 <= (1 - n1) * v) by (apply Qmult_le_0_compat; lra).
    assert (P1' : 0 <= (1 + n1) * v) by (apply Qmult_le_0_compat; lra).
    assert (P2 : 0 <= (1 - n2) * v) by (apply Qmult_le_0_compat; lra).
    assert (P2' : 0 <= (1 + n2) * v) by (apply Qmult_le_0_compat; lra).
    assert (P4 : 0 <= (1 - n4) * v) by (apply Qmult_le_0_compat; lra).
    assert (P4' : 0 <= (1 + n4) * v) by (apply Qmult_le_0_compat; lra).
    assert (E : 0 + n1 * v + n2 * v * (5 # 10) + n4 * v * (25 # 100)
                == (7 # 4) * v - ((1 - n1) * v + (1 # 2) * ((1 - n2) * v)
                                  + (1 # 4) * ((1 - n4) * v))) by ring.
    assert (E' : 0 + n1 * v + n2 * v * (5 # 10) + n4 * v * (25 # 100)
                 == - ((7 # 4) * v) + ((1 + n1) * v + (1 # 2) * ((1 + n2) * v)
                                       + (1 # 4) * ((1 + n4) * v))) by ring.
    apply Qabs_Qle_condition. split; lra.
  - rewrite Qabs_pos by lra. lra.
Qed.



Lemma planeRow_vertex sw wh n y j :
  (j < n)%nat ->
  nth (3 * j) (planeRow sw wh n y) 0 = inject_Z (Z.of_nat j) * sw - wh /\
  nth (3 * j + 1) (planeRow sw wh n y) 0 = - y /\
  nth (3 * j + 2) (planeRow sw wh n y) 0 = 0.
Proof.
  unfold planeRow.
  assert (G : forall n s j, (j < n)%nat ->
    nth (3 * j) (flat_map (fun ix : nat => [inject_Z (Z.of_nat ix) * sw - wh; - y; 0])
                          (seq s n)) 0 = inject_Z (Z.of_nat (s + j)) * sw - wh /\
    nth (3 * j + 1) (flat_map (fun ix : nat => [inject_Z (Z.of_nat ix) * sw - wh; - y; 0])
                              (seq s n)) 0 = - y /\
    nth (3 * j + 2) (flat_map (fun ix : nat => [inject_Z (Z.of_nat ix) * sw - wh; - y; 0])
                              (seq s n)) 0 = 0).
  { clear n j. induction n as [|n IH]; intros s j Hj; [lia|].
    cbn [seq flat_map app]. destruct j as [|j].
    - rewrite Nat.add_0_r. repeat split; reflexivity.
    - replace (3 * S j)%nat with (S (S (S (3 * j)))) by lia.
      replace (S (S (S (3 * j))) + 1)%nat with (S (S (S (3 * j + 1)))) by lia.
      replace (S (S (S (3 * j))) + 2)%nat with (S (S (S (3 * j + 2)))) by lia.
      cbn [nth]. replace (s + S j)%nat with (S s + j)%nat by lia.
      apply IH. lia. }
  intro Hj. apply (G n 0%nat j Hj).
Qed.

Lemma planeRow_length sw wh n y : length (planeRow sw wh n y) = (3 * n)%nat.
Proof.
  unfold planeRow. rewrite (flat_map_length_const _ 3%nat) by reflexivity.
  rewrite length_seq. lia.
Qed.

Lemma PlaneGeometry_vertex width height gridX gridY ix iy :
  (ix <= gridX)%nat -> (iy <= gridY)%nat ->
  let plane := PlaneGeometry width height gridX gridY in
  let i := (iy * (gridX + 1) + ix)%nat in
  nth (3 * i) plane 0
  = inject_Z (Z.of_nat ix) * (width / inject_Z (Z.of_nat gridX)) - width / 2 /\
  nth (3 * i + 1) plane 0
  = - (inject_Z (Z.of_nat iy) * (height / inject_Z (Z.of_nat gridY)) - height / 2) /\
  nth (3 * i + 2) plane 0 = 0.
Proof.
  intros Hx Hy. cbv zeta. unfold PlaneGeometry.
  generalize (width / inject_Z (Z.of_nat gridX)) (width / 2)
             (height / inject_Z (Z.of_nat gridY)) (height / 2).
  intros sw wh sh hh.
  assert (G : forall n s iy, (iy < n)%nat -> forall off, (off < 3)%nat ->
    nth (3 * (iy * (gridX + 1) + ix) + off)
        (flat_map (fun iy : nat =>
                     planeRow sw wh (gridX + 1) (inject_Z (Z.of_nat iy) * sh - hh))
                  (seq s n)) 0
    = nth (3 * ix + off)
          (planeRow sw wh (gridX + 1) (inject_Z (Z.of_nat (s + iy)) * sh - hh)) 0).
  { clear iy Hy. induction n as [|n IH]; intros s iy Hiy off Hoff; [lia|].
    cbn [seq flat_map]. destruct iy as [|iy].
    - rewrite Nat.add_0_r. cbn [Nat.mul Nat.add].
      rewrite app_nth1 by (rewrite planeRow_length; lia). reflexivity.
    - rewrite app_nth2 by (rewrite planeRow_length; lia).
      rewrite planeRow_length.
      replace (3 * (S iy * (gridX + 1) + ix) + off - 3 * (gridX + 1))%nat
        with (3 * (iy * (gridX + 1) + ix) + off)%nat by lia.
      replace (s + S iy)%nat with (S s + iy)%nat by lia.
      apply IH; lia. }
  destruct (planeRow_vertex sw wh (gridX + 1)
              (inject_Z (Z.of_nat iy) * sh - hh) ix ltac:(lia)) as (Rx & Ry & Rz).
  assert (G0 := G (gridY + 1)%nat 0%nat iy ltac:(lia) 0%nat ltac:(lia)).
  assert (G1 := G (gridY + 1)%nat 0%nat iy ltac:(lia) 1%nat ltac:(lia)).
  assert (G2 := G (gridY + 1)%nat 0%nat iy ltac:(lia) 2%nat ltac:(lia)).
  rewrite !Nat.add_0_r in G0. cbn [Nat.add] in G1, G2.
  rewrite G0, G1, G2. repeat split; assumption.
Qed.

(** X24.  The vertices of the generated terrain lie on a single curve.  The plane
    of Three.js has its vertices at [(x, -y, 0)]; [generateTerrain] reads
    the third coordinate, which is 0 everywhere, as [z] and overwrites the
    second one, so the vertex of row [iy] and column [ix] ends at the same
    point as the vertex of row 0 and column [ix], whatever the row. *)
Theorem generateTerrain_rows_coincide noiseTable env ix iy :
  let n := segments (terrain_config (config env)) in
  (ix <= n)%nat -> (iy <= n)%nat ->
  exists vertices,
    terrain (generateTerrain noiseTable env) = Some vertices /\
    let i := (iy * (n + 1) + ix)%nat in
    nth (3 * i) vertices 0 = nth (3 * ix) vertices 0 /\
    nth (3 * i + 1) vertices 0 = nth (3 * ix + 1) vertices 0 /\
    nth (3 * i + 2) vertices 0 = nth (3 * ix + 2) vertices 0 /\
    nth (3 * i + 2) vertices 0 = 0.
Proof.
  intros n Hx Hy. subst n.
  set (c := terrain_config (config env)) in *.
  set (n := segments c) in *.
  set (plane := PlaneGeometry (size c) (size c) n n).
  exists (applyHeights noiseTable c plane). split; [reflexivity|]. cbv zeta.
  assert (Hlen : length plane = (3 * ((n + 1) * (n + 1)))%nat)
    by (unfold plane; apply PlaneGeometry_length).
  set (env' := generateTerrain noiseTable env).
  destruct (PlaneGeometry_vertex (size c) (size c) n n ix iy Hx Hy) as (Px & _ & Pz).
  destruct (PlaneGeometry_vertex (size c) (size c) n n ix 0 Hx ltac:(lia))
    as (Px0 & _ & Pz0).
  cbv zeta in Px, Pz, Px0, Pz0.
  change (0 * (n + 1) + ix)%nat with ix in Px0, Pz0.
  fold plane in Px, Pz, Px0, Pz0.
  assert (Hi : (3 * (iy * (n + 1) + ix) + 2 < length plane)%nat) by nia.
  assert (Hi0 : (3 * ix + 2 < length plane)%nat) by nia.
  destruct (applyHeights_vertex noiseTable env' (applyHeights noiseTable c plane)
              plane _ eq_refl Hi) as (Ax & Az & Ay).
  destruct (applyHeights_vertex noiseTable env' (applyHeights noiseTable c plane)
              plane _ eq_refl Hi0) as (Ax0 & Az0 & Ay0).
  cbv zeta in Ax, Az, Ay, Ax0, Az0, Ay0.
  change (terrain_config (config env')) with c in *.
  rewrite Ax, Ay, Az, Ax0, Ay0, Az0, Px, Pz, Px0, Pz0.
  repeat split; reflexivity.
Qed.

Lemma generateTerrain_rows_coincide_witness :
  exists vertices,
    terrain (generateTerrain Samples.identityTable
                             (newEnvironment Samples.scenarioConfig))
    = Some vertices /\
    let i := (7 * (10 + 1) + 3)%nat in
    nth (3 * i) vertices 0 = nth (3 * 3) vertices 0 /\
    nth (3 * i + 1) vertices 0 = nth (3 * 3 + 1) vertices 0 /\
    nth (3 * i + 2) vertices 0 = nth (3 * 3 + 2) vertices 0 /\
    nth (3 * i + 2) vertices 0 = 0.
Proof.
  apply (generateTerrain_rows_coincide
           Samples.identityTable (newEnvironment Samples.scenarioConfig) 3 7);
    cbn; lia.
Defined.

Section WorldFacts.
Import EnvironmentStats.

Variable noiseTable : list Z.
Variables (Math_cos Math_sin : Q -> Q) (Math_PI : Q).
Variable randomPosition : nat -> Q * Q.
Variable randomBlade : nat -> nat -> Q * Q.

Local Abbreviation candidate :=
  (getRandomTerrainPosition Math_cos Math_sin Math_PI randomPosition).
Local Abbreviation placeTreesRun' :=
  (placeTreesRun Math_cos Math_sin Math_PI randomPosition).
Local Abbreviation placeTrees' :=
  (placeTrees Math_cos Math_sin Math_PI randomPosition).
Local Abbreviation grassPatchStep' :=
  (grassPatchStep noiseTable Math_cos Math_sin Math_PI randomPosition randomBlade).
Local Abbreviation flowerStep' :=
  (flowerStep noiseTable Math_cos Math_sin Math_PI randomPosition).
Local Abbreviation rockStep' :=
  (rockStep noiseTable Math_cos Math_sin Math_PI randomPosition).
Local Abbreviation init' :=
  (init noiseTable Math_cos Math_sin Math_PI randomPosition randomBlade).

Hypothesis unit_circle :
  forall a, Math_cos a * Math_cos a + Math_sin a * Math_sin a <= 1.
Hypothesis random_position : forall k, 0 <= snd (randomPosition k) < 1.
Hypothesis random_blade :
  forall k i, 0 <= fst (randomBlade k i) < 1 /\ 0 <= snd (randomBlade k i) < 1.

Lemma candidate_withinDistance maxDistance k :
  0 <= maxDistance -> withinDistance maxDistance (candidate maxDistance k).
Proof.
  intro Hm. unfold withinDistance, getRandomTerrainPosition. cbn [vx vz].
  set (a := fst (randomPosition k) * Math_PI * 2).
  destruct (random_position k) as [R0 R1].
  set (r := snd (randomPosition k)) in *.
  assert (Hu := unit_circle a).
  set (u := Math_cos a * Math_cos a + Math_sin a * Math_sin a) in *.
  assert (D0 : 0 <= r * maxDistance) by (apply Qmult_le_0_compat; lra).
  assert (D1 : 0 <= (1 - r) * maxDistance) by (apply Qmult_le_0_compat; lra).
  assert (Dd : 0 <= r * maxDistance * (r * maxDistance))
    by (apply Qmult_le_0_compat; assumption).
  assert (P1 : 0 <= (1 - u) * (r * maxDistance * (r * maxDistance)))
    by (apply Qmult_le_0_compat; lra).
  assert (P2 : 0 <= (maxDistance - r * maxDistance) * (maxDistance + r * maxDistance))
    by (apply Qmult_le_0_compat; lra).
  assert (E1 : Math_cos a * (r * maxDistance) * (Math_cos a * (r * maxDistance))
               + Math_sin a * (r * maxDistance) * (Math_sin a * (r * maxDistance))
               == r * maxDistance * (r * maxDistance)
                  - (1 - u) * (r * maxDistance * (r * maxDistance)))
    by (unfold u; ring).
  assert (E2 : (maxDistance - r * maxDistance) * (maxDistance + r * maxDistance)
               == maxDistance * maxDistance - r * maxDistance * (r * maxDistance))
    by ring.
  lra.
Qed.


Section WithConfig.

Variable c : Config.
Hypothesis grass_distance : 0 <= grass_maxDistance (grass_config c).
Hypothesis flowers_distance : 0 <= flowers_maxDistance (flowers_config c).
Hypothesis rocks_distance : 0 <= rocks_maxDistance (rocks_config c).

(** What the three loops after [placeTrees] keep true of the objects they
    have placed so far. *)
Local Abbreviation placedWithin e :=
  (config e = c /\
   Forall (Forall (aroundPatch (grass_maxDistance (grass_config c)))) (grassPatches e) /\
   Forall (fun i => withinDistance (flowers_maxDistance (flowers_config c)) (position i))
          (flowers e) /\
   Forall (fun i => withinDistance (rocks_maxDistance (rocks_config c)) (position i))
          (rocks e)).

Lemma grassPatchStep_placedWithin e : placedWithin e -> placedWithin (grassPatchStep' e).
Proof.
  intros (Hc & Hg & Hf & Hr). unfold grassPatchStep, createGrassPatch.
  cbn [config grassPatches flowers rocks].
  split; [exact Hc|]. split; [|split; assumption].
  apply Forall_app. split; [exact Hg|]. constructor; [|constructor].
  apply Forall_forall. intros i Hi. apply in_map_iff in Hi.
  destruct Hi as (j & <- & _). rewrite Hc.
  exists (candidate (grass_maxDistance (grass_config c)) (draws e)).
  split; [apply candidate_withinDistance; exact grass_distance|].
  unfold createGrassBlade. cbn [position vx vz].
  destruct (random_blade (draws e) j) as [[A0 A1] [B0 B1]].
  split; apply Qabs_Qle_condition; split; lra.
Qed.

Lemma flowerStep_placedWithin e : placedWithin e -> placedWithin (flowerStep' e).
Proof.
  intros (Hc & Hg & Hf & Hr). unfold flowerStep, createFlower.
  cbn [config grassPatches flowers rocks].
  split; [exact Hc|]. split; [exact Hg|]. split; [|exact Hr].
  apply Forall_app. split; [exact Hf|]. constructor; [|constructor].
  rewrite Hc. cbn [position].
  apply (candidate_withinDistance _ (draws e) flowers_distance).
Qed.

Lemma rockStep_placedWithin e : placedWithin e -> placedWithin (rockStep' e).
Proof.
  intros (Hc & Hg & Hf & Hr). unfold rockStep, createRock.
  cbn [config grassPatches flowers rocks].
  split; [exact Hc|]. split; [exact Hg|]. split; [exact Hf|].
  apply Forall_app. split; [exact Hr|]. constructor; [|constructor].
  rewrite Hc. cbn [position].
  apply (candidate_withinDistance _ (draws e) rocks_distance).
Qed.

Lemma init_placedWithin : placedWithin (init' (newEnvironment c)).
Proof.
  unfold init, placeRocks, placeVegetation, placeFlowers, createGrassPatches.
  apply (repeat_step_invariant _ (fun e => placedWithin e));
    [exact rockStep_placedWithin|].
  apply (repeat_step_invariant _ (fun e => placedWithin e));
    [exact flowerStep_placedWithin|].
  apply (repeat_step_invariant _ (fun e => placedWithin e));
    [exact grassPatchStep_placedWithin|].
  cbn [placeTrees generateTerrain newEnvironment config
                                grassPatches flowers rocks].
  repeat split; constructor.
Qed.

End WithConfig.

(** X25.  Everything [init] places stands within the configured distance of the
    origin: a tree, a flower and a rock within its [maxDistance], and a
    blade of grass at most 1 away, along [x] and along [z], from a patch
    centre that is within the [maxDistance] of the grass. *)
Theorem init_places_within_maxDistance (c : Config) :
  0 <= trees_maxDistance (trees_config c) ->
  0 <= grass_maxDistance (grass_config c) ->
  0 <= flowers_maxDistance (flowers_config c) ->
  0 <= rocks_maxDistance (rocks_config c) ->
  let final := init' (newEnvironment c) in
  Forall (fun i => withinDistance (trees_maxDistance (trees_config c)) (position i))
         (trees final) /\
  Forall (Forall (aroundPatch (grass_maxDistance (grass_config c))))
         (grassPatches final) /\
  Forall (fun i => withinDistance (flowers_maxDistance (flowers_config c)) (position i))
         (flowers final) /\
  Forall (fun i => withinDistance (rocks_maxDistance (rocks_config c)) (position i))
         (rocks final).
Proof.
  intros Ht Hg Hf Hr final.
  destruct (init_placedWithin c Hg Hf Hr) as (_ & Hgrass & Hflowers & Hrocks).
  split; [|split; [exact Hgrass | split; [exact Hflowers | exact Hrocks]]].
  destruct (init_spec noiseTable Math_cos Math_sin Math_PI randomPosition
                      randomBlade c) as (_ & Htrees & _).
  cbv zeta in Htrees. unfold final. rewrite Htrees.
  destruct (placeTreesRun_spec Math_cos Math_sin Math_PI randomPosition
              (generateTerrain noiseTable (newEnvironment c)))
    as (_ & _ & _ & Hdrawn & _).
  cbv zeta in Hdrawn. apply Forall_map.
  eapply Forall_impl; [|exact Hdrawn].
  intros p (k & _ & ->). cbn [position].
  apply candidate_withinDistance. exact Ht.
Qed.

(** X26.  The statistics computed at the end of [init]: the number of objects is
    the number of trees that could be placed, plus the configured numbers
    of grass patches, flowers and rocks, plus one for the terrain, so it is
    at most the sum of the configured numbers plus one; the triangle
    estimate counts a third of the [(segments + 1)^2] terrain vertices. *)
Theorem updateStats_after_init (c : Config) :
  let final := init' (newEnvironment c) in
  let stats := updateStats final newStats in
  let n := segments (terrain_config c) in
  objects stats
  = (length (trees final) + patchCount (grass_config c)
     + flowers_count (flowers_config c) + rocks_count (rocks_config c) + 1)%nat /\
  (objects stats
   <= trees_count (trees_config c) + patchCount (grass_config c)
      + flowers_count (flowers_config c) + rocks_count (rocks_config c) + 1)%nat /\
  triangles stats
  == inject_Z (Z.of_nat ((n + 1) * (n + 1))) / 3
     + inject_Z (Z.of_nat (length (trees final))) * 200
     + inject_Z (Z.of_nat (patchCount (grass_config c)))
       * inject_Z (Z.of_nat (bladesPerPatch (grass_config c))) * 2
     + inject_Z (Z.of_nat (flowers_count (flowers_config c))) * 20
     + inject_Z (Z.of_nat (rocks_count (rocks_config c))) * 50.
Proof.
  intros final stats n.
  destruct (init_spec noiseTable Math_cos Math_sin Math_PI randomPosition
                      randomBlade c)
    as ([Hconfig Hterrain] & Htrees & Hg & Hf & Hr & _).
  cbv zeta in Hconfig, Hterrain, Htrees, Hg, Hf, Hr.
  fold final in Hconfig, Hterrain, Htrees, Hg, Hf, Hr.
  destruct (placeTreesRun_spec Math_cos Math_sin Math_PI randomPosition
              (generateTerrain noiseTable (newEnvironment c)))
    as (Hcount & _).
  cbv zeta in Hcount. cbn [generateTerrain newEnvironment config] in Hcount.
  assert (Hlen : length (trees final)
                 = length (placedPositions
                             (placeTreesRun' (generateTerrain noiseTable
                                                              (newEnvironment c)))))
    by (rewrite Htrees; apply length_map).
  unfold stats, updateStats. cbn [objects triangles].
  rewrite Hg, Hf, Hr, Hconfig, Hterrain.
  cbn [generateTerrain newEnvironment config terrain].
  split; [reflexivity|]. split; [lia|].
  unfold vertexCount. rewrite applyHeights_length, PlaneGeometry_length.
  rewrite Nat.mul_comm, Nat.div_mul by discriminate.
  fold n. ring.
Qed.

End WorldFacts.

Lemma init_places_within_maxDistance_witness :
  let c := Samples.scenarioConfig in
  let final := init Samples.identityTable (fun _ => 3 # 5) (fun _ => 4 # 5)
                    Samples.samplePI Samples.constantDraws Samples.sampleBlades
                    (newEnvironment c) in
  Forall (fun i => EnvironmentStats.withinDistance
                     (trees_maxDistance (trees_config c)) (position i))
         (trees final) /\
  Forall (Forall (EnvironmentStats.aroundPatch (grass_maxDistance (grass_config c))))
         (grassPatches final) /\
  Forall (fun i => EnvironmentStats.withinDistance
                     (flowers_maxDistance (flowers_config c)) (position i))
         (flowers final) /\
  Forall (fun i => EnvironmentStats.withinDistance
                     (rocks_maxDistance (rocks_config c)) (position i))
         (rocks final).
Proof.
  apply (init_places_within_maxDistance
           Samples.identityTable (fun _ => 3 # 5) (fun _ => 4 # 5) Samples.samplePI
           Samples.constantDraws Samples.sampleBlades);
    try (intro; intros; vm_compute; repeat split; discriminate);
    try (intro; vm_compute; repeat split; discriminate);
    discriminate.
Defined.

(** ** Terrain, water and paths of GeometryUtils *)

Section ShapeFacts.
Import GeometryShapes.

Lemma triples_ind {A : Type} (P : list A -> Prop) :
  (forall l, (length l < 3)%nat -> P l) ->
  (forall x y z rest, P rest -> P (x :: y :: z :: rest)) ->
  forall l, P l.
Proof.
  intros Hshort Hstep l.
  remember (length l) as n eqn:Hn. revert l Hn.
  induction n as [n IH] using lt_wf_ind. intros l Hn.
  destruct l as [|x [|y [|z rest]]]; try (apply Hshort; cbn; lia).
  apply Hstep. apply (IH (length rest)); [subst n; cbn; lia | reflexivity].
Qed.

Lemma applyTerrainHeights_length noiseTable config positions :
  length (applyTerrainHeights noiseTable config positions) = length positions.
Proof.
  induction positions as [l Hl | x y z rest IH] using triples_ind.
  - destruct l as [|x [|y [|z rest]]]; try reflexivity. cbn in Hl. lia.
  - cbn [applyTerrainHeights length]. rewrite IH. reflexivity.
Qed.

Lemma applyTerrainHeights_vertex noiseTable config positions i :
  (3 * i + 2 < length positions)%nat ->
  let out := applyTerrainHeights noiseTable config positions in
  nth (3 * i) out 0 = nth (3 * i) positions 0 /\
  nth (3 * i + 2) out 0 = nth (3 * i + 2) positions 0 /\
  nth (3 * i + 1) out 0
  = fractalNoise noiseTable (nth (3 * i) positions 0 * terrain_noiseScale config)
                 (nth (3 * i + 2) positions 0 * terrain_noiseScale config)
                 (octaves config) (persistence config)
    * terrain_heightVariation config.
Proof.
  revert positions. induction i as [|i IH]; intros positions Hlen.
  - destruct positions as [|x [|y [|z rest]]]; cbn in Hlen; try lia.
    cbn [applyTerrainHeights Nat.mul Nat.add nth]. repeat split; reflexivity.
  - destruct positions as [|x [|y [|z rest]]]; cbn [length] in Hlen; try lia.
    replace (3 * S i)%nat with (S (S (S (3 * i)))) by lia.
    replace (S (S (S (3 * i))) + 2)%nat with (S (S (S (3 * i + 2)))) by lia.
    replace (S (S (S (3 * i))) + 1)%nat with (S (S (S (3 * i + 1)))) by lia.
    cbn [applyTerrainHeights nth]. apply IH. lia.
Qed.



(** *** Water *)

Section WaterFacts.

Variable Math_sin : num -> num.

Local Abbreviation waveLoop' := (waveLoop Math_sin).
Local Abbreviation animateWaterSurface' := (animateWaterSurface Math_sin).

Lemma waveLoop_again config original t1 t2 positions :
  forall i,
    waveLoop' config original t2 i (waveLoop' config original t1 i positions)
    = waveLoop' config original t2 i positions.
Proof.
  induction positions as [l Hl | x y z rest IH] using triples_ind; intro i.
  - destruct l as [|x [|y [|z rest]]]; try reflexivity. cbn in Hl. lia.
  - cbn [waveLoop]. rewrite IH. reflexivity.
Qed.

Lemma waveLoop_length config original time positions :
  forall i, length (waveLoop' config original time i positions) = length positions.
Proof.
  induction positions as [l Hl | x y z rest IH] using triples_ind; intro i.
  - destruct l as [|x [|y [|z rest]]]; try reflexivity. cbn in Hl. lia.
  - cbn [waveLoop length]. rewrite IH. reflexivity.
Qed.

(** What the theorem below uses of the runtime's sine: the sine of a finite
    number is a finite number between -1 and 1. *)
Hypothesis sine_range :
  forall q, exists r, Math_sin (Fin q) = Fin r /\ -1 <= r <= 1.

Lemma wave_height config (x z time : Q) :
  0 <= waveHeight config ->
  exists h,
    (Math_sin (Fin x * Fin (waveFrequency config) + Fin time)
     * Fin (waveHeight config)
     + Math_sin (Fin z * Fin (waveFrequency config) * Fin (13 # 10)
                 + Fin time * Fin (12 # 10))
       * Fin (waveHeight config) * Fin (7 # 10)
     + Math_sin ((Fin x + Fin z) * Fin (waveFrequency config) * Fin (7 # 10)
                 + Fin time * Fin (8 # 10))
       * Fin (waveHeight config) * Fin (5 # 10))%num = Fin h /\
    Qabs h <= (22 # 10) * waveHeight config.
Proof.
  intro Hh. cbn [nmul nadd].
  destruct (sine_range (x * waveFrequency config + time)) as (s1 & -> & S1).
  destruct (sine_range (z * waveFrequency config * (13 # 10) + time * (12 # 10)))
    as (s2 & -> & S2).
  destruct (sine_range ((x + z) * waveFrequency config * (7 # 10) + time * (8 # 10)))
    as (s3 & -> & S3).
  cbn [nmul nadd]. eexists. split; [reflexivity|].
  set (w := waveHeight config) in *.
  assert (A1 : 0 <= (1 - s1) * w) by (apply Qmult_le_0_compat; lra).
  assert (B1 : 0 <= (1 + s1) * w) by (apply Qmult_le_0_compat; lra).
  assert (A2 : 0 <= (1 - s2) * w) by (apply Qmult_le_0_compat; lra).
  assert (B2 : 0 <= (1 + s2) * w) by (apply Qmult_le_0_compat; lra).
  assert (A3 : 0 <= (1 - s3) * w) by (apply Qmult_le_0_compat; lra).
  assert (B3 : 0 <= (1 + s3) * w) by (apply Qmult_le_0_compat; lra).
  assert (E : s1 * w + s2 * w * (7 # 10) + s3 * w * (5 # 10)
              == (22 # 10) * w - ((1 - s1) * w + (7 # 10) * ((1 - s2) * w)
                                  + (5 # 10) * ((1 - s3) * w))) by ring.
  assert (E' : s1 * w + s2 * w * (7 # 10) + s3 * w * (5 # 10)
               == - ((22 # 10) * w) + ((1 + s1) * w + (7 # 10) * ((1 + s2) * w)
                                       + (5 # 10) * ((1 + s3) * w))) by ring.
  apply Qabs_Qle_condition. split; lra.
Qed.

Lemma read_map (l : list Q) (i : nat) :
  (i < length l)%nat -> read (map Fin l) i = Fin (nth i l 0).
Proof.
  intro Hi. unfold read.
  rewrite (nth_indep _ NaN (Fin 0)) by (rewrite length_map; exact Hi).
  apply map_nth.
Qed.

Lemma waveLoop_vertex config (original : list Q) (time : Q) :
  0 <= waveHeight config ->
  forall (positions : list Q) (offset i : nat),
    (3 * offset + 3 * i + 2 < length original)%nat ->
    (3 * i + 2 < length positions)%nat ->
    let out := waveLoop' config (map Fin original) (Fin time) (3 * offset)
                         (map Fin positions) in
    nth (3 * i) out NaN = Fin (nth (3 * i) positions 0) /\
    nth (3 * i + 2) out NaN = Fin (nth (3 * i + 2) positions 0) /\
    exists h, nth (3 * i + 1) out NaN = Fin h /\
              Qabs h <= (22 # 10) * waveHeight config.
Proof.
  intros Hh positions offset i. revert positions offset.
  induction i as [|i IH]; intros positions offset Ho Hp.
  - destruct positions as [|x [|y [|z rest]]]; cbn [length] in Hp; try lia.
    cbn [map waveLoop Nat.mul Nat.add nth].
    split; [reflexivity|]. split; [reflexivity|].
    rewrite !read_map by lia.
    apply wave_height. exact Hh.
  - destruct positions as [|x [|y [|z rest]]]; cbn [length] in Hp; try lia.
    replace (3 * S i)%nat with (S (S (S (3 * i)))) by lia.
    replace (S (S (S (3 * i))) + 2)%nat with (S (S (S (3 * i + 2)))) by lia.
    replace (S (S (S (3 * i))) + 1)%nat with (S (S (S (3 * i + 1)))) by lia.
    cbn [map waveLoop nth].
    replace (3 * offset + 3)%nat with (3 * S offset)%nat by lia.
    apply IH; lia.
Qed.

Lemma animateWaterSurface_again water time1 time2 :
  animateWaterSurface' (animateWaterSurface' water time1) time2
  = animateWaterSurface' water time2.
Proof.
  destruct water as [positions [[config original]|]];
    unfold animateWaterSurface; cbn [userData water_positions].
  - rewrite waveLoop_again. reflexivity.
  - reflexivity.
Qed.


End WaterFacts.

(** *** Grass blades *)

Lemma heightRatio_finite (height y : Q) :
  0 < height ->
  ((Fin y + Fin height / Fin 2) / Fin height)%num = Fin ((y + height / 2) / height).
Proof.
  intro Hh. rewrite (ndiv_finite height 2) by discriminate.
  cbn [nadd]. apply ndiv_finite. lra.
Qed.

Lemma addGrassBend_length height bend rand positions :
  forall k, length (addGrassBend height bend rand k positions) = length positions.
Proof.
  induction positions as [l Hl | x y z rest IH] using triples_ind; intro k.
  - destruct l as [|x [|y [|z rest]]]; try reflexivity. cbn in Hl. lia.
  - cbn [addGrassBend]. destruct (ngt _ _); cbn [length]; rewrite IH; reflexivity.
Qed.

Lemma addGrassBend_vertex (height bend : Q) rand :
  0 < height -> 0 <= bend -> (forall k : nat, 0 <= rand k < 1) ->
  forall (i : nat) (coordinates : list Q) (k : nat),
    (3 * i + 2 < length coordinates)%nat ->
    let out := addGrassBend (Fin height) (Fin bend) rand k (map Fin coordinates) in
    let x := nth (3 * i) coordinates 0 in
    let y := nth (3 * i + 1) coordinates 0 in
    nth (3 * i + 1) out NaN = Fin y /\
    nth (3 * i + 2) out NaN = Fin (nth (3 * i + 2) coordinates 0) /\
    exists r, nth (3 * i) out NaN = Fin r /\
      (y <= - (height / 2) -> r == x) /\
      (y <= height / 2 -> Qabs (r - x) <= bend).
Proof.
  intros Hh Hb Hrand. induction i as [|i IH]; intros coordinates k Hlen.
  - destruct coordinates as [|x [|y [|z rest]]]; cbn [length] in Hlen; try lia.
    cbn [map addGrassBend Nat.mul Nat.add nth].
    rewrite heightRatio_finite by exact Hh.
    set (ratio := (y + height / 2) / height).
    assert (Er : y + height / 2 == ratio * height) by (unfold ratio; field; lra).
    assert (Eh : height / 2 == height * (1 # 2)) by field.
    cbn [ngt]. destruct (Qltb_cases 0 ratio) as [[-> Hr]|[-> Hr]].
    + cbn [nth nmul nadd]. split; [reflexivity|]. split; [reflexivity|].
      eexists. split; [reflexivity|].
      assert (Hpos : 0 < ratio * height) by (apply Qmult_lt_0_compat; assumption).
      split; [intro Hy; lra|]. intro Hy.
      assert (Hr1 : ratio <= 1).
      { destruct (Qlt_le_dec 1 ratio) as [Hc|Hc]; [|exact Hc].
        assert (0 < (ratio - 1) * height) by (apply Qmult_lt_0_compat; lra).
        assert (E : (ratio - 1) * height == ratio * height - height) by ring.
        lra. }
      destruct (Hrand k) as [R0 R1].
      unfold BasicMath.random.
      set (d := -1 + rand k * (1 - -1)).
      assert (Hd : -1 <= d /\ d <= 1) by (unfold d; split; lra).
      assert (Hq : 0 <= ratio * ratio <= 1).
      { split; [apply Qsquare_nonneg|].
        assert (0 <= (1 - ratio) * (1 + ratio)) by (apply Qmult_le_0_compat; lra).
        assert (E : (1 - ratio) * (1 + ratio) == 1 - ratio * ratio) by ring. lra. }
      set (q := ratio * ratio) in *.
      assert (Hbq : 0 <= bend * q /\ bend * q <= bend).
      { split; [apply Qmult_le_0_compat; lra|].
        assert (0 <= bend * (1 - q)) by (apply Qmult_le_0_compat; lra).
        assert (E : bend * (1 - q) == bend - bend * q) by ring. lra. }
      assert (Eq : bend * ratio * ratio == bend * q) by (unfold q; ring).
      assert (Ex : x + bend * ratio * ratio * d - x == bend * q * d)
        by (rewrite Eq; ring).
      rewrite Ex.
      assert (P1 : 0 <= bend * q * (1 - d)) by (apply Qmult_le_0_compat; lra).
      assert (P2 : 0 <= bend * q * (1 + d)) by (apply Qmult_le_0_compat; lra).
      assert (E1 : bend * q * (1 - d) == bend * q - bend * q * d) by ring.
      assert (E2 : bend * q * (1 + d) == bend * q + bend * q * d) by ring.
      apply Qabs_Qle_condition. split; lra.
    + cbn [nth]. split; [reflexivity|]. split; [reflexivity|].
      exists x. split; [reflexivity|]. split; [reflexivity|].
      intros _. assert (E : x - x == 0) by ring. rewrite E. exact Hb.
  - destruct coordinates as [|x [|y [|z rest]]]; cbn [length] in Hlen; try lia.
    replace (3 * S i)%nat with (S (S (S (3 * i)))) by lia.
    replace (S (S (S (3 * i))) + 2)%nat with (S (S (S (3 * i + 2)))) by lia.
    replace (S (S (S (3 * i))) + 1)%nat with (S (S (S (3 * i + 1)))) by lia.
    cbn [map addGrassBend]. destruct (ngt _ _); cbn [nth]; apply IH; lia.
Qed.

(** X29.  A grass blade bends sideways only: [createGrassBlade] returns
    [2 * (segments + 1)] vertices, keeps [y] and [z] of every vertex of the
    plane, moves [x] by at most [bend], and leaves the two vertices of the
    base, the last row, where they are. *)
Theorem createGrassBlade_bends_sideways config rand ix iy :
  0 < blade_height config -> 0 <= bend config ->
  (forall k : nat, 0 <= rand k < 1) ->
  let n := blade_segments config in
  (1 <= n)%nat -> (ix <= 1)%nat -> (iy <= n)%nat ->
  let plane := PlaneGeometry (blade_width config) (blade_height config) 1 n in
  let blade := GeometryShapes.createGrassBlade config rand in
  let i := (iy * 2 + ix)%nat in
  length blade = (3 * (2 * (n + 1)))%nat /\
  nth (3 * i + 1) blade NaN = Fin (nth (3 * i + 1) plane 0) /\
  nth (3 * i + 2) blade NaN = Fin 0 /\
  exists r, nth (3 * i) blade NaN = Fin r /\
    Qabs (r - nth (3 * i) plane 0) <= bend config /\
    (iy = n -> r == nth (3 * i) plane 0).
Proof.
  intros Hh Hb Hrand n Hn Hx Hy plane blade i. subst blade i.
  unfold GeometryShapes.createGrassBlade. fold n. fold plane.
  assert (Hlen : length plane = (3 * ((1 + 1) * (n + 1)))%nat)
    by (unfold plane; apply PlaneGeometry_length).
  destruct (PlaneGeometry_vertex (blade_width config) (blade_height config)
                                 1 n ix iy Hx Hy) as (_ & Py & Pz).
  cbv zeta in Py, Pz. change (1 + 1)%nat with 2%nat in Py, Pz. fold plane in Py, Pz.
  destruct (addGrassBend_vertex (blade_height config) (bend config) rand Hh Hb Hrand
              (iy * 2 + ix) plane 0 ltac:(lia)) as (Vy & Vz & r & Vx & Hbase & Hbend).
  cbv zeta in Vy, Vz, Vx, Hbase, Hbend.
  split; [rewrite addGrassBend_length, length_map, Hlen; lia|].
  split; [exact Vy|]. split; [rewrite Vz, Pz; reflexivity|].
  exists r. split; [exact Vx|].
  set (h := blade_height config) in *.
  assert (Hn0 : 0 < inject_Z (Z.of_nat n)).
  { change 0 with (inject_Z 0). rewrite <- Zlt_Qlt. lia. }
  assert (Hiy : 0 <= inject_Z (Z.of_nat iy)).
  { change 0 with (inject_Z 0). rewrite <- Zle_Qle. lia. }
  assert (Hstep : 0 <= inject_Z (Z.of_nat iy) * (h / inject_Z (Z.of_nat n))).
  { apply Qmult_le_0_compat; [exact Hiy|].
    apply Qle_shift_div_l; [exact Hn0 | lra]. }
  assert (Eh : h / 2 == h * (1 # 2)) by field.
  split.
  - apply Hbend. rewrite Py. lra.
  - intro E. apply Hbase. rewrite Py, E.
    assert (Ef : inject_Z (Z.of_nat n) * (h / inject_Z (Z.of_nat n)) == h)
      by (field; lra).
    rewrite Ef. lra.
Qed.

(** *** Paths *)

Lemma find_seq_first (f : nat -> bool) (n a i : nat) :
  (a <= i < a + n)%nat -> f i = true ->
  (forall j, (a <= j < i)%nat -> f j = false) ->
  find f (seq a n) = Some i.
Proof.
  revert a. induction n as [|n IH]; intros a Hi Hf Hbefore; [lia|].
  cbn [seq find]. destruct (Nat.eq_dec a i) as [->|Hne].
  - rewrite Hf. reflexivity.
  - rewrite (Hbefore a) by lia. apply IH; [lia | exact Hf |].
    intros j Hj. apply Hbefore. lia.
Qed.

Lemma find_seq_none (f : nat -> bool) (n a : nat) :
  (forall j, (a <= j < a + n)%nat -> f j = false) -> find f (seq a n) = None.
Proof.
  revert a. induction n as [|n IH]; intros a Hall; [reflexivity|].
  cbn [seq find]. rewrite (Hall a) by lia. apply IH.
  intros j Hj. apply Hall. lia.
Qed.

Lemma Qle_bool_false x y : y < x -> Qle_bool x y = false.
Proof.
  intro H. destruct (Qle_bool x y) eqn:E; [|reflexivity].
  apply Qle_bool_iff in E. lra.
Qed.

Lemma findSegment_found distances target (i : nat) :
  (1 <= i < length distances)%nat ->
  target <= nth i distances 0 ->
  (forall j, (1 <= j < i)%nat -> nth j distances 0 < target) ->
  findSegment distances target = Some i.
Proof.
  intros Hi Hle Hbefore. unfold findSegment.
  apply find_seq_first; [lia | apply Qle_bool_iff; exact Hle |].
  intros j Hj. apply Qle_bool_false. apply Hbefore. lia.
Qed.

Lemma lerpVectors_at a b (t : Q) :
  (t == 0 -> sameVector (lerpVectors a b (Fin t)) (finiteVector a)) /\
  (t == 1 -> sameVector (lerpVectors a b (Fin t)) (finiteVector b)).
Proof.
  unfold sameVector, lerpVectors, finiteVector. cbn.
  split; intro E; rewrite E; repeat split; ring.
Qed.

(** X30.  [getPositionAlongPath] on a path whose cumulative distances increase
    strictly: at the distance of a path point it returns that point, beyond
    the end of the path it returns the last point.  Where the first two
    points coincide, so that the first two distances are equal, it divides
    0 by 0 at that distance and returns a position that is NaN in every
    coordinate. *)
Theorem getPositionAlongPath_on_path points distances :
  length points = length distances -> (2 <= length distances)%nat ->
  (forall j i, (j < i < length distances)%nat ->
               nth j distances 0 < nth i distances 0) ->
  (forall i p, nth_error points i = Some p ->
     exists v, getPositionAlongPath points distances (nth i distances 0) = Some v /\
               sameVector v (finiteVector p)) /\
  (forall target p,
     (forall i, (i < length distances)%nat -> nth i distances 0 < target) ->
     nth_error points (length points - 1) = Some p ->
     getPositionAlongPath points distances target = Some (finiteVector p)) /\
  (forall p0 p1 rest d ds,
     getPositionAlongPath (p0 :: p1 :: rest) (d :: d :: ds) d = Some (NaN, NaN, NaN)).
Proof.
  intros Hlen H2 Hinc. split; [|split].
  - intros i p Hp.
    assert (Hi : (i < length distances)%nat).
    { rewrite <- Hlen. apply nth_error_Some. rewrite Hp. discriminate. }
    unfold getPositionAlongPath.
    destruct i as [|i].
    + rewrite (findSegment_found distances (nth 0 distances 0) 1);
        [| lia | apply Qlt_le_weak, Hinc; lia | intros j Hj; lia].
      cbn [Nat.sub]. rewrite Hp.
      destruct (nth_error points 1) as [b|] eqn:Eb.
      2:{ apply nth_error_None in Eb. lia. }
      assert (Hd := Hinc 0%nat 1%nat ltac:(lia)).
      rewrite ndiv_finite by lra.
      eexists. split; [reflexivity|].
      apply lerpVectors_at. field. lra.
    + rewrite (findSegment_found distances (nth (S i) distances 0) (S i));
        [| lia | lra | intros j Hj; apply Hinc; lia].
      replace (S i - 1)%nat with i by lia. rewrite Hp.
      destruct (nth_error points i) as [a|] eqn:Ea.
      2:{ apply nth_error_None in Ea. lia. }
      assert (Hd := Hinc i (S i) ltac:(lia)).
      rewrite ndiv_finite by lra.
      eexists. split; [reflexivity|].
      apply lerpVectors_at. field. lra.
  - intros target p Hbeyond Hp. unfold getPositionAlongPath, findSegment.
    rewrite find_seq_none.
    + rewrite Hp. reflexivity.
    + intros j Hj. apply Qle_bool_false. apply Hbeyond. lia.
  - intros p0 p1 rest d ds. unfold getPositionAlongPath, findSegment.
    cbn [length Nat.sub seq find nth].
    rewrite (proj2 (Qle_bool_iff d d)) by lra.
    cbn [nth Nat.sub nth_error]. unfold ndiv.
    rewrite !Qeq_bool_true by ring.
    unfold lerpVectors. cbn. reflexivity.
Qed.

End ShapeFacts.

Lemma sampleWave_range :
  forall q, exists r, Samples.sampleWave (Fin q) = Fin r /\ -1 <= r <= 1.
Proof.
  intro q. eexists. split; [reflexivity|].
  assert (Ha := Qabs_nonneg q).
  assert (Hq : - Qabs q <= q /\ q <= Qabs q).
  { split; [|apply Qle_Qabs].
    assert (H := Qle_Qabs (- q)). rewrite Qabs_opp in H. lra. }
  split.
  - apply Qle_shift_div_l; lra.
  - apply Qle_shift_div_r; lra.
Qed.


Lemma createGrassBlade_bends_sideways_witness :
  let config := GeometryShapes.defaultGrassBlade in
  let rand := fun _ : nat => 3 # 4 in
  let plane := PlaneGeometry (GeometryShapes.blade_width config)
                             (GeometryShapes.blade_height config) 1 3 in
  let blade := GeometryShapes.createGrassBlade config rand in
  let i := (3 * 2 + 1)%nat in
  length blade = (3 * (2 * (3 + 1)))%nat /\
  nth (3 * i + 1) blade NaN = Fin (nth (3 * i + 1) plane 0) /\
  nth (3 * i + 2) blade NaN = Fin 0 /\
  exists r, nth (3 * i) blade NaN = Fin r /\
    Qabs (r - nth (3 * i) plane 0) <= GeometryShapes.bend config /\
    (3%nat = 3%nat -> r == nth (3 * i) plane 0).
Proof.
  apply (createGrassBlade_bends_sideways GeometryShapes.defaultGrassBlade
                                         (fun _ => 3 # 4) 1 3).
  - reflexivity.
  - discriminate.
  - intro k. split; [discriminate | reflexivity].
  - cbn. lia.
  - lia.
  - cbn. lia.
Defined.

Lemma getPositionAlongPath_on_path_witness :
  let points := [mkVector3 0 0 0; mkVector3 3 0 4; mkVector3 3 0 10] in
  let distances := [0; 5; 11] in
  (forall i p, nth_error points i = Some p ->
     exists v, GeometryShapes.getPositionAlongPath points distances (nth i distances 0)
               = Some v /\
               GeometryShapes.sameVector v (GeometryShapes.finiteVector p)) /\
  (forall target p,
     (forall i, (i < length distances)%nat -> nth i distances 0 < target) ->
     nth_error points (length points - 1) = Some p ->
     GeometryShapes.getPositionAlongPath points distances target
     = Some (GeometryShapes.finiteVector p)) /\
  (forall p0 p1 rest d ds,
     GeometryShapes.getPositionAlongPath (p0 :: p1 :: rest) (d :: d :: ds) d
     = Some (NaN, NaN, NaN)).
Proof.
  apply (getPositionAlongPath_on_path
           [mkVector3 0 0 0; mkVector3 3 0 4; mkVector3 3 0 10] [0; 5; 11]).
  - reflexivity.
  - cbn. lia.
  - intros j i H. cbn in H.
    assert (C : ((j = 0 /\ i = 1) \/ (j = 0 /\ i = 2) \/ (j = 1 /\ i = 2))%nat) by lia.
    destruct C as [[-> ->]|[[-> ->]|[-> ->]]]; reflexivity.
Defined.
